(** * Pointer-nullability checker: a shallow embedding

    The development follows the sources it verifies:
    - [Solver]      the Boolean-formula interface the analysis talks to;
    - [Lattice]     nullability/pointer_nullability_lattice.h;
    - [Verification] nullability_verification/pointer_nullability_analysis.cc;
    - [Diagnosis]   nullability/pointer_nullability_diagnosis.cc;
    - [Samples]     a small translation unit for the examples;
    - [TypeTransfer] and [Analysis]
                    nullability/pointer_nullability_analysis.cc.

    Definitions come first, the theorems about them afterwards. *)

From stdpp Require Import gmap strings list.

Set Warnings "-register-all".

Local Open Scope string_scope.
Local Open Scope list_scope.

(* ===================================================================== *)
(** * Part I: definitions                                                 *)
(* ===================================================================== *)

(** ** Boolean formulas and the solver facade *)

Module Solver.

(** Atoms are numbered; [Lit] is [make_literal], the other constructors
    are [make_not], [make_and], [make_or], [make_implies], [make_equals]. *)
Inductive Formula : Type :=
| Atom (a : nat)
| Lit (b : bool)
| Not (f : Formula)
| And (f g : Formula)
| Or (f g : Formula)
| Implies (f g : Formula)
| Equals (f g : Formula).

Definition Valuation := nat -> bool.

Fixpoint eval (v : Valuation) (f : Formula) : bool :=
  match f with
  | Atom a => v a
  | Lit b => b
  | Not f => negb (eval v f)
  | And f g => eval v f && eval v g
  | Or f g => eval v f || eval v g
  | Implies f g => implb (eval v f) (eval v g)
  | Equals f g => Bool.eqb (eval v f) (eval v g)
  end.

Fixpoint atoms (f : Formula) : list nat :=
  match f with
  | Atom a => [a]
  | Lit _ => []
  | Not f => atoms f
  | And f g | Or f g | Implies f g | Equals f g => atoms f ++ atoms g
  end.

Definition update (v : Valuation) (a : nat) (b : bool) : Valuation :=
  fun x => if Nat.eqb x a then b else v x.

(** Every valuation of the listed atoms, all other atoms false. *)
Fixpoint valuations (xs : list nat) : list Valuation :=
  match xs with
  | [] => [fun _ => false]
  | x :: xs =>
      flat_map (fun v => [update v x true; update v x false]) (valuations xs)
  end.

(** The solver answers by truth table: it is the reference semantics of
    the facade, without the iteration budget of the real one. *)
Definition satisfiable (f : Formula) : bool :=
  existsb (fun v => eval v f) (valuations (atoms f)).

Fixpoint conjunction (fs : list Formula) : Formula :=
  match fs with
  | [] => Lit true
  | f :: fs => And f (conjunction fs)
  end.

(** A flow condition is the list of the constraints assumed so far. *)
Definition FlowCondition := list Formula.

Definition holds (v : Valuation) (fc : FlowCondition) : bool :=
  forallb (eval v) fc.

(** [Env.allows(F)]: the flow condition together with [F] has a model. *)
Definition allows (fc : FlowCondition) (f : Formula) : bool :=
  satisfiable (And (conjunction fc) f).

(** [Env.proves(F)]: the flow condition has no model falsifying [F]. *)
Definition proves (fc : FlowCondition) (f : Formula) : bool :=
  negb (satisfiable (And (conjunction fc) (Not f))).

End Solver.

(** ** Nullability kinds and vectors *)

Inductive NullabilityKind : Type := NonNull | Nullable | Unspecified.

#[global] Instance NullabilityKind_eq_dec : EqDecision NullabilityKind.
Proof. solve_decision. Defined.

(** [PointerTypeNullability]: a concrete kind, or the pair of symbolic
    atoms the inference assigned to a declaration. *)
Inductive PointerTypeNullability : Type :=
| Concrete (k : NullabilityKind)
| Symbolic (nonnull nullable : nat).

#[global] Instance PointerTypeNullability_eq_dec :
  EqDecision PointerTypeNullability.
Proof. solve_decision. Defined.

(** [TypeNullability]: one entry per pointer in a type, outer pointer first. *)
Abbreviation TypeNullability := (list PointerTypeNullability).

(** Pointers of the analysed program are kept as identities. *)
Abbreviation ExprId := nat (only parsing).
Abbreviation LocId := nat (only parsing).
Abbreviation MethodId := nat (only parsing).
Abbreviation ValueId := nat (only parsing).

(** ** The lattice (pointer_nullability_lattice.h) *)

Module Lattice.

(** [NonFlowSensitiveState::ExprToNullability]; the state is owned by the
    analysis and shared by every lattice element of one run, so it is
    threaded through the operations on its own. *)
Abbreviation ExprToNullability := (gmap nat TypeNullability).

(** The per-element part: [ConstMethodReturnValues]. *)
Record PointerNullabilityLattice : Type := mkLattice {
  ConstMethodReturnValues : gmap nat (gmap nat nat)
}.

Inductive LatticeJoinEffect : Type := Unchanged | Changed.

(** What a [GetNullability] callback can do to the shared map before it
    returns its vector: insert missing vectors for children through
    [insertExprNullabilityIfAbsent], or look a vector up. *)
Inductive Compute : Type :=
| Return (n : TypeNullability)
| ForChild (e : ExprId) (child : Compute) (k : TypeNullability -> Compute)
| Peek (e : ExprId) (k : option TypeNullability -> Compute).

Section WithCFG.

(** [dataflow::ignoreCFGOmittedNodes] belongs to the dataflow
    framework: it sends a node to the node the CFG keeps for it. *)
Variable ignoreCFGOmittedNodes : ExprId -> ExprId.

Definition getExprNullability (e : ExprId) (nfs : ExprToNullability)
  : option TypeNullability :=
  nfs !! ignoreCFGOmittedNodes e.

(** Runs a callback; [None] is the abort of [CHECK(Inserted)]. *)
Fixpoint run (c : Compute) (nfs : ExprToNullability)
  : option (TypeNullability * ExprToNullability) :=
  match c with
  | Return n => Some (n, nfs)
  | Peek e k => run (k (nfs !! ignoreCFGOmittedNodes e)) nfs
  | ForChild e child k =>
      let e' := ignoreCFGOmittedNodes e in
      match nfs !! e' with
      | Some n => run (k n) nfs
      | None =>
          match run child nfs with
          | None => None
          | Some (n, nfs') =>
              match nfs' !! e' with
              | Some _ => None
              | None => run (k n) (<[e' := n]> nfs')
              end
          end
      end
  end.

Definition insertExprNullabilityIfAbsent
    (e : ExprId) (GetNullability : Compute) (nfs : ExprToNullability)
  : option (TypeNullability * ExprToNullability) :=
  let e' := ignoreCFGOmittedNodes e in
  match nfs !! e' with
  | Some n => Some (n, nfs)
  | None =>
      match run GetNullability nfs with
      | None => None
      | Some (n, nfs') =>
          match nfs' !! e' with
          | Some _ => None
          | None => Some (n, <[e' := n]> nfs')
          end
      end
  end.

End WithCFG.

(** [getConstMethodReturnValue]: [fresh] is the value
    [Env.createValue] would hand out. *)
Definition getConstMethodReturnValue
    (RecordLoc : LocId) (Method : MethodId) (fresh : ValueId)
    (L : PointerNullabilityLattice) : ValueId * PointerNullabilityLattice :=
  let ObjMap := default ∅ (ConstMethodReturnValues L !! RecordLoc) in
  match ObjMap !! Method with
  | Some PV =>
      (PV, mkLattice (<[RecordLoc := ObjMap]> (ConstMethodReturnValues L)))
  | None =>
      (fresh,
       mkLattice (<[RecordLoc := <[Method := fresh]> ObjMap]>
                    (ConstMethodReturnValues L)))
  end.

Definition clearConstMethodReturnValues
    (RecordLoc : LocId) (L : PointerNullabilityLattice)
  : PointerNullabilityLattice :=
  mkLattice (delete RecordLoc (ConstMethodReturnValues L)).

(** [operator==] *)
Definition equal (L Other : PointerNullabilityLattice) : bool := true.

(** [join]: the effect and the element after the call. *)
Definition join (L Other : PointerNullabilityLattice)
  : LatticeJoinEffect * PointerNullabilityLattice :=
  if decide (ConstMethodReturnValues L = ∅) then (Unchanged, L)
  else (Changed, mkLattice ∅).

End Lattice.

(** ** Null-check comparison
       (nullability_verification/pointer_nullability_analysis.cc) *)

Module Verification.
Import Solver.

Inductive BinaryOperatorKind : Type := BO_EQ | BO_NE | BO_Other.

Record BinaryOperator : Type := mkBinaryOperator {
  bo_id : ExprId;
  bo_opcode : BinaryOperatorKind;
  bo_lhs : ExprId;
  bo_rhs : ExprId
}.

(** The part of [dataflow::Environment] the transfer function reads and
    writes: the Boolean value of an expression, the null state
    [(Known, NotNull)] that [getPointerNullState] returns for a pointer
    expression, and the flow condition. *)
Record Environment : Type := mkEnvironment {
  boolValues : gmap nat Formula;
  nullStates : gmap nat (Formula * Formula);
  flowCondition : FlowCondition
}.

Definition addToFlowCondition (f : Formula) (Env : Environment)
  : Environment :=
  mkEnvironment (boolValues Env) (nullStates Env) (flowCondition Env ++ [f]).

Definition PointerEQ (op : BinaryOperatorKind) (PointerComparison : Formula)
  : Formula :=
  match op with BO_EQ => PointerComparison | _ => Not PointerComparison end.

Definition PointerNE (op : BinaryOperatorKind) (PointerComparison : Formula)
  : Formula :=
  match op with BO_EQ => Not PointerComparison | _ => PointerComparison end.

(** [transferNullCheckComparison]; [None] stands for the failed [cast],
    the failed [CHECK] on the opcode, or a pointer without null state. *)
Definition transferNullCheckComparison
    (BinaryOp : BinaryOperator) (Env : Environment) : option Environment :=
  match boolValues Env !! bo_id BinaryOp with
  | None => None
  | Some PointerComparison =>
      match bo_opcode BinaryOp with
      | BO_Other => None
      | op =>
          match nullStates Env !! bo_lhs BinaryOp,
                nullStates Env !! bo_rhs BinaryOp with
          | Some (LHSKnown, LHSNotNull), Some (RHSKnown, RHSNotNull) =>
              let LHSKnownNotNull := And LHSKnown LHSNotNull in
              let RHSKnownNotNull := And RHSKnown RHSNotNull in
              let LHSKnownNull := And LHSKnown (Not LHSNotNull) in
              let RHSKnownNull := And RHSKnown (Not RHSNotNull) in
              let Env1 :=
                addToFlowCondition
                  (Implies (And LHSKnownNull RHSKnownNull)
                           (PointerEQ op PointerComparison)) Env in
              let Env2 :=
                addToFlowCondition
                  (Implies (And LHSKnownNull RHSKnownNotNull)
                           (PointerNE op PointerComparison)) Env1 in
              Some (addToFlowCondition
                      (Implies (And LHSKnownNotNull RHSKnownNull)
                               (PointerNE op PointerComparison)) Env2)
          | _, _ => None
          end
      end
  end.

(** How a valuation reads a null state [(Known, NotNull)]. *)
Definition knownNull (v : Valuation) (st : Formula * Formula) : bool :=
  eval v (fst st) && negb (eval v (snd st)).

Definition knownNotNull (v : Valuation) (st : Formula * Formula) : bool :=
  eval v (fst st) && eval v (snd st).

(** [is_null] as the spec writes it: the negation of [NotNull]. The
    transfer functions of this file that initialise a null state all
    pass the literal [true] for [Known], and for such pointers this is
    [knownNull]. *)
Definition isNullIn (v : Valuation) (st : Formula * Formula) : bool :=
  negb (eval v (snd st)).

(** Whether the two pointers compare equal under a valuation: the value
    of the comparison for [==], its negation for [!=]. *)
Definition comparesEqual (v : Valuation) (op : BinaryOperatorKind)
    (PointerComparison : Formula) : bool :=
  eval v (PointerEQ op PointerComparison).

End Verification.

(** ** The diagnoser (nullability/pointer_nullability_diagnosis.cc) *)

Module Diagnosis.
Import Solver.

(** *** The syntax tree the diagnoser walks *)

Inductive QualType : Type :=
| BuiltinType (name : string)
| PointerType (pointee : QualType)
| ReferenceType (pointee : QualType)
| RecordType (name : string)
| FunctionProtoType (ret : QualType) (params : list QualType)
                    (variadic : bool)
| DependentType
| NullType.

Definition getNonReferenceType (T : QualType) : QualType :=
  match T with ReferenceType P => P | _ => T end.

Definition isPointerType (T : QualType) : bool :=
  match T with PointerType _ => true | _ => false end.

Definition isDependentType (T : QualType) : bool :=
  match T with DependentType => true | _ => false end.

Definition isNull (T : QualType) : bool :=
  match T with NullType => true | _ => false end.

Definition getPointeeType (T : QualType) : QualType :=
  match T with PointerType P | ReferenceType P => P | _ => NullType end.

(** [getAs<FunctionProtoType>()]: return type, parameter types, variadic. *)
Definition getAsFunctionProtoType (T : QualType)
  : option (QualType * list QualType * bool) :=
  match T with
  | FunctionProtoType R Ps V => Some (R, Ps, V)
  | _ => None
  end.

Record SourceRange : Type := mkRange { range_begin : nat; range_end : nat }.

(** What [CE->getDirectCallee()] is asked for. *)
Record CalleeDecl : Type := mkCalleeDecl {
  callee_name : string;
  callee_isIdentifier : bool;
  callee_isCXXMethod : bool;
  callee_parameters : list string
}.

(** A template argument of the callee: an expression that refers to an
    enumerator, another expression, or no expression at all. *)
Inductive TemplateArgument : Type :=
| TA_EnumeratorRef (name : string)
| TA_OtherExpression
| TA_NotExpression.

Inductive CallClass : Type :=
| PlainCall
| CXXOperatorCall (op : string)
| CXXMemberCall.

Record CXXConstructorDecl : Type := mkCtorDecl {
  ctor_id : nat;
  ctor_type : QualType;
  ctor_parameters : list string
}.

Inductive Expr : Type :=
| DeclRefExpr (id : ExprId) (ty : QualType) (range : SourceRange)
              (template_arguments : list TemplateArgument)
| ImplicitCastExpr (id : ExprId) (ty : QualType) (range : SourceRange)
                   (sub : Expr)
| UnaryOperator (id : ExprId) (ty : QualType) (range : SourceRange)
                (opcode : string) (sub : Expr)
| ArraySubscriptExpr (id : ExprId) (ty : QualType) (range : SourceRange)
                     (base idx : Expr)
| MemberExpr (id : ExprId) (ty : QualType) (range : SourceRange)
             (base : Expr) (isArrow : bool)
| CallExpr (id : ExprId) (ty : QualType) (range : SourceRange)
           (cls : CallClass) (callee : Expr) (args : list Expr)
           (directCallee : option CalleeDecl)
| CXXConstructExpr (id : ExprId) (ty : QualType) (range : SourceRange)
                   (ctor : CXXConstructorDecl) (args : list Expr)
| OtherExpr (id : ExprId) (ty : QualType) (range : SourceRange).

Definition getID (E : Expr) : ExprId :=
  match E with
  | DeclRefExpr i _ _ _ | ImplicitCastExpr i _ _ _ | UnaryOperator i _ _ _ _
  | ArraySubscriptExpr i _ _ _ _ | MemberExpr i _ _ _ _
  | CallExpr i _ _ _ _ _ _ | CXXConstructExpr i _ _ _ _ | OtherExpr i _ _ => i
  end.

Definition getType (E : Expr) : QualType :=
  match E with
  | DeclRefExpr _ t _ _ | ImplicitCastExpr _ t _ _ | UnaryOperator _ t _ _ _
  | ArraySubscriptExpr _ t _ _ _ | MemberExpr _ t _ _ _
  | CallExpr _ t _ _ _ _ _ | CXXConstructExpr _ t _ _ _ | OtherExpr _ t _ => t
  end.

Definition getSourceRange (E : Expr) : SourceRange :=
  match E with
  | DeclRefExpr _ _ r _ | ImplicitCastExpr _ _ r _ | UnaryOperator _ _ r _ _
  | ArraySubscriptExpr _ _ r _ _ | MemberExpr _ _ r _ _
  | CallExpr _ _ r _ _ _ _ | CXXConstructExpr _ _ r _ _ | OtherExpr _ _ r => r
  end.

Fixpoint IgnoreImpCasts (E : Expr) : Expr :=
  match E with
  | ImplicitCastExpr _ _ _ sub => IgnoreImpCasts sub
  | _ => E
  end.

Record ParmVarDecl : Type := mkParm {
  parm_name : string;
  parm_type : QualType;
  parm_init : option Expr;
  parm_file : nat
}.

Record FunctionDecl : Type := mkFunctionDecl {
  fn_id : nat;
  fn_returnType : QualType;
  fn_parameters : list ParmVarDecl;
  fn_isTemplated : bool;
  fn_doesThisDeclarationHaveABody : bool
}.

Record FieldDecl : Type := mkField { field_id : nat; field_type : QualType }.

Inductive CXXCtorInitializer : Type :=
| MemberInitializer (Member : FieldDecl) (Init : Expr)
| IndirectMemberInitializer (Member : FieldDecl) (Init : Expr)
| BaseOrDelegatingInitializer (Init : Expr).

Inductive Stmt : Type :=
| ExprStmt (E : Expr)
| ReturnStmt (RetValue : option Expr)
| OtherStmt.

Inductive CFGElement : Type :=
| CFGStmt (S : Stmt)
| CFGInitializer (I : CXXCtorInitializer)
| CFGOtherElement.

(** *** What the diagnoser borrows from type_nullability.h and clang

    These helpers are declared in headers that are not part of the
    sources at hand; the diagnoser is stated over any implementation. *)
Class TypeNullabilityAPI : Type := {
  isSupportedRawPointerType : QualType -> bool;
  isSupportedSmartPointerType : QualType -> bool;
  isSupportedPointerType : QualType -> bool;
  countPointersInType : QualType -> nat;
  exprType : Expr -> QualType;
  isNullPointerConstant : Expr -> bool;
  getTypeNullability_Constructor : CXXConstructorDecl -> TypeNullability;
  getTypeNullability_Function : FunctionDecl -> TypeNullability;
  getTypeNullability_Field : FieldDecl -> TypeNullability;
  getTypeNullability_Parm : ParmVarDecl -> TypeNullability;
  getTypeNullability_Type : QualType -> nat -> TypeNullability
}.

(** [PointerTypeNullability::concrete()]: the kind of a concrete entry,
    [Unspecified] for a symbolic one. *)
Definition concrete (N : PointerTypeNullability) : NullabilityKind :=
  match N with Concrete k => k | Symbolic _ _ => Unspecified end.

(** *** Environment and diagnostics *)

(** A pointer value with its null state; [None] is "top". *)
Record PointerValue : Type := mkPointerValue {
  pointee : LocId;
  from_nullable : option Formula;
  is_null : option Formula
}.

Record Environment : Type := mkEnv {
  pointerValues : gmap nat PointerValue;
  flowCondition : FlowCondition;
  getCurrentFunc : option FunctionDecl
}.

(** [getPointerValue(E, Env)]: the value the environment models for
    [E], if any. *)
Definition getPointerValue (E : Expr) (Env : Environment)
  : option PointerValue :=
  pointerValues Env !! getID E.

(** A valuation is a model of the flow condition in which [is_null]
    of the pointer holds; a "top" [is_null] is unconstrained. *)
Definition nullModel (Env : Environment) (PV : PointerValue)
    (v : Valuation) : Prop :=
  holds v (flowCondition Env) = true /\
  match is_null PV with Some f => eval v f = true | None => True end.

(** Modelled from the spec: [isNullable] is declared in
    pointer_nullability.h, which is not under src/. Section 4.4: the
    solver, assuming the current flow condition, finds a model in which
    [is_null(p)] holds. *)
Definition isNullable (PV : PointerValue) (Env : Environment) : bool :=
  allows (flowCondition Env) (default (Lit true) (is_null PV)).

Inductive ErrorCode : Type := ExpectedNonnull | Untracked | AssertFailed.

Inductive Context : Type :=
| NullableDereference | FunctionArgument | ReturnValue | Initializer | Other.

Record PointerNullabilityDiagnostic : Type := mkDiag {
  Code : ErrorCode;
  Ctx : Context;
  Range : SourceRange;
  ParamName : option string
}.

#[global] Instance ErrorCode_eq_dec : EqDecision ErrorCode.
Proof. solve_decision. Defined.

#[global] Instance Context_eq_dec : EqDecision Context.
Proof. solve_decision. Defined.

(** [TransferStateForDiagnostics]: the shared expression map of the
    lattice and the environment at the element. *)
Record TransferState : Type := mkState {
  Lattice_NFS : Lattice.ExprToNullability;
  Env : Environment
}.

(** *** The diagnosing functions; [None] is an abort ([CHECK], [cast],
    or reading past the end of an [ArrayRef]) *)

Section Diagnoser.

Context `{API : TypeNullabilityAPI}.
Variable ignoreCFGOmittedNodes : ExprId -> ExprId.

Definition getExprNullability (E : Expr) (State : TransferState)
  : option TypeNullability :=
  Lattice.getExprNullability ignoreCFGOmittedNodes (getID E)
                             (Lattice_NFS State).

Definition diagnoseNonnullExpected (E : Expr) (Env : Environment)
    (DiagCtx : Context) (ParamName : option string)
  : list PointerNullabilityDiagnostic :=
  match getPointerValue E Env with
  | Some ActualVal =>
      if isNullable ActualVal Env
      then [mkDiag ExpectedNonnull DiagCtx (getSourceRange E) ParamName]
      else []
  | None => [mkDiag Untracked DiagCtx (getSourceRange E) None]
  end.

Definition diagnoseAssignmentLike (LHSType : QualType)
    (LHSNullability : TypeNullability) (RHS : Expr) (Env : Environment)
    (DiagCtx : Context) (ParamName : option string)
  : option (list PointerNullabilityDiagnostic) :=
  let LHSType := getNonReferenceType LHSType in
  if negb (isSupportedPointerType LHSType) then Some []
  else
    match LHSNullability with
    | [] => None
    | front :: _ =>
        if decide (concrete front = NonNull)
        then Some (diagnoseNonnullExpected RHS Env DiagCtx ParamName)
        else Some []
    end.

Definition diagnoseDereference (UnaryOp : Expr) (State : TransferState)
  : option (list PointerNullabilityDiagnostic) :=
  match UnaryOp with
  | UnaryOperator _ _ _ _ SubExpr =>
      Some (diagnoseNonnullExpected SubExpr (Env State)
                                    NullableDereference None)
  | _ => None
  end.

Definition diagnoseSmartPointerDereference (Op : Expr)
    (State : TransferState) : option (list PointerNullabilityDiagnostic) :=
  match Op with
  | CallExpr _ _ _ _ _ (Arg0 :: _) _ =>
      Some (diagnoseNonnullExpected Arg0 (Env State)
                                    NullableDereference None)
  | _ => None
  end.

Definition diagnoseSubscript (Subscript : Expr) (State : TransferState)
  : option (list PointerNullabilityDiagnostic) :=
  match Subscript with
  | ArraySubscriptExpr _ _ _ Base _ =>
      Some (diagnoseNonnullExpected Base (Env State)
                                    NullableDereference None)
  | _ => None
  end.

Definition diagnoseArrow (ME : Expr) (State : TransferState)
  : option (list PointerNullabilityDiagnostic) :=
  match ME with
  | MemberExpr _ _ _ Base _ =>
      Some (diagnoseNonnullExpected Base (Env State)
                                    NullableDereference None)
  | _ => None
  end.

(** The loop of [diagnoseArgumentCompatibility], from index [I] on. *)
Fixpoint diagnoseArguments (I : nat) (ParamTypes : list QualType)
    (ParamsNullability : TypeNullability) (ParmDecls : list string)
    (Args : list Expr) (Env : Environment)
  : option (list PointerNullabilityDiagnostic) :=
  match Args, ParamTypes with
  | [], _ => Some []
  | _ :: _, [] => None
  | Arg :: Args', ParamTy :: ParamTypes' =>
      let Len := countPointersInType ParamTy in
      let ParamNullability := take Len ParamsNullability in
      if decide (length ParamsNullability < Len) then None
      else
        let ParamName := default "" (ParmDecls !! I) in
        match diagnoseAssignmentLike ParamTy ParamNullability Arg Env
                                     FunctionArgument (Some ParamName),
              diagnoseArguments (S I) ParamTypes' (drop Len ParamsNullability)
                                ParmDecls Args' Env with
        | Some D, Some Ds => Some (D ++ Ds)
        | _, _ => None
        end
  end.

Definition diagnoseArgumentCompatibility
    (ParamTypes : list QualType) (isVariadic : bool)
    (ParamsNullability : TypeNullability) (ParmDecls : list string)
    (Args : list Expr) (Env : Environment)
  : option (list PointerNullabilityDiagnostic) :=
  if isVariadic && negb (Nat.leb (length ParamTypes) (length Args)) then None
  else
    let Args := if isVariadic then take (length ParamTypes) Args else Args in
    if negb (Nat.eqb (length ParamTypes) (length Args)) then None
    else diagnoseArguments 0 ParamTypes ParamsNullability ParmDecls Args Env.

Definition parseNullabilityKind (EnumName : string) : NullabilityKind :=
  if String.eqb EnumName "NK_nonnull" then NonNull
  else if String.eqb EnumName "NK_nullable" then Nullable
  else if String.eqb EnumName "NK_unspecified" then Unspecified
  else Unspecified.

Fixpoint expectedNullability (Ps : list TemplateArgument) : TypeNullability :=
  match Ps with
  | [] => []
  | TA_EnumeratorRef name :: Ps =>
      Concrete (parseNullabilityKind name) :: expectedNullability Ps
  | _ :: Ps => expectedNullability Ps
  end.

Definition diagnoseAssertNullabilityCall (CE : Expr) (State : TransferState)
  : option (list PointerNullabilityDiagnostic) :=
  match CE with
  | CallExpr _ _ range _ Callee Args _ =>
      match IgnoreImpCasts Callee, Args with
      | DeclRefExpr _ _ _ template_arguments, GivenExpr :: _ =>
          let Expected := expectedNullability template_arguments in
          match getExprNullability GivenExpr State with
          | None => Some [mkDiag Untracked Other range None]
          | Some Computed =>
              if decide (Computed = Expected) then Some []
              else Some [mkDiag AssertFailed Other range None]
          end
      | _, _ => None
      end
  | _ => None
  end.

(** The tail of [diagnoseCallExpr], once the callee's prototype and the
    nullability vector that matches it are known. The model has no type
    sugar, so the canonical type is the type itself. *)
Definition diagnoseCallExprArguments (cls : CallClass)
    (directCallee : option CalleeDecl) (Args : list Expr)
    (CalleeType : option (QualType * list QualType * bool))
    (CalleeNullability : TypeNullability) (State : TransferState)
  : option (list PointerNullabilityDiagnostic) :=
  match CalleeType with
  | None => Some []
  | Some (ReturnType, ParamTypes, Variadic) =>
      let Args' :=
        match cls, directCallee with
        | CXXOperatorCall _, None => None
        | CXXOperatorCall _, Some FD =>
            if callee_isCXXMethod FD
            then match Args with [] => None | _ :: A => Some A end
            else Some Args
        | _, _ => Some Args
        end in
      match Args' with
      | None => None
      | Some Args' =>
          let N := countPointersInType ReturnType in
          if decide (length CalleeNullability < N) then None
          else
            diagnoseArgumentCompatibility
              ParamTypes Variadic (drop N CalleeNullability)
              (from_option callee_parameters [] directCallee)
              Args' (Env State)
      end
  end.

Definition isAssertNullability (directCallee : option CalleeDecl) : bool :=
  match directCallee with
  | Some FD =>
      callee_isIdentifier FD &&
      String.eqb (callee_name FD) "__assert_nullability"
  | None => false
  end.

Definition diagnoseCallExpr (CE : Expr) (State : TransferState)
  : option (list PointerNullabilityDiagnostic) :=
  match CE with
  | CallExpr _ _ _ cls Callee Args directCallee =>
      if isAssertNullability directCallee
      then diagnoseAssertNullabilityCall CE State
      else
        match getExprNullability Callee State with
        | None => Some []
        | Some CalleeNullability =>
            if isPointerType (getType Callee) then
              let D := diagnoseNonnullExpected Callee (Env State) Other None in
              match D with
              | _ :: _ => Some D
              | [] =>
                  match CalleeNullability with
                  | [] => None
                  | _ :: CalleeNullability =>
                      diagnoseCallExprArguments cls directCallee Args
                        (getAsFunctionProtoType
                           (getPointeeType (getType Callee)))
                        CalleeNullability State
                  end
              end
            else
              let ET := exprType Callee in
              diagnoseCallExprArguments cls directCallee Args
                (if isNull ET then None else getAsFunctionProtoType ET)
                CalleeNullability State
        end
  | _ => None
  end.

Definition diagnoseConstructExpr (CE : Expr) (State : TransferState)
  : option (list PointerNullabilityDiagnostic) :=
  match CE with
  | CXXConstructExpr _ _ _ Ctor ConstructorArgs =>
      match getAsFunctionProtoType (ctor_type Ctor) with
      | None => Some []
      | Some (_, ParamTypes, Variadic) =>
          diagnoseArgumentCompatibility
            ParamTypes Variadic (getTypeNullability_Constructor Ctor)
            (ctor_parameters Ctor) ConstructorArgs (Env State)
      end
  | _ => None
  end.

Definition diagnoseReturn (RetValue : option Expr) (State : TransferState)
  : option (list PointerNullabilityDiagnostic) :=
  match RetValue with
  | None => Some []
  | Some RetValue =>
      match getCurrentFunc (Env State) with
      | None => None
      | Some Function =>
          let FunctionNullability := getTypeNullability_Function Function in
          let ReturnTypeNullability :=
            take (countPointersInType (fn_returnType Function))
                 FunctionNullability in
          diagnoseAssignmentLike (fn_returnType Function)
            ReturnTypeNullability RetValue (Env State) ReturnValue None
      end
  end.

Definition diagnoseMemberInitializer (CI : CXXCtorInitializer)
    (State : TransferState) : option (list PointerNullabilityDiagnostic) :=
  match CI with
  | MemberInitializer Member Init | IndirectMemberInitializer Member Init =>
      diagnoseAssignmentLike (field_type Member)
        (getTypeNullability_Field Member) Init (Env State) Initializer None
  | BaseOrDelegatingInitializer _ => None
  end.

Definition shouldDiagnoseExpectedNonnullDefaultArgValue (Param : ParmVarDecl)
  : bool :=
  match parm_init Param with
  | None => false
  | Some Init =>
      if isNullPointerConstant Init then true
      else
        let InitTy := getType Init in
        if isDependentType InitTy || negb (isSupportedPointerType InitTy)
        then false
        else
          match getTypeNullability_Type (exprType Init) (parm_file Param) with
          | front :: _ => bool_decide (concrete front = Nullable)
          | [] => false
          end
  end.

(** [checkParmVarDeclWithPointerDefaultArg]: the diagnostics after the
    call, given those before it. *)
Definition checkParmVarDeclWithPointerDefaultArg (Parm : ParmVarDecl)
    (Diags : list PointerNullabilityDiagnostic)
  : list PointerNullabilityDiagnostic :=
  if isDependentType (parm_type Parm) then Diags
  else
    match getTypeNullability_Parm Parm with
    | [] => Diags
    | front :: _ =>
        if negb (bool_decide (concrete front = NonNull)) then Diags
        else
          match parm_init Parm with
          | None => Diags
          | Some DefaultVal =>
              if negb (shouldDiagnoseExpectedNonnullDefaultArgValue Parm)
              then Diags
              else Diags ++ [mkDiag ExpectedNonnull Initializer
                                    (getSourceRange DefaultVal)
                                    (Some (parm_name Parm))]
          end
    end.

(** *** Matchers (nullability/pointer_nullability_matchers.cc) *)

Definition isPointerExpr (E : Expr) : bool :=
  isSupportedRawPointerType (getType E).

Definition isPointerDereference (E : Expr) : bool :=
  match E with
  | UnaryOperator _ _ _ opcode sub => String.eqb opcode "*" && isPointerExpr sub
  | _ => false
  end.

Definition isPointerArrow (E : Expr) : bool :=
  match E with MemberExpr _ _ _ _ isArrow => isArrow | _ => false end.

Definition isCallExpr (E : Expr) : bool :=
  match E with CallExpr _ _ _ _ _ _ _ => true | _ => false end.

Definition isConstructExpr (E : Expr) : bool :=
  match E with CXXConstructExpr _ _ _ _ _ => true | _ => false end.

Definition isPointerReturn (RetValue : option Expr) : bool :=
  match RetValue with
  | Some V => isSupportedRawPointerType (getType V)
  | None => false
  end.

Definition isCtorMemberInitializer (CI : CXXCtorInitializer) : bool :=
  match CI with MemberInitializer _ _ => true | _ => false end.

(** Modelled from the spec: [isSmartPointerOperatorCall] is declared in
    pointer_nullability_matchers.h and its definition is not under src/.
    Section 4.4: smart-pointer [operator*], [operator[]] and [operator->]
    calls, that is, an operator call of that name whose object argument
    has a supported smart-pointer type. *)
Definition isSmartPointerOperatorCall (Name : string) (E : Expr) : bool :=
  match E with
  | CallExpr _ _ _ (CXXOperatorCall op) _ (Arg0 :: _) _ =>
      String.eqb op Name && isSupportedSmartPointerType (getType Arg0)
  | _ => false
  end.

(** Modelled from the spec: [isPointerSubscript] is declared in
    pointer_nullability_matchers.h and its definition is not under src/.
    Sections 4.2 and 4.4: a subscript [p[i]] whose base is a pointer. *)
Definition isPointerSubscript (E : Expr) : bool :=
  match E with
  | ArraySubscriptExpr _ _ _ base _ => isPointerExpr base
  | _ => false
  end.

(** [pointerNullabilityDiagnoser]: the first case that matches the
    element handles it; without a match the result is empty. *)
Definition pointerNullabilityDiagnoser (Elt : CFGElement)
    (State : TransferState) : option (list PointerNullabilityDiagnostic) :=
  match Elt with
  | CFGStmt (ExprStmt E) =>
      if isPointerDereference E then diagnoseDereference E State
      else if isSmartPointerOperatorCall "*" E
      then diagnoseSmartPointerDereference E State
      else if isPointerSubscript E then diagnoseSubscript E State
      else if isSmartPointerOperatorCall "[]" E
      then diagnoseSmartPointerDereference E State
      else if isPointerArrow E then diagnoseArrow E State
      else if isSmartPointerOperatorCall "->" E
      then diagnoseSmartPointerDereference E State
      else if isCallExpr E then diagnoseCallExpr E State
      else if isConstructExpr E then diagnoseConstructExpr E State
      else Some []
  | CFGStmt (ReturnStmt RetValue) =>
      if isPointerReturn RetValue then diagnoseReturn RetValue State
      else Some []
  | CFGStmt OtherStmt => Some []
  | CFGInitializer CI =>
      if isCtorMemberInitializer CI then diagnoseMemberInitializer CI State
      else Some []
  | CFGOtherElement => Some []
  end.

(** The dereference-like sites of Section 4.4 and the operand each one
    dereferences: [*p], [p[i]], [p->m], and the smart-pointer operator
    calls [operator*], [operator[]], [operator->]. *)
Inductive DereferenceLike : Expr -> Expr -> Prop :=
| Deref_Star id ty r p :
    isPointerExpr p = true ->
    DereferenceLike (UnaryOperator id ty r "*" p) p
| Deref_Subscript id ty r p i :
    isPointerExpr p = true ->
    DereferenceLike (ArraySubscriptExpr id ty r p i) p
| Deref_Arrow id ty r p :
    DereferenceLike (MemberExpr id ty r p true) p
| Deref_SmartPointer id ty r op callee p args direct :
    op = "*" \/ op = "[]" \/ op = "->" ->
    isSupportedSmartPointerType (getType p) = true ->
    DereferenceLike
      (CallExpr id ty r (CXXOperatorCall op) callee (p :: args) direct) p.

(** *** The entry point *)

Inductive errc : Type := interrupted | timed_out | invalid_argument.

Record Error : Type := mkError { error_code : errc; error_message : string }.

(** [llvm::Expected<T>] *)
Inductive Expected (T : Type) : Type :=
| Success (value : T)
| Failure (error : Error).

(** What one call of [dataflow::runDataflowAnalysis] does, as far as the
    entry point can see: the blocks it visited, the elements and states
    it handed to the post-visit callback, the error it returned if any,
    and whether the solver says afterwards that it reached its limit. *)
Record DataflowRun : Type := mkRun {
  blockVisits : Z;
  postVisit : list (CFGElement * TransferState);
  runError : option Error;
  reachedLimit : bool
}.

(** The dataflow framework: [AdornedCFG::build] may fail; the analysis
    is run with the solver's iteration limit and the limit on block
    visits. *)
Class Framework : Type := {
  AdornedCFG_build : FunctionDecl -> option Error;
  runDataflowAnalysis : FunctionDecl -> Z -> Z -> DataflowRun
}.

Context `{FW : Framework}.

Definition MaxSATIterations : Z := 2000000.
Definition MaxBlockVisits : Z := 20000.

(** The post-visit callback over a whole run: the diagnostics of every
    element, in order. *)
Fixpoint collectDiagnostics (visits : list (CFGElement * TransferState))
  : option (list PointerNullabilityDiagnostic) :=
  match visits with
  | [] => Some []
  | (Elt, State) :: visits =>
      match pointerNullabilityDiagnoser Elt State,
            collectDiagnostics visits with
      | Some EltDiagnostics, Some Rest => Some (EltDiagnostics ++ Rest)
      | _, _ => None
      end
  end.

Definition diagnosePointerNullability (Func : FunctionDecl)
  : option (Expected (list PointerNullabilityDiagnostic)) :=
  let Diags := [] in
  if fn_isTemplated Func then Some (Success _ Diags)
  else
    let Diags :=
      fold_left (fun Diags Parm =>
                   checkParmVarDeclWithPointerDefaultArg Parm Diags)
                (fn_parameters Func) Diags in
    if negb (fn_doesThisDeclarationHaveABody Func) then Some (Success _ Diags)
    else
      match AdornedCFG_build Func with
      | Some E => Some (Failure _ E)
      | None =>
          let Result :=
            runDataflowAnalysis Func MaxSATIterations MaxBlockVisits in
          match collectDiagnostics (postVisit Result) with
          | None => None
          | Some Diagnostics =>
              match runError Result with
              | Some E => Some (Failure _ E)
              | None =>
                  if reachedLimit Result
                  then Some (Failure _ (mkError interrupted
                                                "SAT solver timed out"))
                  else Some (Success _ Diagnostics)
              end
          end
      end.

End Diagnoser.

End Diagnosis.

(** ** A small translation unit for the examples *)

Module Samples.
Import Solver Diagnosis.

(** One entry, [k], per pointer of a type: what [getTypeNullability]
    yields in a file whose pragma makes [k] the default. *)
Fixpoint pointersOf (k : NullabilityKind) (T : QualType) : TypeNullability :=
  match T with
  | PointerType P => Concrete k :: pointersOf k P
  | ReferenceType P => pointersOf k P
  | _ => []
  end.

Definition isSmartPointerRecord (T : QualType) : bool :=
  match T with
  | RecordType name => String.eqb name "std::unique_ptr"
  | _ => false
  end.

Definition isNullptrLiteral (E : Expr) : bool :=
  match getType E with
  | BuiltinType name => String.eqb name "nullptr_t"
  | _ => false
  end.

(** The borrowed helpers for a file under
    [#pragma nullability file_default nonnull]. *)
Definition sampleAPI : TypeNullabilityAPI := {|
  isSupportedRawPointerType := isPointerType;
  isSupportedSmartPointerType := isSmartPointerRecord;
  isSupportedPointerType T := isPointerType T || isSmartPointerRecord T;
  countPointersInType T := length (pointersOf NonNull T);
  exprType := getType;
  isNullPointerConstant := isNullptrLiteral;
  getTypeNullability_Constructor C := pointersOf NonNull (ctor_type C);
  getTypeNullability_Function F := pointersOf NonNull (fn_returnType F);
  getTypeNullability_Field F := pointersOf NonNull (field_type F);
  getTypeNullability_Parm P := pointersOf NonNull (parm_type P);
  getTypeNullability_Type T _ := pointersOf NonNull T
|}.

Definition noRange : SourceRange := mkRange 0 0.

Definition intPtr : QualType := PointerType (BuiltinType "int").

Definition nullptrLiteral : Expr :=
  OtherExpr 1 (BuiltinType "nullptr_t") (mkRange 20 27).

(** [int *p = nullptr] as a parameter of a file whose default is
    [Nonnull]. *)
Definition parmWithNullDefault : ParmVarDecl :=
  mkParm "p" intPtr (Some nullptrLiteral) 0.

(** [void f(int *p = nullptr);] *)
Definition declarationOnly : FunctionDecl :=
  mkFunctionDecl 1 (BuiltinType "void") [parmWithNullDefault] false false.

(** [void f(int *p = nullptr) {}] *)
Definition definitionWithBody : FunctionDecl :=
  mkFunctionDecl 2 (BuiltinType "void") [parmWithNullDefault] false true.

(** A run over an empty body that reaches its fixed point. *)
Definition quietFramework : Framework := {|
  AdornedCFG_build _ := None;
  runDataflowAnalysis _ _ _ := mkRun 1 [] None false
|}.

(** A run that is cut off after more block visits than it was allowed,
    with the error the dataflow framework reports for it. *)
Definition blockLimitFramework : Framework := {|
  AdornedCFG_build _ := None;
  runDataflowAnalysis _ _ MaxBlockVisits :=
    mkRun (MaxBlockVisits + 1) [] 
          (Some (mkError timed_out "maximum number of blocks processed"))
          false
|}.

(** [fp(q)] with [fp] a function pointer the environment knows to be
    null and [q] a pointer argument. *)
Definition fnPtrType : QualType :=
  PointerType (FunctionProtoType (BuiltinType "void") [intPtr] false).

Definition calleeFp : Expr := DeclRefExpr 2 fnPtrType (mkRange 1 2) [].

Definition argQ : Expr := DeclRefExpr 3 intPtr (mkRange 4 5) [].

Definition callThroughNullPointer : Expr :=
  CallExpr 4 (BuiltinType "void") (mkRange 1 6) PlainCall calleeFp [argQ]
           None.

Definition nullCalleeState : TransferState :=
  mkState {[2 := [Concrete Nullable; Concrete NonNull]]}
          (mkEnv {[2 := mkPointerValue 7 (Some (Lit true)) (Some (Lit true));
                   3 := mkPointerValue 8 (Some (Lit true)) (Some (Lit true))]}
                 [] None).

(** [*q] with [q] as above. *)
Definition derefQ : Expr :=
  UnaryOperator 5 (BuiltinType "int") (mkRange 3 5) "*" argQ.

End Samples.

(** ** Type transfer (nullability/pointer_nullability_analysis.cc)

    The transfer functions that fill the expression map of the lattice. *)

Module TypeTransfer.
Import Lattice.

(** A computation on the shared expression map; [None] is an abort. *)
Definition Computation (A : Type) : Type :=
  gmap nat TypeNullability -> option (A * gmap nat TypeNullability).

Definition ret {A : Type} (a : A) : Computation A := fun nfs => Some (a, nfs).

Definition abort {A : Type} : Computation A := fun _ => None.

Definition bind {A B : Type} (c : Computation A) (k : A -> Computation B)
  : Computation B :=
  fun nfs =>
    match c nfs with
    | None => None
    | Some (a, nfs') => k a nfs'
    end.

Inductive UnaryOperatorKind : Type :=
| UO_PostInc | UO_PostDec | UO_PreInc | UO_PreDec
| UO_AddrOf | UO_Deref
| UO_Plus | UO_Minus | UO_Not | UO_LNot
| UO_Real | UO_Imag | UO_Extension | UO_Coawait.

(** The cast kinds [transferType_CastExpr] switches over. *)
Inductive CastKind : Type :=
| CK_LValueBitCast | CK_BitCast | CK_LValueToRValueBitCast
| CK_LValueToRValue | CK_NoOp | CK_AtomicToNonAtomic | CK_NonAtomicToAtomic
| CK_AddressSpaceConversion
| CK_BaseToDerived | CK_DerivedToBase | CK_UncheckedDerivedToBase
| CK_UserDefinedConversion | CK_ConstructorConversion
| CK_Dynamic
| CK_ToVoid | CK_MemberPointerToBoolean | CK_PointerToBoolean
| CK_PointerToIntegral | CK_IntegralCast | CK_IntegralToBoolean
| CK_IntegralToFloating | CK_FloatingToFixedPoint | CK_FixedPointToFloating
| CK_FixedPointCast | CK_FixedPointToIntegral | CK_IntegralToFixedPoint
| CK_FixedPointToBoolean | CK_FloatingToIntegral | CK_FloatingToBoolean
| CK_BooleanToSignedIntegral | CK_FloatingCast | CK_FloatingRealToComplex
| CK_FloatingComplexToReal | CK_FloatingComplexToBoolean
| CK_FloatingComplexCast | CK_FloatingComplexToIntegralComplex
| CK_IntegralRealToComplex | CK_IntegralComplexToReal
| CK_IntegralComplexToBoolean | CK_IntegralComplexCast
| CK_IntegralComplexToFloatingComplex
| CK_NullToPointer
| CK_IntegralToPointer
| CK_ArrayToPointerDecay | CK_FunctionToPointerDecay
| CK_BuiltinFnToFnPtr
| CK_BaseToDerivedMemberPointer | CK_DerivedToBaseMemberPointer
| CK_NullToMemberPointer | CK_ReinterpretMemberPointer | CK_ToUnion
| CK_CPointerToObjCPointerCast | CK_ObjCObjectLValueCast | CK_MatrixCast
| CK_VectorSplat | CK_BlockPointerToObjCPointerCast
| CK_AnyPointerToBlockPointerCast | CK_ARCProduceObject | CK_ARCConsumeObject
| CK_ARCReclaimReturnedObject | CK_ARCExtendBlockObject
| CK_CopyAndAutoreleaseBlockObject | CK_ZeroToOCLOpaqueType
| CK_IntToOCLSampler
| CK_Dependent.

(** [prepend] *)
Definition prepend (Head : NullabilityKind) (Tail : TypeNullability)
  : TypeNullability :=
  Concrete Head :: Tail.

(** [ArrayRef::drop_front()] and [ArrayRef::slice(1)]: both need one
    element to drop. *)
Definition drop_front (N : TypeNullability) : Computation TypeNullability :=
  match N with
  | [] => abort
  | _ :: Tail => ret Tail
  end.

(** [Result.front() = K] on a vector. *)
Definition setFront (K : NullabilityKind) (N : TypeNullability)
  : Computation TypeNullability :=
  match N with
  | [] => abort
  | _ :: Tail => ret (Concrete K :: Tail)
  end.

(** A computation that only ever adds entries to the map. *)
Definition Extending {A : Type} (c : Computation A) : Prop :=
  forall nfs a nfs', c nfs = Some (a, nfs') -> nfs ⊆ nfs'.

Section WithHelpers.

Variable ignoreCFGOmittedNodes : ExprId -> ExprId.

(** From type_nullability.h: the number of pointers in the type of an
    expression, the all-[Unspecified] vector for an expression, and the
    annotations written on the type of an expression. *)
Variable countPointersInType : ExprId -> nat.
Variable unspecifiedNullability : ExprId -> TypeNullability.
Variable getNullabilityAnnotationsFromType : ExprId -> TypeNullability.

(** [insertExprNullabilityIfAbsent] of the lattice, for a callback given
    as a computation, which may abort on its own. *)
Definition insertIfAbsent (E : ExprId)
    (GetNullability : Computation TypeNullability)
  : Computation TypeNullability :=
  fun nfs =>
    let E' := ignoreCFGOmittedNodes E in
    match nfs !! E' with
    | Some N => Some (N, nfs)
    | None =>
        match GetNullability nfs with
        | None => None
        | Some (N, nfs') =>
            match nfs' !! E' with
            | Some _ => None
            | None => Some (N, <[E' := N]> nfs')
            end
        end
    end.

(** The vector [computeNullability] stores for a computed one: the
    vector itself if it has one entry per pointer of the type, and that
    many [Unspecified] entries otherwise. *)
Definition fitted (E : ExprId) (N : TypeNullability) : TypeNullability :=
  if decide (countPointersInType E = length N) then N
  else replicate (countPointersInType E) (Concrete Unspecified).

(** Every stored vector has one entry per pointer of its expression. *)
Definition WellSized (nfs : gmap nat TypeNullability) : Prop :=
  forall (k : nat) (N : TypeNullability),
    nfs !! k = Some N -> length N = countPointersInType k.

(** A computation that keeps the map well-sized. *)
Definition Sizing {A : Type} (c : Computation A) : Prop :=
  forall nfs a nfs', WellSized nfs -> c nfs = Some (a, nfs') -> WellSized nfs'.

(** [computeNullability]: a vector of the wrong size is discarded and
    replaced by [Unspecified] entries. *)
Definition computeNullability (E : ExprId)
    (Compute : Computation TypeNullability) : Computation unit :=
  bind (insertIfAbsent E
          (bind Compute (fun Nullability =>
             let ExpectedSize := countPointersInType E in
             if decide (ExpectedSize = length Nullability)
             then ret Nullability
             else ret (replicate ExpectedSize (Concrete Unspecified)))))
       (fun _ => ret tt).

(** [getNullabilityForChild] *)
Definition getNullabilityForChild (E : ExprId)
  : Computation TypeNullability :=
  insertIfAbsent E (ret (unspecifiedNullability E)).

Definition transferType_UnaryOperator (UO : ExprId)
    (Opcode : UnaryOperatorKind) (SubExpr : ExprId) : Computation unit :=
  computeNullability UO
    match Opcode with
    | UO_AddrOf =>
        bind (getNullabilityForChild SubExpr)
             (fun N => ret (prepend NonNull N))
    | UO_Deref => bind (getNullabilityForChild SubExpr) drop_front
    | UO_PostInc | UO_PostDec | UO_PreInc | UO_PreDec
    | UO_Plus | UO_Minus | UO_Not | UO_LNot
    | UO_Real | UO_Imag | UO_Extension =>
        getNullabilityForChild SubExpr
    | UO_Coawait => ret (unspecifiedNullability UO)
    end.

(** [transferType_ArraySubscriptExpr]; the two flags say whether the
    type of the base is a supported raw pointer and whether it is a
    vector type. *)
Definition transferType_ArraySubscriptExpr (ASE Base : ExprId)
    (BaseIsRawPointer BaseIsVector : bool) : Computation unit :=
  computeNullability ASE
    (bind (getNullabilityForChild Base) (fun BaseNullability =>
       if negb (BaseIsRawPointer || BaseIsVector) then abort
       else if BaseIsRawPointer then drop_front BaseNullability
       else ret BaseNullability)).

Definition transferType_MaterializeTemporaryExpr (MTE SubExpr : ExprId)
  : Computation unit :=
  computeNullability MTE (getNullabilityForChild SubExpr).

Definition transferType_CXXBindTemporaryExpr (BTE SubExpr : ExprId)
  : Computation unit :=
  computeNullability BTE (getNullabilityForChild SubExpr).

Definition transferType_MemberCallExpr (MCE Callee : ExprId)
  : Computation unit :=
  computeNullability MCE
    (bind (getNullabilityForChild Callee)
          (fun N => ret (take (countPointersInType MCE) N))).

Definition transferType_NewExpr (NE : ExprId)
    (shouldNullCheckAllocation : bool) : Computation unit :=
  computeNullability NE
    (setFront (if shouldNullCheckAllocation then Nullable else NonNull)
              (getNullabilityAnnotationsFromType NE)).

Definition transferType_ThisExpr (TE : ExprId) : Computation unit :=
  computeNullability TE
    (setFront NonNull (getNullabilityAnnotationsFromType TE)).

(** Indexing a [std::vector] past its end with [operator[]] is not
    checked and has no defined behaviour. What the loop of
    [PreserveTopLevelPointers] then hands back is left open: any
    vector, or [None] if the process dies. The arguments are the number
    of indices to copy and the two vectors. *)
Variable indexPastTheEnd :
  nat -> TypeNullability -> TypeNullability -> option TypeNullability.

(** The loop of [PreserveTopLevelPointers]: [V[I] = ArgNullability[I]]
    for the first [n] indices, as long as every index is within both
    vectors; [None] says that an index is past the end of one. *)
Fixpoint copyTopLevelPointers (n : nat) (V ArgNullability : TypeNullability)
  : option TypeNullability :=
  match n with
  | 0 => Some V
  | S n =>
      match V, ArgNullability with
      | _ :: V, a :: ArgNullability =>
          match copyTopLevelPointers n V ArgNullability with
          | Some R => Some (a :: R)
          | None => None
          end
      | _, _ => None
      end
  end.

(** [PreserveTopLevelPointers]; [ArgPointers] and [CastPointers] are
    the numbers of pointer types the canonical types of the operand and
    of the cast start with, so the loop runs for the smaller of the
    two. With every index in range the result is the copy; otherwise it
    is whatever [indexPastTheEnd] gives. *)
Definition PreserveTopLevelPointers (SubExpr : ExprId)
    (ArgPointers CastPointers : nat) (V : TypeNullability)
  : Computation TypeNullability :=
  bind (getNullabilityForChild SubExpr) (fun ArgNullability =>
    let n := Nat.min ArgPointers CastPointers in
    match copyTopLevelPointers n V ArgNullability with
    | Some R => ret R
    | None =>
        match indexPastTheEnd n V ArgNullability with
        | Some R => ret R
        | None => abort
        end
    end).

(** [transferType_CastExpr]; [CastIsNullPtrType] says whether the type
    of the cast is [nullptr_t]. *)
Definition transferType_CastExpr (CE : ExprId) (Kind : CastKind)
    (SubExpr : ExprId) (ArgPointers CastPointers : nat)
    (CastIsNullPtrType : bool) : Computation unit :=
  computeNullability CE
    match Kind with
    | CK_LValueBitCast | CK_BitCast | CK_LValueToRValueBitCast =>
        PreserveTopLevelPointers SubExpr ArgPointers CastPointers
                                 (unspecifiedNullability CE)
    | CK_LValueToRValue | CK_NoOp | CK_AtomicToNonAtomic
    | CK_NonAtomicToAtomic | CK_AddressSpaceConversion =>
        getNullabilityForChild SubExpr
    | CK_BaseToDerived | CK_DerivedToBase | CK_UncheckedDerivedToBase =>
        PreserveTopLevelPointers SubExpr ArgPointers CastPointers
                                 (unspecifiedNullability CE)
    | CK_UserDefinedConversion | CK_ConstructorConversion =>
        ret (unspecifiedNullability CE)
    | CK_Dynamic =>
        let Result := unspecifiedNullability CE in
        if Nat.ltb 0 CastPointers then setFront Nullable Result
        else ret Result
    | CK_ToVoid | CK_MemberPointerToBoolean | CK_PointerToBoolean
    | CK_PointerToIntegral | CK_IntegralCast | CK_IntegralToBoolean
    | CK_IntegralToFloating | CK_FloatingToFixedPoint
    | CK_FixedPointToFloating | CK_FixedPointCast | CK_FixedPointToIntegral
    | CK_IntegralToFixedPoint | CK_FixedPointToBoolean
    | CK_FloatingToIntegral | CK_FloatingToBoolean
    | CK_BooleanToSignedIntegral | CK_FloatingCast
    | CK_FloatingRealToComplex | CK_FloatingComplexToReal
    | CK_FloatingComplexToBoolean | CK_FloatingComplexCast
    | CK_FloatingComplexToIntegralComplex | CK_IntegralRealToComplex
    | CK_IntegralComplexToReal | CK_IntegralComplexToBoolean
    | CK_IntegralComplexCast | CK_IntegralComplexToFloatingComplex =>
        ret []
    | CK_NullToPointer =>
        let Nullability := getNullabilityAnnotationsFromType CE in
        if negb CastIsNullPtrType then setFront Nullable Nullability
        else ret Nullability
    | CK_IntegralToPointer => ret (unspecifiedNullability CE)
    | CK_ArrayToPointerDecay | CK_FunctionToPointerDecay =>
        bind (getNullabilityForChild SubExpr)
             (fun N => ret (prepend NonNull N))
    | CK_BuiltinFnToFnPtr => getNullabilityForChild SubExpr
    | CK_BaseToDerivedMemberPointer | CK_DerivedToBaseMemberPointer
    | CK_NullToMemberPointer | CK_ReinterpretMemberPointer | CK_ToUnion =>
        ret (unspecifiedNullability CE)
    | CK_CPointerToObjCPointerCast | CK_ObjCObjectLValueCast | CK_MatrixCast
    | CK_VectorSplat | CK_BlockPointerToObjCPointerCast
    | CK_AnyPointerToBlockPointerCast | CK_ARCProduceObject
    | CK_ARCConsumeObject | CK_ARCReclaimReturnedObject
    | CK_ARCExtendBlockObject | CK_CopyAndAutoreleaseBlockObject
    | CK_ZeroToOCLOpaqueType | CK_IntToOCLSampler =>
        ret (unspecifiedNullability CE)
    | CK_Dependent => abort
    end.

End WithHelpers.

End TypeTransfer.

(** ** Value transfer, merge and widening
    (nullability/pointer_nullability_analysis.cc)

    The flow-sensitive half of the analysis. Formulas are interned by
    the arena of the framework, so the identity of two formulas is their
    equality, and a null formula pointer, which stands for "top", is
    [None]. *)

Module Analysis.
Import Solver.
Export Verification (BinaryOperatorKind, BO_EQ, BO_NE, BO_Other,
                     BinaryOperator, mkBinaryOperator,
                     bo_id, bo_opcode, bo_lhs, bo_rhs, PointerEQ, PointerNE).

#[global] Instance Formula_eq_dec : EqDecision Formula.
Proof. solve_decision. Defined.

(** [dataflow::BoolValue]: a top value, which holds an atom of its own,
    or the value of a formula. *)
Inductive BoolValue : Type :=
| TopBoolValue (a : nat)
| FormulaBoolValue (f : Formula).

(** [BoolValue::formula()] *)
Definition formula (V : BoolValue) : Formula :=
  match V with
  | TopBoolValue a => Atom a
  | FormulaBoolValue f => f
  end.

(** [PointerNullState]: what [getPointerNullState] returns. *)
Record PointerNullState : Type := mkNullState {
  FromNullable : option Formula;
  IsNull : option Formula
}.

(** The part of [dataflow::Environment] these functions read and write:
    the values of Boolean expressions, the flow condition and its
    token. *)
Record Environment : Type := mkEnvironment {
  exprValues : gmap nat BoolValue;
  flowCondition : FlowCondition;
  getFlowConditionToken : nat
}.

(** The arena, as the number of its next fresh atom. *)
Definition Arena : Type := nat.

Definition setValue (E : ExprId) (V : BoolValue) (Env : Environment)
  : Environment :=
  mkEnvironment (<[E := V]> (exprValues Env)) (flowCondition Env)
                (getFlowConditionToken Env).

Definition assume (f : Formula) (Env : Environment) : Environment :=
  mkEnvironment (exprValues Env) (flowCondition Env ++ [f])
                (getFlowConditionToken Env).

(** [Env.proves(F)] *)
Definition proves (Env : Environment) (f : Formula) : bool :=
  Solver.proves (flowCondition Env) f.

(** [A.makeTopValue()]: a top value over a fresh atom. *)
Definition makeTopValue (A : Arena) : BoolValue * Arena :=
  (TopBoolValue A, S A).

Section ValueTransfer.

(** The pointer values of the framework and the helpers of
    pointer_nullability.h, which is not part of the sources at hand:
    the functions are stated over any implementation. *)
Variable PointerValue : Type.
Variable getPointeeLoc : PointerValue -> LocId.
Variable getPointerValueFromExpr : ExprId -> Environment -> option PointerValue.
Variable hasPointerNullState : PointerValue -> bool.
Variable getPointerNullState : PointerValue -> PointerNullState.

(** [transferValue_NullCheckComparison]; [None] stands for the failed
    [cast] of a missing value and the failed [CHECK] on the opcode. *)
Definition transferValue_NullCheckComparison (BinaryOp : BinaryOperator)
    (Env : Environment) (A : Arena) : option (Environment * Arena) :=
  match getPointerValueFromExpr (bo_lhs BinaryOp) Env,
        getPointerValueFromExpr (bo_rhs BinaryOp) Env with
  | Some LHS, Some RHS =>
      if negb (hasPointerNullState LHS) || negb (hasPointerNullState RHS)
      then Some (Env, A)
      else
        match IsNull (getPointerNullState LHS),
              IsNull (getPointerNullState RHS) with
        | Some LHSNull, Some RHSNull =>
            if decide (LHSNull = Lit true) then
              match bo_opcode BinaryOp with
              | BO_EQ =>
                  Some (setValue (bo_id BinaryOp)
                                 (FormulaBoolValue RHSNull) Env, A)
              | _ =>
                  Some (setValue (bo_id BinaryOp)
                                 (FormulaBoolValue (Not RHSNull)) Env, A)
              end
            else if decide (RHSNull = Lit true) then
              match bo_opcode BinaryOp with
              | BO_EQ =>
                  Some (setValue (bo_id BinaryOp)
                                 (FormulaBoolValue LHSNull) Env, A)
              | _ =>
                  Some (setValue (bo_id BinaryOp)
                                 (FormulaBoolValue (Not LHSNull)) Env, A)
              end
            else
              match exprValues Env !! bo_id BinaryOp with
              | None => None
              | Some V =>
                  let PointerComparison := formula V in
                  match bo_opcode BinaryOp with
                  | BO_Other => None
                  | op =>
                      let Env1 :=
                        assume (Implies (And LHSNull RHSNull)
                                        (PointerEQ op PointerComparison))
                               Env in
                      let Env2 :=
                        assume (Implies (And LHSNull (Not RHSNull))
                                        (PointerNE op PointerComparison))
                               Env1 in
                      Some (assume (Implies (And (Not LHSNull) RHSNull)
                                            (PointerNE op PointerComparison))
                                   Env2, A)
                  end
              end
        | _, _ =>
            let '(Top, A') := makeTopValue A in
            Some (setValue (bo_id BinaryOp) Top Env, A')
        end
  | _, _ => Some (Env, A)
  end.

(** [transferValue_NullCheckImplicitCastPtrToBool]; [Pointer] is
    [CastExpr->IgnoreImplicit()]. *)
Definition transferValue_NullCheckImplicitCastPtrToBool
    (CastExpr Pointer : ExprId) (Env : Environment) (A : Arena)
  : Environment * Arena :=
  match getPointerValueFromExpr Pointer Env with
  | None => (Env, A)
  | Some PointerVal =>
      match IsNull (getPointerNullState PointerVal) with
      | Some Null => (setValue CastExpr (FormulaBoolValue (Not Null)) Env, A)
      | None =>
          let '(Top, A') := makeTopValue A in
          (setValue CastExpr Top Env, A')
      end
  end.

(** [dataflow::Value], as far as [compare] tells values apart. *)
Inductive Value : Type :=
| PointerVal (PV : PointerValue)
| OtherVal.

Inductive ComparisonResult : Type := Same | Different | Unknown.

(** [PointerNullabilityAnalysis::compare]; [None] is the failed [cast]
    of a second value that is no pointer. *)
Definition compare (Val1 Val2 : Value) : option ComparisonResult :=
  match Val1 with
  | PointerVal PointerVal1 =>
      match Val2 with
      | OtherVal => None
      | PointerVal PointerVal2 =>
          if negb (Nat.eqb (getPointeeLoc PointerVal1)
                           (getPointeeLoc PointerVal2))
          then Some Different
          else if negb (Bool.eqb (hasPointerNullState PointerVal1)
                                 (hasPointerNullState PointerVal2))
          then Some Different
          else if negb (hasPointerNullState PointerVal1) then Some Same
          else
            let Nullability1 := getPointerNullState PointerVal1 in
            let Nullability2 := getPointerNullState PointerVal2 in
            if bool_decide (FromNullable Nullability1
                            = FromNullable Nullability2)
               && bool_decide (IsNull Nullability1 = IsNull Nullability2)
            then Some Same
            else Some Different
      end
  | OtherVal => Some Unknown
  end.

End ValueTransfer.

(** [mergeFormulas]: the merged formula, and the merged environment and
    the arena after the call. *)
Definition mergeFormulas (Bool1 : option Formula) (Env1 : Environment)
    (Bool2 : option Formula) (Env2 : Environment)
    (MergedEnv : Environment) (A : Arena)
  : option Formula * Environment * Arena :=
  if decide (Bool1 = Bool2) then (Bool1, MergedEnv, A)
  else
    match Bool1, Bool2 with
    | Some B1, Some B2 =>
        let fresh :=
          let MergedBool := Atom A in
          let FC1 := getFlowConditionToken Env1 in
          let FC2 := getFlowConditionToken Env2 in
          (Some MergedBool,
           assume (Or (And (Atom FC1) (Equals MergedBool B1))
                      (And (Atom FC2) (Equals MergedBool B2)))
                  MergedEnv,
           S A) in
        if proves Env1 B1 then
          if proves Env2 B2 then (Some (Lit true), MergedEnv, A) else fresh
        else if proves Env1 (Not B1) && proves Env2 (Not B2)
             then (Some (Lit false), MergedEnv, A)
             else fresh
    | _, _ => (None, MergedEnv, A)
    end.

(** [widenNullabilityProperty] *)
Definition widenNullabilityProperty (Prev : option Formula)
    (PrevEnv : Environment) (Cur : option Formula) (CurEnv : Environment)
  : option Formula :=
  if decide (Prev = Cur) then Cur
  else
    match Prev, Cur with
    | Some P, Some C =>
        if proves PrevEnv P then
          if proves CurEnv C then Cur else None
        else if proves PrevEnv (Not P) && proves CurEnv (Not C) then Cur
             else None
    | _, _ => None
    end.

(** The analysis object's [TopStorageLocations], keyed by type, with
    the number of the next storage location the context creates. *)
Record TopStorageLocations : Type := mkTopLocs {
  locations : gmap nat LocId;
  nextLocation : LocId
}.

(** [getTopStorageLocation]: the location and the state after the
    call. *)
Definition getTopStorageLocation (Ty : nat) (T : TopStorageLocations)
  : LocId * TopStorageLocations :=
  match locations T !! Ty with
  | Some Loc => (Loc, T)
  | None =>
      (nextLocation T,
       mkTopLocs (<[Ty := nextLocation T]> (locations T))
                 (S (nextLocation T)))
  end.

(** Every top storage location was created by the context, and no two
    types share one. *)
Definition TopLocationsOk (T : TopStorageLocations) : Prop :=
  (forall Ty Loc, locations T !! Ty = Some Loc -> Loc < nextLocation T) /\
  (forall Ty1 Ty2 Loc,
     locations T !! Ty1 = Some Loc -> locations T !! Ty2 = Some Loc ->
     Ty1 = Ty2).

End Analysis.

(** ** Sample values for the value transfer *)

Module ValueSamples.
Import Solver Analysis.

(** A pointer value as its pointee location and its null state, if it
    has one. *)
Definition PointerValue : Type := LocId * option PointerNullState.

Definition getPointeeLoc (PV : PointerValue) : LocId := fst PV.

Definition hasPointerNullState (PV : PointerValue) : bool :=
  match snd PV with Some _ => true | None => false end.

Definition getPointerNullState (PV : PointerValue) : PointerNullState :=
  default (mkNullState None None) (snd PV).

(** Expression 1 is a pointer [p] whose null state is two atoms;
    expression 2 is the literal [nullptr]. *)
Definition pointerValues : gmap nat PointerValue :=
  {[ 1 := (7, Some (mkNullState (Some (Atom 4)) (Some (Atom 5))));
     2 := (0, Some (mkNullState (Some (Lit true)) (Some (Lit true)))) ]}.

Definition getPointerValueFromExpr (E : ExprId) (_ : Environment)
  : option PointerValue :=
  pointerValues !! E.

Definition emptyEnv : Environment := mkEnvironment ∅ [] 0.

(** [p != nullptr], as expression 10. *)
Definition pNotNull : BinaryOperator := mkBinaryOperator 10 BO_NE 1 2.

End ValueSamples.

(* ===================================================================== *)
(** * Part II: theorems                                                   *)
(* ===================================================================== *)

(** ** The solver facade decides satisfiability *)

Section SolverFacts.
Import Solver.

Lemma eval_ext (v w : Valuation) (f : Formula) :
  (forall a, In a (atoms f) -> v a = w a) -> eval v f = eval w f.
Proof.
  induction f as [a|b|f IH|f IHf g IHg|f IHf g IHg|f IHf g IHg|f IHf g IHg];
    simpl; intros Hagree.
  - apply Hagree. now left.
  - reflexivity.
  - now rewrite IH.
  - rewrite IHf, IHg; auto; intros a Ha; apply Hagree, in_or_app; auto.
  - rewrite IHf, IHg; auto; intros a Ha; apply Hagree, in_or_app; auto.
  - rewrite IHf, IHg; auto; intros a Ha; apply Hagree, in_or_app; auto.
  - rewrite IHf, IHg; auto; intros a Ha; apply Hagree, in_or_app; auto.
Qed.

Lemma update_same (v : Valuation) a b : update v a b a = b.
Proof. unfold update. now rewrite Nat.eqb_refl. Qed.

Lemma update_other (v : Valuation) a b x : x <> a -> update v a b x = v x.
Proof.
  intros Hne. unfold update.
  destruct (Nat.eqb_spec x a); [contradiction | reflexivity].
Qed.

(** The truth table has a row for every valuation of the listed atoms. *)
Lemma valuations_cover (v : Valuation) (xs : list nat) :
  exists w, In w (valuations xs) /\ forall a, In a xs -> w a = v a.
Proof.
  induction xs as [|x xs (w0 & Hin & Hagree)]; simpl.
  - exists (fun _ => false). split; [now left | intros a []].
  - exists (update w0 x (v x)). split.
    + apply in_flat_map. exists w0. split; [assumption |].
      destruct (v x); simpl; auto.
    + intros a [<- | Ha].
      * apply update_same.
      * destruct (Nat.eq_dec a x) as [-> | Hne].
        -- apply update_same.
        -- rewrite update_other by assumption. now apply Hagree.
Qed.

Lemma satisfiable_spec (f : Formula) :
  satisfiable f = true <-> exists v, eval v f = true.
Proof.
  unfold satisfiable. rewrite existsb_exists. split.
  - intros (v & _ & Hv). now exists v.
  - intros (v & Hv).
    destruct (valuations_cover v (atoms f)) as (w & Hin & Hagree).
    exists w. split; [assumption |].
    rewrite <- Hv. now apply eval_ext.
Qed.

Lemma eval_conjunction (v : Valuation) (fc : FlowCondition) :
  eval v (conjunction fc) = holds v fc.
Proof.
  induction fc as [|f fc IH]; simpl; [reflexivity |].
  now rewrite IH.
Qed.

Lemma allows_spec (fc : FlowCondition) (f : Formula) :
  allows fc f = true <->
  exists v, holds v fc = true /\ eval v f = true.
Proof.
  unfold allows. rewrite satisfiable_spec. simpl.
  split; intros (v & Hv); exists v.
  - rewrite eval_conjunction in Hv. now apply andb_true_iff.
  - rewrite eval_conjunction. now apply andb_true_iff.
Qed.

Lemma proves_spec (fc : FlowCondition) (f : Formula) :
  proves fc f = true <->
  forall v, holds v fc = true -> eval v f = true.
Proof.
  unfold proves. rewrite negb_true_iff. split.
  - intros Hunsat v Hfc.
    destruct (eval v f) eqn:Hf; [reflexivity |].
    assert (satisfiable (And (conjunction fc) (Not f)) = true) as Hsat.
    { apply satisfiable_spec. exists v. simpl.
      now rewrite eval_conjunction, Hfc, Hf. }
    congruence.
  - intros Hall.
    destruct (satisfiable (And (conjunction fc) (Not f))) eqn:Hsat; [| reflexivity].
    apply satisfiable_spec in Hsat as (v & Hv). simpl in Hv.
    rewrite eval_conjunction in Hv. apply andb_true_iff in Hv as (Hfc & Hnf).
    apply Hall in Hfc. rewrite Hfc in Hnf. discriminate.
Qed.

Lemma holds_app (v : Valuation) (fc fc' : FlowCondition) :
  holds v (fc ++ fc') = holds v fc && holds v fc'.
Proof. unfold holds. apply forallb_app. Qed.

End SolverFacts.

(** ** The lattice *)

Section LatticeFacts.
Import Lattice.

Variable ignoreCFGOmittedNodes : ExprId -> ExprId.

Local Abbreviation run := (run ignoreCFGOmittedNodes).
Local Abbreviation getExprNullability :=
  (getExprNullability ignoreCFGOmittedNodes).
Local Abbreviation insertExprNullabilityIfAbsent :=
  (insertExprNullabilityIfAbsent ignoreCFGOmittedNodes).

(** A callback never drops or overwrites an entry of the shared map. *)
Lemma run_extends (c : Compute) :
  forall (nfs nfs' : gmap nat TypeNullability) (n : TypeNullability),
    run c nfs = Some (n, nfs') -> nfs ⊆ nfs'.
Proof.
  induction c as [r | e child IHchild k IHk | e k IHk]; simpl;
    intros nfs nfs' n Hrun.
  - now inversion Hrun.
  - destruct (nfs !! ignoreCFGOmittedNodes e) as [n0|] eqn:Hlook.
    + eapply IHk, Hrun.
    + destruct (run child nfs) as [[n1 nfs1]|] eqn:Hchild; [| discriminate].
      destruct (nfs1 !! ignoreCFGOmittedNodes e) eqn:Hlook1; [discriminate |].
      apply IHchild in Hchild. apply IHk in Hrun.
      etrans; [exact Hchild |]. etrans; [| exact Hrun].
      now apply insert_subseteq.
  - eapply IHk, Hrun.
Qed.

Lemma insert_extends (e : ExprId) (g : Compute)
    (nfs nfs' : gmap nat TypeNullability) (n : TypeNullability) :
  insertExprNullabilityIfAbsent e g nfs = Some (n, nfs') -> nfs ⊆ nfs'.
Proof.
  unfold Lattice.insertExprNullabilityIfAbsent. intros Hins.
  destruct (nfs !! ignoreCFGOmittedNodes e) eqn:Hlook.
  - now inversion Hins.
  - destruct (run g nfs) as [[n1 nfs1]|] eqn:Hg; [| discriminate].
    destruct (nfs1 !! ignoreCFGOmittedNodes e) eqn:Hlook1; [discriminate |].
    inversion Hins; subst. apply run_extends in Hg.
    etrans; [exact Hg |]. now apply insert_subseteq.
Qed.

Lemma insert_present (e : ExprId) (g : Compute)
    (nfs : gmap nat TypeNullability) (n : TypeNullability) :
  getExprNullability e nfs = Some n ->
  insertExprNullabilityIfAbsent e g nfs = Some (n, nfs).
Proof.
  unfold Lattice.getExprNullability, Lattice.insertExprNullabilityIfAbsent.
  now intros ->.
Qed.

Lemma insert_stores (e : ExprId) (g : Compute)
    (nfs nfs' : gmap nat TypeNullability) (n : TypeNullability) :
  insertExprNullabilityIfAbsent e g nfs = Some (n, nfs') ->
  getExprNullability e nfs' = Some n.
Proof.
  unfold Lattice.getExprNullability, Lattice.insertExprNullabilityIfAbsent.
  intros Hins.
  destruct (nfs !! ignoreCFGOmittedNodes e) eqn:Hlook.
  - now inversion Hins; subst.
  - destruct (run g nfs) as [[n1 nfs1]|]; [| discriminate].
    destruct (nfs1 !! ignoreCFGOmittedNodes e); [discriminate |].
    inversion Hins; subst. apply lookup_insert_eq.
Qed.

(** C7. Joining clears the const-method-return cache: after [join] the
    cache of the element is empty, and [join] reports [Changed] exactly
    when the cache was not empty before. *)
Theorem join_clears_const_method_cache (L Other : PointerNullabilityLattice) :
  ConstMethodReturnValues (snd (join L Other)) = ∅ /\
  (fst (join L Other) = Changed <-> ConstMethodReturnValues L <> ∅).
Proof.
  unfold join. destruct (decide (ConstMethodReturnValues L = ∅)) as [He | Hne];
    simpl.
  - split; [assumption |]. split; [discriminate | contradiction].
  - split; [reflexivity |]. split; auto.
Qed.

(** The equality operator does not look at its arguments. *)
Lemma equal_unconditional (L Other : PointerNullabilityLattice) :
  equal L Other = true.
Proof. reflexivity. Qed.

(** C8. Two lattice elements whose const-method-return caches are empty
    compare equal. *)
Theorem equal_on_empty_cache (L Other : PointerNullabilityLattice) :
  ConstMethodReturnValues L = ∅ ->
  ConstMethodReturnValues Other = ∅ ->
  equal L Other = true.
Proof. intros _ _. apply equal_unconditional. Qed.

(** C10. The expression-to-nullability map is write-once per
    expression. An insertion that finds a vector returns it and leaves
    the map alone; the vector an insertion returns is the one stored;
    and whatever runs afterwards on the shared map (lookups and further
    insertions, for this or any other expression), a lookup and a new
    insertion attempt for the expression still return that vector. *)
Theorem expr_nullability_write_once
    (e : ExprId) (g : Compute) (nfs nfs1 : gmap nat TypeNullability)
    (n : TypeNullability) :
  insertExprNullabilityIfAbsent e g nfs = Some (n, nfs1) ->
  (forall n0, getExprNullability e nfs = Some n0 -> n = n0 /\ nfs1 = nfs) /\
  getExprNullability e nfs1 = Some n /\
  forall (later : Compute) (r : TypeNullability)
         (nfs2 : gmap nat TypeNullability),
    run later nfs1 = Some (r, nfs2) ->
    getExprNullability e nfs2 = Some n /\
    forall g', insertExprNullabilityIfAbsent e g' nfs2 = Some (n, nfs2).
Proof.
  intros Hins. split; [| split].
  - intros n0 Hpresent.
    rewrite (insert_present e g nfs n0 Hpresent) in Hins.
    now inversion Hins.
  - eapply insert_stores, Hins.
  - intros later r nfs2 Hlater.
    assert (getExprNullability e nfs2 = Some n) as Hkept.
    { apply insert_stores in Hins. apply run_extends in Hlater.
      unfold Lattice.getExprNullability in *.
      eapply lookup_weaken; eassumption. }
    split; [assumption |].
    intros g'. now apply insert_present.
Qed.

End LatticeFacts.

Lemma equal_on_empty_cache_witness :
  Lattice.equal (Lattice.mkLattice ∅) (Lattice.mkLattice ∅) = true.
Proof. apply equal_on_empty_cache; reflexivity. Defined.

Lemma expr_nullability_write_once_witness :
  Lattice.getExprNullability id 1 (<[1 := [Concrete NonNull]]> ∅)
  = Some [Concrete NonNull].
Proof.
  apply (expr_nullability_write_once id 1 (Lattice.Return [Concrete NonNull])
           ∅ (<[1 := [Concrete NonNull]]> ∅) [Concrete NonNull]).
  reflexivity.
Defined.

(** ** Null-check comparison *)

Section VerificationFacts.
Import Solver Verification.

Lemma eval_PointerNE (v : Valuation) (op : BinaryOperatorKind) (cmp : Formula) :
  op <> BO_Other ->
  eval v (PointerNE op cmp) = negb (comparesEqual v op cmp).
Proof.
  unfold comparesEqual. destruct op; simpl; intros Hop;
    [reflexivity | now rewrite negb_involutive | contradiction].
Qed.

Lemma addToFlowCondition_thrice (f1 f2 f3 : Formula) (Env : Environment) :
  flowCondition
    (addToFlowCondition f3 (addToFlowCondition f2 (addToFlowCondition f1 Env)))
  = flowCondition Env ++ [f1; f2; f3].
Proof. simpl. now rewrite <- !app_assoc. Qed.

Lemma eval_update_fresh (v : Valuation) (c : nat) (b : bool) (f : Formula) :
  ~ In c (atoms f) -> eval (update v c b) f = eval v f.
Proof.
  intros Hfresh. apply eval_ext. intros a Ha.
  apply update_other. intros ->. contradiction.
Qed.

(** C3. A comparison of two pointers with [==] or [!=] has a Boolean
    value, from which "the pointers compare equal" is read (the value
    itself for [==], its negation for [!=]); the transfer function adds
    exactly three constraints to the flow condition and changes nothing
    else: null and null implies equal, null and non-null implies not
    equal, non-null and null implies not equal. Nothing relates two
    non-null pointers: a model of the old flow condition in which both
    are non-null is a model of the new one whatever the comparison is,
    and when the comparison is a fresh atom both outcomes are allowed.
    "Null" is the code's known-and-not-[NotNull], "non-null" its
    known-and-[NotNull]; for pointers whose [Known] is the literal
    [true] the three constraints are the spec's implications over
    [is_null]. *)
Theorem null_check_comparison_three_implications
    (BinaryOp : BinaryOperator) (Env : Environment)
    (cmp : Formula) (L R : Formula * Formula) :
  bo_opcode BinaryOp <> BO_Other ->
  boolValues Env !! bo_id BinaryOp = Some cmp ->
  nullStates Env !! bo_lhs BinaryOp = Some L ->
  nullStates Env !! bo_rhs BinaryOp = Some R ->
  let op := bo_opcode BinaryOp in
  exists (Env' : Environment) (i1 i2 i3 : Formula),
    transferNullCheckComparison BinaryOp Env = Some Env' /\
    boolValues Env' = boolValues Env /\
    nullStates Env' = nullStates Env /\
    flowCondition Env' = flowCondition Env ++ [i1; i2; i3] /\
    (forall v, eval v i1 = true <->
       (knownNull v L = true -> knownNull v R = true ->
        comparesEqual v op cmp = true)) /\
    (forall v, eval v i2 = true <->
       (knownNull v L = true -> knownNotNull v R = true ->
        comparesEqual v op cmp = false)) /\
    (forall v, eval v i3 = true <->
       (knownNotNull v L = true -> knownNull v R = true ->
        comparesEqual v op cmp = false)) /\
    (fst L = Lit true -> fst R = Lit true ->
     forall v,
       eval v i1 = implb (isNullIn v L && isNullIn v R)
                         (comparesEqual v op cmp) /\
       eval v i2 = implb (isNullIn v L && negb (isNullIn v R))
                         (negb (comparesEqual v op cmp)) /\
       eval v i3 = implb (negb (isNullIn v L) && isNullIn v R)
                         (negb (comparesEqual v op cmp))) /\
    (forall v, holds v (flowCondition Env) = true ->
       knownNotNull v L = true -> knownNotNull v R = true ->
       holds v (flowCondition Env') = true) /\
    (forall c v, cmp = Atom c ->
       ~ In c (atoms (conjunction (flowCondition Env))) ->
       ~ In c (atoms (fst L) ++ atoms (snd L) ++
               atoms (fst R) ++ atoms (snd R)) ->
       holds v (flowCondition Env) = true ->
       knownNotNull v L = true -> knownNotNull v R = true ->
       allows (flowCondition Env') (PointerEQ op cmp) = true /\
       allows (flowCondition Env') (PointerNE op cmp) = true).
Proof.
  intros Hop Hcmp HL HR op. destruct L as [LK LNN], R as [RK RNN].
  set (i1 := Implies (And (And LK (Not LNN)) (And RK (Not RNN)))
                     (PointerEQ op cmp)).
  set (i2 := Implies (And (And LK (Not LNN)) (And RK RNN))
                     (PointerNE op cmp)).
  set (i3 := Implies (And (And LK LNN) (And RK (Not RNN)))
                     (PointerNE op cmp)).
  set (Env' := addToFlowCondition i3
                 (addToFlowCondition i2 (addToFlowCondition i1 Env))).
  assert (forall v, holds v (flowCondition Env) = true ->
            knownNotNull v (LK, LNN) = true ->
            knownNotNull v (RK, RNN) = true ->
            holds v (flowCondition Env') = true) as Hfree.
  { intros v Hfc HLnn HRnn. unfold Env'.
    rewrite addToFlowCondition_thrice, holds_app, Hfc. simpl.
    unfold knownNotNull in *. simpl in *.
    apply andb_true_iff in HLnn as [-> ->].
    apply andb_true_iff in HRnn as [-> ->]. reflexivity. }
  assert (forall v c b,
            ~ In c (atoms (conjunction (flowCondition Env))) ->
            ~ In c (atoms LK ++ atoms LNN ++ atoms RK ++ atoms RNN) ->
            holds v (flowCondition Env) = true ->
            knownNotNull v (LK, LNN) = true ->
            knownNotNull v (RK, RNN) = true ->
            holds (update v c b) (flowCondition Env') = true) as Hupd.
  { intros v c b Hfc Hst Hv HLnn HRnn. apply Hfree.
    - rewrite <- eval_conjunction, eval_update_fresh, eval_conjunction by assumption.
      assumption.
    - unfold knownNotNull in *. simpl in *.
      rewrite !eval_update_fresh; [assumption | |];
        intros Hin; apply Hst; rewrite !in_app_iff; auto.
    - unfold knownNotNull in *. simpl in *.
      rewrite !eval_update_fresh; [assumption | |];
        intros Hin; apply Hst; rewrite !in_app_iff; auto. }
  exists Env', i1, i2, i3.
  refine (conj _ (conj _ (conj _ (conj _ (conj _ (conj _ (conj _
           (conj _ (conj _ _))))))))).
  - unfold transferNullCheckComparison. rewrite Hcmp, HL, HR.
    fold op. destruct op eqn:Eop; try reflexivity. now elim Hop.
  - reflexivity.
  - reflexivity.
  - unfold Env'. apply addToFlowCondition_thrice.
  - intros v. unfold knownNull, comparesEqual. simpl.
    destruct (eval v LK && negb (eval v LNN));
      destruct (eval v RK && negb (eval v RNN));
      destruct (eval v (PointerEQ op cmp)); simpl; intuition congruence.
  - intros v. unfold knownNull, knownNotNull. simpl.
    rewrite eval_PointerNE by exact Hop.
    destruct (eval v LK && negb (eval v LNN));
      destruct (eval v RK && eval v RNN);
      destruct (comparesEqual v op cmp); simpl; intuition congruence.
  - intros v. unfold knownNull, knownNotNull. simpl.
    rewrite eval_PointerNE by exact Hop.
    destruct (eval v LK && eval v LNN);
      destruct (eval v RK && negb (eval v RNN));
      destruct (comparesEqual v op cmp); simpl; intuition congruence.
  - simpl. intros -> -> v. unfold isNullIn, comparesEqual. simpl.
    rewrite !eval_PointerNE by exact Hop. unfold comparesEqual.
    rewrite !negb_involutive. repeat split; reflexivity.
  - exact Hfree.
  - intros c v -> Hfc Hst Hv HLnn HRnn. simpl in Hst. split.
    + apply allows_spec.
      exists (update v c (match op with BO_EQ => true | _ => false end)).
      split; [now apply Hupd |].
      destruct op; simpl; rewrite update_same; reflexivity.
    + apply allows_spec.
      exists (update v c (match op with BO_EQ => false | _ => true end)).
      split; [now apply Hupd |].
      destruct op; simpl; rewrite update_same; reflexivity.
Qed.

End VerificationFacts.

Lemma null_check_comparison_three_implications_witness :
  exists Env',
    Verification.transferNullCheckComparison
      (Verification.mkBinaryOperator 10 Verification.BO_EQ 1 2)
      (Verification.mkEnvironment
         {[10 := Solver.Atom 0]}
         {[1 := (Solver.Lit true, Solver.Atom 1);
           2 := (Solver.Lit true, Solver.Atom 2)]}
         []) = Some Env' /\
    length (Verification.flowCondition Env') = 3.
Proof.
  destruct (null_check_comparison_three_implications
              (Verification.mkBinaryOperator 10 Verification.BO_EQ 1 2)
              (Verification.mkEnvironment
                 {[10 := Solver.Atom 0]}
                 {[1 := (Solver.Lit true, Solver.Atom 1);
                   2 := (Solver.Lit true, Solver.Atom 2)]}
                 [])
              (Solver.Atom 0)
              (Solver.Lit true, Solver.Atom 1)
              (Solver.Lit true, Solver.Atom 2))
    as (Env' & i1 & i2 & i3 & Hrun & _ & _ & Hfc & _).
  - discriminate.
  - reflexivity.
  - reflexivity.
  - reflexivity.
  - exists Env'. split; [exact Hrun |]. rewrite Hfc. reflexivity.
Defined.

(** ** The diagnoser *)

Section DiagnosisFacts.
Import Solver Diagnosis.

Context `{API : TypeNullabilityAPI}.
Variable ignoreCFGOmittedNodes : ExprId -> ExprId.

Local Abbreviation pointerNullabilityDiagnoser :=
  (pointerNullabilityDiagnoser ignoreCFGOmittedNodes).
Local Abbreviation diagnoseCallExpr :=
  (diagnoseCallExpr ignoreCFGOmittedNodes).

Lemma isNullable_spec (PV : PointerValue) (Env : Environment) :
  isNullable PV Env = true <-> exists v, nullModel Env PV v.
Proof.
  unfold isNullable, nullModel. rewrite allows_spec.
  destruct (is_null PV) as [f|]; simpl;
    split; intros (v & Hfc & Hf); exists v; auto.
Qed.

(** What [diagnoseNonnullExpected] returns, by cases. *)
Lemma diagnoseNonnullExpected_cases (E : Expr) (Env : Environment)
    (DiagCtx : Context) (ParamName : option string) :
  (exists PV, getPointerValue E Env = Some PV /\ isNullable PV Env = true /\
     diagnoseNonnullExpected E Env DiagCtx ParamName
     = [mkDiag ExpectedNonnull DiagCtx (getSourceRange E) ParamName]) \/
  (exists PV, getPointerValue E Env = Some PV /\ isNullable PV Env = false /\
     diagnoseNonnullExpected E Env DiagCtx ParamName = []) \/
  (getPointerValue E Env = None /\
     diagnoseNonnullExpected E Env DiagCtx ParamName
     = [mkDiag Untracked DiagCtx (getSourceRange E) None]).
Proof.
  unfold diagnoseNonnullExpected.
  destruct (getPointerValue E Env) as [PV|]; [| now right; right].
  destruct (isNullable PV Env) eqn:Hn; [left | right; left]; eauto.
Qed.

Lemma diagnoseNonnullExpected_Ctx (E : Expr) (Env : Environment)
    (DiagCtx : Context) (ParamName : option string)
    (d : PointerNullabilityDiagnostic) :
  In d (diagnoseNonnullExpected E Env DiagCtx ParamName) -> Ctx d = DiagCtx.
Proof.
  destruct (diagnoseNonnullExpected_cases E Env DiagCtx ParamName)
    as [(PV & _ & _ & ->) | [(PV & _ & _ & ->) | (_ & ->)]];
    simpl; intros Hin; intuition (subst; reflexivity).
Qed.

(** A dereference-like element is handled by its own case of the
    switch, which diagnoses the dereferenced operand. *)
Lemma diagnoser_on_dereference (E p : Expr) (State : TransferState) :
  DereferenceLike E p ->
  pointerNullabilityDiagnoser (CFGStmt (ExprStmt E)) State
  = Some (diagnoseNonnullExpected p (Env State) NullableDereference None).
Proof.
  intros Hderef. destruct Hderef as
    [id ty r p Hp | id ty r p i Hp | id ty r p
    | id ty r op callee p args direct Hop Hsmart]; simpl.
  - now rewrite Hp.
  - now rewrite Hp.
  - reflexivity.
  - rewrite Hsmart, !andb_true_r.
    destruct Hop as [-> | [-> | ->]]; reflexivity.
Qed.

(** C1. At a dereference-like element ([*p], [p[i]], [p->m], a
    smart-pointer [operator*], [operator[]] or [operator->] call) the
    diagnoser returns; it reports [ExpectedNonnull] if and only if a
    pointer value is modelled for the operand and the flow condition has
    a model in which [is_null] of that value holds; it reports
    [Untracked] if and only if no pointer value is modelled; and when
    the solver proves the negation of [is_null], no [ExpectedNonnull]
    is reported. *)
Theorem dereference_flagged_iff_may_be_null
    (E p : Expr) (State : TransferState) :
  DereferenceLike E p ->
  exists Ds,
    pointerNullabilityDiagnoser (CFGStmt (ExprStmt E)) State = Some Ds /\
    ((exists d, In d Ds /\ Code d = ExpectedNonnull) <->
     (exists PV, getPointerValue p (Env State) = Some PV /\
                 exists v, nullModel (Env State) PV v)) /\
    ((exists d, In d Ds /\ Code d = Untracked) <->
     getPointerValue p (Env State) = None) /\
    (forall PV f,
       getPointerValue p (Env State) = Some PV ->
       is_null PV = Some f ->
       proves (flowCondition (Env State)) (Not f) = true ->
       forall d, In d Ds -> Code d <> ExpectedNonnull).
Proof.
  intros Hderef.
  exists (diagnoseNonnullExpected p (Env State) NullableDereference None).
  split; [now apply diagnoser_on_dereference |].
  destruct (diagnoseNonnullExpected_cases p (Env State)
              NullableDereference None)
    as [(PV & HPV & Hn & ->) | [(PV & HPV & Hn & ->) | (HPV & ->)]].
  - split; [| split].
    + split; [intros _ | intros _; eexists; split; [now left | reflexivity]].
      exists PV. split; [assumption |]. now apply isNullable_spec.
    + split; [intros (d & [<- | []] & Hd); discriminate |].
      rewrite HPV. discriminate.
    + intros PV' f HPV' Hf Hproves. exfalso.
      rewrite HPV in HPV'. inversion HPV'; subst PV'.
      apply isNullable_spec in Hn as (v & Hfc & Hv). rewrite Hf in Hv.
      pose proof (proj1 (proves_spec _ _) Hproves v Hfc) as Hnot.
      simpl in Hnot. rewrite Hv in Hnot. discriminate.
  - split; [| split].
    + split; [intros (d & [] & _) |].
      intros (PV' & HPV' & Hmodel). exfalso.
      rewrite HPV in HPV'. inversion HPV'; subst PV'.
      apply isNullable_spec in Hmodel. congruence.
    + split; [intros (d & [] & _) |]. rewrite HPV. discriminate.
    + intros _ _ _ _ _ d [].
  - split; [| split].
    + split; [intros (d & [<- | []] & Hd); discriminate |].
      intros (PV & HPV' & _). congruence.
    + split; [intros _; assumption |].
      intros _. eexists. split; [now left | reflexivity].
    + intros PV f HPV'. congruence.
Qed.

Lemma diagnoseAssertNullabilityCall_Ctx (CE : Expr) (State : TransferState)
    (Ds : list PointerNullabilityDiagnostic) :
  diagnoseAssertNullabilityCall ignoreCFGOmittedNodes CE State = Some Ds ->
  forall d, In d Ds -> Ctx d = Other.
Proof.
  unfold diagnoseAssertNullabilityCall. intros Hrun d Hin.
  destruct CE as [| | | | |id ty r cls callee args direct| |];
    try discriminate.
  destruct (IgnoreImpCasts callee); try discriminate.
  destruct args as [|GivenExpr args]; [discriminate |].
  destruct (getExprNullability ignoreCFGOmittedNodes GivenExpr State).
  - destruct (decide _); inversion Hrun; subst; simpl in Hin;
      intuition (subst; reflexivity).
  - inversion Hrun; subst; simpl in Hin; intuition (subst; reflexivity).
Qed.

(** When the call is not [__assert_nullability] and the callee has a
    nullability vector, a callee of pointer type that is diagnosed ends
    the function: its result is the callee's diagnostics. *)
Lemma diagnoseCallExpr_callee_diagnosed
    (id : ExprId) (ty : QualType) (r : SourceRange) (cls : CallClass)
    (Callee : Expr) (Args : list Expr) (direct : option CalleeDecl)
    (State : TransferState) (N : TypeNullability) :
  isAssertNullability direct = false ->
  getExprNullability ignoreCFGOmittedNodes Callee State = Some N ->
  isPointerType (getType Callee) = true ->
  diagnoseNonnullExpected Callee (Env State) Other None <> [] ->
  diagnoseCallExpr (CallExpr id ty r cls Callee Args direct) State
  = Some (diagnoseNonnullExpected Callee (Env State) Other None).
Proof.
  intros Hassert HN Hptr HD. unfold Diagnosis.diagnoseCallExpr.
  rewrite Hassert, HN, Hptr.
  destruct (diagnoseNonnullExpected Callee (Env State) Other None);
    [contradiction | reflexivity].
Qed.

(** C9. For a call whose callee expression has pointer type: if
    diagnosing the callee yields any diagnostic, an ordinary call whose
    callee has a nullability vector returns exactly the callee's
    diagnostics, and whatever the call returns holds no argument
    diagnostic; put the other way round, a result with an argument
    diagnostic means the callee was diagnostic-free. *)
Theorem callee_diagnostic_ends_call_diagnosis
    (id : ExprId) (ty : QualType) (r : SourceRange) (cls : CallClass)
    (Callee : Expr) (Args : list Expr) (direct : option CalleeDecl)
    (State : TransferState) :
  isPointerType (getType Callee) = true ->
  (isAssertNullability direct = false ->
   is_Some (getExprNullability ignoreCFGOmittedNodes Callee State) ->
   diagnoseNonnullExpected Callee (Env State) Other None <> [] ->
   diagnoseCallExpr (CallExpr id ty r cls Callee Args direct) State
   = Some (diagnoseNonnullExpected Callee (Env State) Other None)) /\
  (forall Ds,
     diagnoseCallExpr (CallExpr id ty r cls Callee Args direct) State
     = Some Ds ->
     (diagnoseNonnullExpected Callee (Env State) Other None <> [] ->
      forall d, In d Ds -> Ctx d <> FunctionArgument) /\
     ((exists d, In d Ds /\ Ctx d = FunctionArgument) ->
      diagnoseNonnullExpected Callee (Env State) Other None = [])).
Proof.
  intros Hptr. split.
  { intros Hassert [N HN] HD.
    now apply (diagnoseCallExpr_callee_diagnosed _ _ _ _ _ _ _ _ N). }
  intros Ds Hrun.
  assert (diagnoseNonnullExpected Callee (Env State) Other None <> [] ->
          forall d, In d Ds -> Ctx d <> FunctionArgument) as Hmain.
  { intros HD d Hin. unfold Diagnosis.diagnoseCallExpr in Hrun.
    destruct (isAssertNullability direct).
    - rewrite (diagnoseAssertNullabilityCall_Ctx _ _ _ Hrun d Hin).
      discriminate.
    - destruct (getExprNullability ignoreCFGOmittedNodes Callee State)
        as [N|]; [| inversion Hrun; subst; destruct Hin].
      rewrite Hptr in Hrun.
      destruct (diagnoseNonnullExpected Callee (Env State) Other None)
        as [|d0 D] eqn:HDs; [contradiction |].
      inversion Hrun; subst Ds. rewrite <- HDs in Hin.
      rewrite (diagnoseNonnullExpected_Ctx _ _ _ _ _ Hin). discriminate. }
  split; [exact Hmain |].
  intros (d & Hin & Hctx).
  destruct (diagnoseNonnullExpected Callee (Env State) Other None)
    as [|d0 D] eqn:HDs; [reflexivity |].
  exfalso. apply (Hmain ltac:(discriminate) d Hin Hctx).
Qed.

End DiagnosisFacts.

Lemma dereference_flagged_iff_may_be_null_witness :
  exists Ds,
    Diagnosis.pointerNullabilityDiagnoser (API := Samples.sampleAPI) id
      (Diagnosis.CFGStmt (Diagnosis.ExprStmt Samples.derefQ))
      Samples.nullCalleeState = Some Ds /\
    exists d, In d Ds /\ Diagnosis.Code d = Diagnosis.ExpectedNonnull.
Proof.
  destruct (dereference_flagged_iff_may_be_null (API := Samples.sampleAPI) id
              Samples.derefQ Samples.argQ Samples.nullCalleeState)
    as (Ds & Hrun & Hflag & _).
  - apply Diagnosis.Deref_Star. reflexivity.
  - exists Ds. split; [exact Hrun |]. apply Hflag.
    exists (Diagnosis.mkPointerValue 8 (Some (Solver.Lit true))
                                     (Some (Solver.Lit true))).
    split; [reflexivity |].
    exists (fun _ => false). split; reflexivity.
Defined.

Lemma callee_diagnostic_ends_call_diagnosis_witness :
  Diagnosis.diagnoseCallExpr (API := Samples.sampleAPI) id
    Samples.callThroughNullPointer Samples.nullCalleeState
  = Some [Diagnosis.mkDiag Diagnosis.ExpectedNonnull Diagnosis.Other
            (Diagnosis.mkRange 1 2) None].
Proof.
  apply (proj1 (callee_diagnostic_ends_call_diagnosis
                  (API := Samples.sampleAPI) id
                  4 (Diagnosis.BuiltinType "void") (Diagnosis.mkRange 1 6)
                  Diagnosis.PlainCall Samples.calleeFp [Samples.argQ] None
                  Samples.nullCalleeState eq_refl)).
  - reflexivity.
  - eexists. reflexivity.
  - discriminate.
Defined.

(** ** The entry point *)

Section EntryPointFacts.
Import Solver Diagnosis.

Context `{API : TypeNullabilityAPI} `{FW : Framework}.
Variable ignoreCFGOmittedNodes : ExprId -> ExprId.

Local Abbreviation diagnosePointerNullability :=
  (diagnosePointerNullability ignoreCFGOmittedNodes).
Local Abbreviation collectDiagnostics :=
  (collectDiagnostics ignoreCFGOmittedNodes).

(** A declaration without a body gets the diagnostics of its
    parameters' default arguments. *)
Lemma declaration_without_body (Func : FunctionDecl) :
  fn_isTemplated Func = false ->
  fn_doesThisDeclarationHaveABody Func = false ->
  diagnosePointerNullability Func
  = Some (Success _
            (fold_left (fun Diags Parm =>
                          checkParmVarDeclWithPointerDefaultArg Parm Diags)
                       (fn_parameters Func) [])).
Proof.
  intros Htempl Hbody. unfold Diagnosis.diagnosePointerNullability.
  now rewrite Htempl, Hbody.
Qed.

(** A [Nonnull] parameter whose default argument is a null-pointer
    constant adds exactly one diagnostic. *)
Lemma null_default_argument_checked (Parm : ParmVarDecl) (Init : Expr)
    (front : PointerTypeNullability) (rest : TypeNullability)
    (Diags : list PointerNullabilityDiagnostic) :
  isDependentType (parm_type Parm) = false ->
  getTypeNullability_Parm Parm = front :: rest ->
  concrete front = NonNull ->
  parm_init Parm = Some Init ->
  isNullPointerConstant Init = true ->
  checkParmVarDeclWithPointerDefaultArg Parm Diags
  = Diags ++ [mkDiag ExpectedNonnull Initializer (getSourceRange Init)
                     (Some (parm_name Parm))].
Proof.
  intros Hdep Hann Hfront Hinit Hnull.
  unfold checkParmVarDeclWithPointerDefaultArg,
    shouldDiagnoseExpectedNonnullDefaultArgValue.
  rewrite Hdep, Hann, Hinit, Hnull.
  now rewrite bool_decide_eq_true_2 by assumption.
Qed.

(** With a body, what the entry point returns is decided by the run
    alone: the diagnostics gathered for the parameters before the run
    do not reach the result. *)
Lemma definition_with_body (Func : FunctionDecl)
    (Ds : list PointerNullabilityDiagnostic) :
  fn_isTemplated Func = false ->
  fn_doesThisDeclarationHaveABody Func = true ->
  AdornedCFG_build Func = None ->
  collectDiagnostics
    (postVisit (runDataflowAnalysis Func 2000000 20000)) = Some Ds ->
  diagnosePointerNullability Func
  = Some (match runError (runDataflowAnalysis Func 2000000 20000) with
          | Some E => Failure _ E
          | None =>
              if reachedLimit (runDataflowAnalysis Func 2000000 20000)
              then Failure _ (mkError interrupted "SAT solver timed out")
              else Success _ Ds
          end).
Proof.
  intros Htempl Hbody Hcfg Hcollect.
  unfold Diagnosis.diagnosePointerNullability, MaxSATIterations, MaxBlockVisits.
  rewrite Htempl, Hbody, Hcfg. simpl. rewrite Hcollect.
  destruct (runError _); [reflexivity |].
  destruct (reachedLimit _); reflexivity.
Qed.

(** C4, as the code has it. The analysis is run with a solver limit of
    2,000,000 iterations and a limit of 20,000 block visits. When the
    run itself fails, as the framework does on exceeding the block
    visits, the entry point returns the framework's error unchanged;
    when the run succeeds and the solver reached its limit, it returns
    the [interrupted] error; in both cases an error and no diagnostics.
    Otherwise it returns diagnostics. *)
Theorem limits_end_in_recoverable_failure (Func : FunctionDecl) :
  fn_isTemplated Func = false ->
  fn_doesThisDeclarationHaveABody Func = true ->
  AdornedCFG_build Func = None ->
  is_Some (collectDiagnostics
             (postVisit (runDataflowAnalysis Func 2000000 20000))) ->
  (forall E, runError (runDataflowAnalysis Func 2000000 20000) = Some E ->
             diagnosePointerNullability Func = Some (Failure _ E)) /\
  (runError (runDataflowAnalysis Func 2000000 20000) = None ->
   reachedLimit (runDataflowAnalysis Func 2000000 20000) = true ->
   diagnosePointerNullability Func
   = Some (Failure _ (mkError interrupted "SAT solver timed out"))) /\
  (runError (runDataflowAnalysis Func 2000000 20000) = None ->
   reachedLimit (runDataflowAnalysis Func 2000000 20000) = false ->
   exists Ds, diagnosePointerNullability Func = Some (Success _ Ds)).
Proof.
  intros Htempl Hbody Hcfg [Ds Hcollect].
  rewrite (definition_with_body Func Ds Htempl Hbody Hcfg Hcollect).
  repeat split.
  - now intros E ->.
  - now intros -> ->.
  - intros -> ->. now exists Ds.
Qed.

End EntryPointFacts.

Lemma limits_end_in_recoverable_failure_witness :
  Diagnosis.diagnosePointerNullability
    (API := Samples.sampleAPI) id (FW := Samples.blockLimitFramework)
    Samples.definitionWithBody
  = Some (Diagnosis.Failure _
            (Diagnosis.mkError Diagnosis.timed_out
                               "maximum number of blocks processed")).
Proof.
  apply (limits_end_in_recoverable_failure
           (API := Samples.sampleAPI) (FW := Samples.blockLimitFramework) id
           Samples.definitionWithBody).
  - reflexivity.
  - reflexivity.
  - reflexivity.
  - exists []. reflexivity.
  - reflexivity.
Defined.

(** C4, as stated, fails: a run cut off by the limit on block visits
    ends in the framework's own error, which is not [interrupted]. *)
Lemma block_visit_limit_is_not_interrupted :
  (Diagnosis.MaxBlockVisits
   < Diagnosis.blockVisits
       (Diagnosis.runDataflowAnalysis (Framework := Samples.blockLimitFramework)
          Samples.definitionWithBody
          Diagnosis.MaxSATIterations Diagnosis.MaxBlockVisits))%Z /\
  exists E,
    Diagnosis.diagnosePointerNullability
      (API := Samples.sampleAPI) id (FW := Samples.blockLimitFramework)
      Samples.definitionWithBody
    = Some (Diagnosis.Failure _ E) /\
    Diagnosis.error_code E <> Diagnosis.interrupted.
Proof.
  split; [reflexivity |].
  eexists. split; [reflexivity | discriminate].
Qed.

(** C6 at the failing input: for [void f(int *p = nullptr);] in a file
    whose default is [Nonnull] the declaration gets its one diagnostic,
    and for the definition [void f(int *p = nullptr) {}] the entry point
    returns none. *)
Theorem default_argument_diagnostic_lost_with_body :
  Diagnosis.diagnosePointerNullability
    (API := Samples.sampleAPI) id (FW := Samples.quietFramework)
    Samples.declarationOnly
  = Some (Diagnosis.Success _
            [Diagnosis.mkDiag Diagnosis.ExpectedNonnull Diagnosis.Initializer
               (Diagnosis.mkRange 20 27) (Some "p")]) /\
  Diagnosis.diagnosePointerNullability
    (API := Samples.sampleAPI) id (FW := Samples.quietFramework)
    Samples.definitionWithBody
  = Some (Diagnosis.Success _ []).
Proof. split; reflexivity. Qed.

(** A const-method call fills the cache, so that the next join clears
    it and reports a change; a second join finds it empty. *)
Example join_after_const_method_call :
  let L := snd (Lattice.getConstMethodReturnValue 1 2 3 (Lattice.mkLattice ∅)) in
  Lattice.join L L = (Lattice.Changed, Lattice.mkLattice ∅) /\
  Lattice.join (snd (Lattice.join L L)) L
  = (Lattice.Unchanged, Lattice.mkLattice ∅).
Proof. split; reflexivity. Qed.

(* ===================================================================== *)
(** * Part III: further properties of the modelled code                   *)
(* ===================================================================== *)

(** ** The const-method-return cache *)

Section ConstMethodCacheFacts.
Import Lattice.

(** X1. A const method called again on the same object returns the value of
    the first call, whatever fresh value the environment would offer,
    and the second call leaves the lattice as the first one left it. *)
Theorem const_method_value_memoized
    (RecordLoc : LocId) (Method : MethodId) (fresh fresh' : ValueId)
    (L : PointerNullabilityLattice) :
  getConstMethodReturnValue RecordLoc Method fresh'
    (snd (getConstMethodReturnValue RecordLoc Method fresh L))
  = getConstMethodReturnValue RecordLoc Method fresh L.
Proof.
  unfold getConstMethodReturnValue.
  destruct (default ∅ (ConstMethodReturnValues L !! RecordLoc) !! Method)
    as [PV|] eqn:Hlook; simpl.
  - rewrite lookup_insert_eq. simpl. rewrite Hlook.
    now rewrite insert_insert_eq.
  - rewrite lookup_insert_eq. simpl. rewrite lookup_insert_eq.
    now rewrite insert_insert_eq.
Qed.

(** X2. The values of other methods and other objects are not disturbed by
    a call: what a later call for another key returns is what it would
    have returned without the call in between. *)
Theorem const_method_values_independent
    (RecordLoc RecordLoc' : LocId) (Method Method' : MethodId)
    (fresh fresh' : ValueId) (L : PointerNullabilityLattice) :
  (RecordLoc, Method) <> (RecordLoc', Method') ->
  fst (getConstMethodReturnValue RecordLoc' Method' fresh'
         (snd (getConstMethodReturnValue RecordLoc Method fresh L)))
  = fst (getConstMethodReturnValue RecordLoc' Method' fresh' L).
Proof.
  intros Hne. unfold getConstMethodReturnValue.
  destruct (decide (RecordLoc = RecordLoc')) as [<- | Hloc].
  - assert (Method <> Method') as Hm by congruence.
    destruct (default ∅ (ConstMethodReturnValues L !! RecordLoc) !! Method)
      as [PV|] eqn:Hlook; simpl; rewrite lookup_insert_eq; simpl.
    + now destruct (default ∅ (ConstMethodReturnValues L !! RecordLoc)
                      !! Method').
    + rewrite lookup_insert_ne by assumption.
      now destruct (default ∅ (ConstMethodReturnValues L !! RecordLoc)
                      !! Method').
  - destruct (default ∅ (ConstMethodReturnValues L !! RecordLoc) !! Method)
      as [PV|]; simpl; rewrite lookup_insert_ne by assumption;
      now destruct (default ∅ (ConstMethodReturnValues L !! RecordLoc')
                      !! Method').
Qed.

(** X3. Clearing an object forgets every value cached for it, so that the
    next const call on it returns a fresh value, and forgets nothing
    about any other object. *)
Theorem clear_forgets_exactly_one_object
    (RecordLoc RecordLoc' : LocId) (Method : MethodId) (fresh : ValueId)
    (L : PointerNullabilityLattice) :
  fst (getConstMethodReturnValue RecordLoc Method fresh
         (clearConstMethodReturnValues RecordLoc L)) = fresh /\
  (RecordLoc' <> RecordLoc ->
   fst (getConstMethodReturnValue RecordLoc' Method fresh
          (clearConstMethodReturnValues RecordLoc L))
   = fst (getConstMethodReturnValue RecordLoc' Method fresh L)).
Proof.
  unfold getConstMethodReturnValue, clearConstMethodReturnValues. simpl.
  split.
  - rewrite lookup_delete_eq. simpl. now rewrite lookup_empty.
  - intros Hne. rewrite lookup_delete_ne by congruence.
    now destruct (default ∅ (ConstMethodReturnValues L !! RecordLoc')
                    !! Method).
Qed.

(** X4. A join forgets every cached value: the const call after a join
    returns a fresh value even if the method was called, and its result
    checked, before the join; and a second join changes nothing. *)
Theorem join_forgets_const_method_values
    (L Other Other' : PointerNullabilityLattice)
    (RecordLoc : LocId) (Method : MethodId) (fresh : ValueId) :
  fst (getConstMethodReturnValue RecordLoc Method fresh (snd (join L Other)))
  = fresh /\
  join (snd (join L Other)) Other' = (Unchanged, snd (join L Other)).
Proof.
  assert (ConstMethodReturnValues (snd (join L Other)) = ∅) as Hempty.
  { unfold join. now destruct (decide (ConstMethodReturnValues L = ∅)). }
  split.
  - unfold getConstMethodReturnValue. rewrite Hempty, lookup_empty. simpl.
    now rewrite lookup_empty.
  - unfold join at 1. now rewrite decide_True by exact Hempty.
Qed.

End ConstMethodCacheFacts.

Lemma const_method_values_independent_witness :
  fst (Lattice.getConstMethodReturnValue 1 3 9
         (snd (Lattice.getConstMethodReturnValue 1 2 8 (Lattice.mkLattice ∅))))
  = fst (Lattice.getConstMethodReturnValue 1 3 9 (Lattice.mkLattice ∅)).
Proof. apply const_method_values_independent. discriminate. Defined.

(** ** Type transfer *)

Section TypeTransferFacts.
Import Lattice TypeTransfer.

Variable ignoreCFGOmittedNodes : ExprId -> ExprId.
Variable countPointersInType : ExprId -> nat.
Variable unspecifiedNullability : ExprId -> TypeNullability.
Variable getNullabilityAnnotationsFromType : ExprId -> TypeNullability.

Local Abbreviation insertIfAbsent := (insertIfAbsent ignoreCFGOmittedNodes).
Local Abbreviation computeNullability :=
  (computeNullability ignoreCFGOmittedNodes countPointersInType).
Local Abbreviation getNullabilityForChild :=
  (getNullabilityForChild ignoreCFGOmittedNodes unspecifiedNullability).
Local Abbreviation transferType_UnaryOperator :=
  (transferType_UnaryOperator ignoreCFGOmittedNodes countPointersInType
                              unspecifiedNullability).

Local Abbreviation fitted := (fitted countPointersInType).

Lemma length_fitted (E : ExprId) (N : TypeNullability) :
  length (fitted E N) = countPointersInType E.
Proof.
  unfold fitted. destruct (decide _) as [-> | _]; [reflexivity |].
  apply length_replicate.
Qed.

(** The callback form of the insertion is the insertion of the lattice
    when the callback is one of the lattice's. *)
Lemma insertIfAbsent_run (E : ExprId) (c : Compute)
    (nfs : gmap nat TypeNullability) :
  insertIfAbsent E (run ignoreCFGOmittedNodes c) nfs
  = insertExprNullabilityIfAbsent ignoreCFGOmittedNodes E c nfs.
Proof. reflexivity. Qed.

Lemma Extending_ret {A : Type} (a : A) : Extending (ret a).
Proof. intros nfs a' nfs' H. now inversion H. Qed.

Lemma Extending_abort {A : Type} : Extending (@abort A).
Proof. intros nfs a nfs' H. discriminate. Qed.

Lemma Extending_bind {A B : Type} (c : Computation A)
    (k : A -> Computation B) :
  Extending c -> (forall a, Extending (k a)) -> Extending (bind c k).
Proof.
  intros Hc Hk nfs b nfs' Hrun. unfold bind in Hrun.
  destruct (c nfs) as [[a nfs1]|] eqn:Hc1; [| discriminate].
  etrans; [eapply Hc, Hc1 | eapply Hk, Hrun].
Qed.

Lemma Extending_insertIfAbsent (E : ExprId) (g : Computation TypeNullability) :
  Extending g -> Extending (insertIfAbsent E g).
Proof.
  intros Hg nfs N nfs' Hrun. unfold TypeTransfer.insertIfAbsent in Hrun.
  destruct (nfs !! ignoreCFGOmittedNodes E) eqn:Hlook.
  - now inversion Hrun.
  - destruct (g nfs) as [[N1 nfs1]|] eqn:Hg1; [| discriminate].
    destruct (nfs1 !! ignoreCFGOmittedNodes E) eqn:Hlook1; [discriminate |].
    inversion Hrun; subst. etrans; [eapply Hg, Hg1 |].
    now apply insert_subseteq.
Qed.

Lemma Extending_drop_front (N : TypeNullability) : Extending (drop_front N).
Proof. destruct N; [apply Extending_abort | apply Extending_ret]. Qed.

Lemma Extending_setFront (K : NullabilityKind) (N : TypeNullability) :
  Extending (setFront K N).
Proof. destruct N; [apply Extending_abort | apply Extending_ret]. Qed.

Lemma Extending_computeNullability (E : ExprId)
    (C : Computation TypeNullability) :
  Extending C -> Extending (computeNullability E C).
Proof.
  intros HC. unfold TypeTransfer.computeNullability.
  apply Extending_bind; [| intros; apply Extending_ret].
  apply Extending_insertIfAbsent, Extending_bind; [exact HC |].
  intros N. destruct (decide _); apply Extending_ret.
Qed.

Lemma Extending_getNullabilityForChild (E : ExprId) :
  Extending (getNullabilityForChild E).
Proof. apply Extending_insertIfAbsent, Extending_ret. Qed.

(** What [computeNullability] does, by cases on whether the expression
    already has a vector. *)
Lemma computeNullability_cases (E : ExprId) (C : Computation TypeNullability)
    (nfs nfs' : gmap nat TypeNullability) :
  computeNullability E C nfs = Some (tt, nfs') ->
  (is_Some (nfs !! ignoreCFGOmittedNodes E) /\ nfs' = nfs) \/
  (nfs !! ignoreCFGOmittedNodes E = None /\
   exists N nfs1,
     C nfs = Some (N, nfs1) /\
     nfs1 !! ignoreCFGOmittedNodes E = None /\
     nfs' = <[ignoreCFGOmittedNodes E := fitted E N]> nfs1).
Proof.
  unfold TypeTransfer.computeNullability, bind, TypeTransfer.insertIfAbsent.
  intros Hrun.
  destruct (nfs !! ignoreCFGOmittedNodes E) as [N0|] eqn:Hlook.
  - left. split; [eauto |]. now inversion Hrun.
  - right. split; [reflexivity |].
    destruct (C nfs) as [[N nfs1]|] eqn:HC; [| discriminate].
    exists N, nfs1. split; [reflexivity |].
    unfold fitted. destruct (decide (countPointersInType E = length N));
      simpl in Hrun;
      destruct (nfs1 !! ignoreCFGOmittedNodes E); try discriminate;
      inversion Hrun; auto.
Qed.

End TypeTransferFacts.

Section TypeTransferInvariants.
Import Lattice TypeTransfer.

Variable ignoreCFGOmittedNodes : ExprId -> ExprId.
Variable countPointersInType : ExprId -> nat.
Variable unspecifiedNullability : ExprId -> TypeNullability.
Variable getNullabilityAnnotationsFromType : ExprId -> TypeNullability.
Variable indexPastTheEnd :
  nat -> TypeNullability -> TypeNullability -> option TypeNullability.

Local Abbreviation key := ignoreCFGOmittedNodes.
Local Abbreviation fitted := (fitted countPointersInType).
Local Abbreviation WellSized := (WellSized countPointersInType).
Local Abbreviation Sizing := (Sizing countPointersInType).
Local Abbreviation insertIfAbsent := (insertIfAbsent ignoreCFGOmittedNodes).
Local Abbreviation computeNullability :=
  (computeNullability ignoreCFGOmittedNodes countPointersInType).
Local Abbreviation getNullabilityForChild :=
  (getNullabilityForChild ignoreCFGOmittedNodes unspecifiedNullability).
Local Abbreviation transferType_UnaryOperator :=
  (transferType_UnaryOperator ignoreCFGOmittedNodes countPointersInType
                              unspecifiedNullability).
Local Abbreviation transferType_ArraySubscriptExpr :=
  (transferType_ArraySubscriptExpr ignoreCFGOmittedNodes countPointersInType
                                   unspecifiedNullability).
Local Abbreviation transferType_MaterializeTemporaryExpr :=
  (transferType_MaterializeTemporaryExpr
     ignoreCFGOmittedNodes countPointersInType unspecifiedNullability).
Local Abbreviation transferType_CXXBindTemporaryExpr :=
  (transferType_CXXBindTemporaryExpr
     ignoreCFGOmittedNodes countPointersInType unspecifiedNullability).
Local Abbreviation transferType_MemberCallExpr :=
  (transferType_MemberCallExpr ignoreCFGOmittedNodes countPointersInType
                               unspecifiedNullability).
Local Abbreviation transferType_NewExpr :=
  (transferType_NewExpr ignoreCFGOmittedNodes countPointersInType
                        getNullabilityAnnotationsFromType).
Local Abbreviation transferType_ThisExpr :=
  (transferType_ThisExpr ignoreCFGOmittedNodes countPointersInType
                         getNullabilityAnnotationsFromType).
Local Abbreviation transferType_CastExpr :=
  (transferType_CastExpr ignoreCFGOmittedNodes countPointersInType
                         unspecifiedNullability
                         getNullabilityAnnotationsFromType indexPastTheEnd).

(** X5. Whatever its callback computes, [computeNullability] leaves the
    expression with a vector: the one it had, untouched together with
    the rest of the map, or else the computed one if that has one entry
    per pointer of the type, and that many [Unspecified] entries if it
    has not. *)
Theorem computeNullability_stores_fitted_vector
    (E : ExprId) (C : Computation TypeNullability)
    (nfs nfs' : gmap nat TypeNullability) :
  computeNullability E C nfs = Some (tt, nfs') ->
  (exists N, nfs !! key E = Some N /\ nfs' = nfs) \/
  (nfs !! key E = None /\
   exists N nfs1,
     C nfs = Some (N, nfs1) /\
     nfs' !! key E = Some (fitted E N) /\
     length (fitted E N) = countPointersInType E /\
     (length N = countPointersInType E -> fitted E N = N) /\
     (length N <> countPointersInType E ->
      fitted E N = replicate (countPointersInType E) (Concrete Unspecified))).
Proof.
  intros Hrun.
  destruct (computeNullability_cases _ _ _ _ _ _ Hrun)
    as [[[N HN] ->] | (Habsent & N & nfs1 & HC & _ & ->)].
  - left. eauto.
  - right. split; [assumption |]. exists N, nfs1.
    split; [assumption |]. split; [apply lookup_insert_eq |].
    split; [apply length_fitted |].
    unfold TypeTransfer.fitted. split; intros Hlen.
    + now rewrite decide_True by congruence.
    + now rewrite decide_False by congruence.
Qed.

(** X6. Once an expression has a vector, transferring it again is a no-op,
    whatever the callback: the type transfer is flow-insensitive. The
    first transfer itself, with a callback that only adds to the map,
    changes no vector that was stored before. *)
Theorem computeNullability_is_write_once
    (E : ExprId) (C : Computation TypeNullability)
    (nfs nfs' : gmap nat TypeNullability) :
  computeNullability E C nfs = Some (tt, nfs') ->
  (forall C', computeNullability E C' nfs' = Some (tt, nfs')) /\
  (Extending C -> nfs ⊆ nfs').
Proof.
  intros Hrun. split.
  - intros C'.
    assert (is_Some (nfs' !! key E)) as [N HN].
    { destruct (computeNullability_cases _ _ _ _ _ _ Hrun)
        as [[Hsome ->] | (_ & N & nfs1 & _ & _ & ->)]; [assumption |].
      rewrite lookup_insert_eq. eauto. }
    unfold TypeTransfer.computeNullability, bind, TypeTransfer.insertIfAbsent.
    now rewrite HN.
  - intros HC. eapply Extending_computeNullability; eassumption.
Qed.

(** [getNullabilityForChild] never aborts: it returns the vector of the
    child, storing the all-[Unspecified] one first if there is none. *)
Lemma getNullabilityForChild_run (E : ExprId)
    (nfs : gmap nat TypeNullability) :
  getNullabilityForChild E nfs
  = Some (default (unspecifiedNullability E) (nfs !! key E),
          match nfs !! key E with
          | Some _ => nfs
          | None => <[key E := unspecifiedNullability E]> nfs
          end).
Proof.
  unfold TypeTransfer.getNullabilityForChild, TypeTransfer.insertIfAbsent, ret.
  now destruct (nfs !! key E).
Qed.

(** [computeNullability] aborts exactly when the expression has no
    vector yet and its callback aborts or stores one for it. *)
Lemma computeNullability_aborts (E : ExprId)
    (C : Computation TypeNullability) (nfs : gmap nat TypeNullability) :
  computeNullability E C nfs = None <->
  nfs !! key E = None /\
  (C nfs = None \/
   exists N nfs1, C nfs = Some (N, nfs1) /\ is_Some (nfs1 !! key E)).
Proof.
  unfold TypeTransfer.computeNullability, bind, TypeTransfer.insertIfAbsent.
  destruct (nfs !! key E) as [N0|] eqn:Hlook.
  - split; [discriminate | now intros [? _]].
  - destruct (C nfs) as [[N nfs1]|] eqn:HC.
    + destruct (decide (countPointersInType E = length N)); cbn;
        (destruct (nfs1 !! key E) as [N1|] eqn:Hlook1; cbn;
         [ split; [intros _; split; [reflexivity |]; right; eauto | reflexivity]
         | split; [discriminate |];
           intros [_ [Hnone | (N' & nfs' & Heq & [N1 HN1])]];
           [discriminate | inversion Heq; subst; congruence] ]).
    + split; [auto | reflexivity].
Qed.

(** X7. The address of an expression and then the dereference of that
    address: both transfers return, the address gets [NonNull] in front
    of the vector of the expression, and the dereference gets the
    vector of the expression back. *)
Theorem deref_of_address_of_restores_vector
    (Sub UO1 UO2 : ExprId) (N : TypeNullability)
    (nfs : gmap nat TypeNullability) :
  nfs !! key Sub = Some N ->
  nfs !! key UO1 = None ->
  nfs !! key UO2 = None ->
  key UO1 <> key UO2 ->
  countPointersInType UO1 = S (length N) ->
  countPointersInType UO2 = length N ->
  exists nfs1 nfs2,
    transferType_UnaryOperator UO1 UO_AddrOf Sub nfs = Some (tt, nfs1) /\
    transferType_UnaryOperator UO2 UO_Deref UO1 nfs1 = Some (tt, nfs2) /\
    nfs2 !! key UO1 = Some (Concrete NonNull :: N) /\
    nfs2 !! key UO2 = Some N /\
    nfs2 !! key Sub = Some N.
Proof.
  intros HSub H1 H2 Hne Hc1 Hc2.
  assert (key Sub <> key UO1) as Hs1 by congruence.
  assert (key Sub <> key UO2) as Hs2 by congruence.
  exists (<[key UO1 := Concrete NonNull :: N]> nfs),
         (<[key UO2 := N]> (<[key UO1 := Concrete NonNull :: N]> nfs)).
  refine (conj _ (conj _ (conj _ (conj _ _)))).
  - unfold TypeTransfer.transferType_UnaryOperator,
      TypeTransfer.computeNullability, bind, TypeTransfer.insertIfAbsent.
    rewrite H1, getNullabilityForChild_run, HSub. cbn.
    rewrite decide_True by (cbn; congruence). cbn. now rewrite H1.
  - unfold TypeTransfer.transferType_UnaryOperator,
      TypeTransfer.computeNullability, bind, TypeTransfer.insertIfAbsent.
    rewrite lookup_insert_ne, H2 by congruence.
    rewrite getNullabilityForChild_run, lookup_insert_eq. cbn.
    rewrite decide_True by congruence. cbn.
    now rewrite lookup_insert_ne, H2 by congruence.
  - rewrite lookup_insert_ne by congruence. apply lookup_insert_eq.
  - apply lookup_insert_eq.
  - now rewrite !lookup_insert_ne by congruence.
Qed.

(** X8. When the transfer of a unary operator aborts: only if the operator
    has no vector yet, is not [co_await], and either is the same CFG
    node as its operand, or is a dereference of an operand whose vector
    is empty. *)
Theorem transferType_UnaryOperator_aborts
    (UO Sub : ExprId) (Opcode : UnaryOperatorKind)
    (nfs : gmap nat TypeNullability) :
  transferType_UnaryOperator UO Opcode Sub nfs = None <->
  nfs !! key UO = None /\ Opcode <> UO_Coawait /\
  (key UO = key Sub \/
   (Opcode = UO_Deref /\
    default (unspecifiedNullability Sub) (nfs !! key Sub) = [])).
Proof.
  unfold TypeTransfer.transferType_UnaryOperator.
  rewrite computeNullability_aborts.
  split.
  - intros [Habsent Hcb]. split; [assumption |].
    destruct Opcode; unfold bind in Hcb;
      rewrite ?getNullabilityForChild_run in Hcb;
      destruct Hcb as [Hnone | (N & nfs1 & Hrun & Hsome)];
      try discriminate;
      try (split; [discriminate |]; left;
           destruct (decide (key UO = key Sub)) as [|Hne]; [assumption |];
           exfalso; cbn in Hrun; inversion Hrun; subst;
           destruct (nfs !! key Sub);
           rewrite ?lookup_insert_ne in Hsome by congruence;
           rewrite Habsent in Hsome; now destruct Hsome).
    + split; [discriminate |]. right. split; [reflexivity |].
      destruct (default _ _); [reflexivity | discriminate].
    + split; [discriminate |].
      destruct (default (unspecifiedNullability Sub) (nfs !! key Sub))
        as [|p Tail] eqn:Hd; [right; now split |]. left.
      destruct (decide (key UO = key Sub)) as [|Hne]; [assumption |].
      exfalso. cbn in Hrun. inversion Hrun; subst.
      destruct (nfs !! key Sub);
        rewrite ?lookup_insert_ne in Hsome by congruence;
        rewrite Habsent in Hsome; now destruct Hsome.
    + exfalso. unfold ret in Hrun. inversion Hrun; subst.
      rewrite Habsent in Hsome. now destruct Hsome.
  - intros (Habsent & Hco & Hwhy). split; [assumption |].
    assert (forall f : TypeNullability -> TypeNullability,
              key UO = key Sub ->
              exists N nfs1,
                bind (getNullabilityForChild Sub) (fun N => ret (f N)) nfs
                = Some (N, nfs1) /\ is_Some (nfs1 !! key UO)) as Hself.
    { intros f Heq. unfold bind. rewrite getNullabilityForChild_run.
      rewrite <- Heq, Habsent. cbn. do 2 eexists. split; [reflexivity |].
      rewrite lookup_insert_eq. eauto. }
    assert (key UO = key Sub ->
            exists N nfs1,
              getNullabilityForChild Sub nfs = Some (N, nfs1) /\
              is_Some (nfs1 !! key UO)) as Hself'.
    { intros Heq. rewrite getNullabilityForChild_run.
      rewrite <- Heq, Habsent. cbn. do 2 eexists. split; [reflexivity |].
      rewrite lookup_insert_eq. eauto. }
    destruct Opcode; try contradiction;
      try (destruct Hwhy as [Heq | [Hop _]];
           [right; now apply Hself' | discriminate]).
    + destruct Hwhy as [Heq | [Hop _]]; [| discriminate].
      right. exact (Hself (prepend NonNull) Heq).
    + unfold bind. rewrite getNullabilityForChild_run.
      destruct Hwhy as [Heq | [_ Hempty]].
      * destruct (default (unspecifiedNullability Sub) (nfs !! key Sub))
          as [|p Tail] eqn:Hd; [now left |].
        right. cbn. do 2 eexists. split; [reflexivity |].
        rewrite <- Heq, Habsent, lookup_insert_eq. eauto.
      * rewrite Hempty. now left.
Qed.

Lemma child_then_pure_aborts (E Sub : ExprId)
    (f : TypeNullability -> TypeNullability)
    (nfs : gmap nat TypeNullability) :
  computeNullability E
    (bind (getNullabilityForChild Sub) (fun N => ret (f N))) nfs = None <->
  nfs !! key E = None /\ key E = key Sub.
Proof.
  rewrite computeNullability_aborts. unfold bind, ret.
  rewrite getNullabilityForChild_run.
  split.
  - intros [Habsent [Hnone | (N & nfs1 & Hrun & Hsome)]]; [discriminate |].
    split; [assumption |].
    destruct (decide (key E = key Sub)) as [|Hne]; [assumption |].
    exfalso. inversion Hrun; subst.
    destruct (nfs !! key Sub);
      rewrite ?lookup_insert_ne in Hsome by congruence;
      rewrite Habsent in Hsome; now destruct Hsome.
  - intros [Habsent Heq]. split; [assumption |]. right.
    rewrite <- Heq, Habsent. do 2 eexists. split; [reflexivity |].
    rewrite lookup_insert_eq. eauto.
Qed.

Lemma child_aborts (E Sub : ExprId) (nfs : gmap nat TypeNullability) :
  computeNullability E (getNullabilityForChild Sub) nfs = None <->
  nfs !! key E = None /\ key E = key Sub.
Proof.
  rewrite <- (child_then_pure_aborts E Sub (fun N => N)).
  unfold TypeTransfer.computeNullability, bind, TypeTransfer.insertIfAbsent.
  destruct (nfs !! key E); [reflexivity |].
  now destruct (getNullabilityForChild Sub nfs) as [[N nfs1]|].
Qed.

(** X9. The transfers that take the vector of a child as it is, or a prefix
    of it, abort in one case only: the expression has no vector yet and
    is the same CFG node as the child. The transfers of [new] and [this]
    abort only if the expression has no vector yet and its type has no
    annotation slot to overwrite. *)
Theorem type_transfer_aborts_only_on_broken_input
    (E Sub : ExprId) (Checked : bool) (nfs : gmap nat TypeNullability) :
  (transferType_MaterializeTemporaryExpr E Sub nfs = None <->
   nfs !! key E = None /\ key E = key Sub) /\
  (transferType_CXXBindTemporaryExpr E Sub nfs = None <->
   nfs !! key E = None /\ key E = key Sub) /\
  (transferType_MemberCallExpr E Sub nfs = None <->
   nfs !! key E = None /\ key E = key Sub) /\
  (transferType_NewExpr E Checked nfs = None <->
   nfs !! key E = None /\ getNullabilityAnnotationsFromType E = []) /\
  (transferType_ThisExpr E nfs = None <->
   nfs !! key E = None /\ getNullabilityAnnotationsFromType E = []).
Proof.
  assert (forall K,
            computeNullability E
              (setFront K (getNullabilityAnnotationsFromType E)) nfs = None <->
            nfs !! key E = None /\ getNullabilityAnnotationsFromType E = [])
    as Hfront.
  { intros K. rewrite computeNullability_aborts.
    destruct (getNullabilityAnnotationsFromType E) as [|p Tail]; cbn.
    - split; [now intros [? _] | intros [? _]; split; auto].
    - split; [| now intros [_ ?]].
      intros [Habsent [Hnone | (N & nfs1 & Hrun & Hsome)]]; [discriminate |].
      unfold ret in Hrun. inversion Hrun; subst.
      rewrite Habsent in Hsome. now destruct Hsome. }
  refine (conj _ (conj _ (conj _ (conj _ _)))).
  - apply child_aborts.
  - apply child_aborts.
  - apply (child_then_pure_aborts E Sub (take (countPointersInType E))).
  - apply Hfront.
  - apply Hfront.
Qed.

Lemma copyTopLevelPointers_spec (n : nat) :
  forall (V Arg R : TypeNullability),
    copyTopLevelPointers n V Arg = Some R <->
    n <= length V /\ n <= length Arg /\ R = take n Arg ++ drop n V.
Proof.
  induction n as [|n IH]; intros V Arg R; simpl.
  - rewrite ?take_0, ?drop_0. simpl. split.
    + intros [= <-]. repeat split; lia.
    + now intros (_ & _ & ->).
  - destruct V as [|p V]; [split; [discriminate | simpl; lia] |].
    destruct Arg as [|a Arg]; [split; [discriminate | simpl; lia] |].
    simpl. destruct (copyTopLevelPointers n V Arg) as [R'|] eqn:Hrec.
    + apply IH in Hrec as (HV & HA & ->). split.
      * intros [= <-]. repeat split; lia.
      * now intros (_ & _ & ->).
    + split; [discriminate |]. intros (HV & HA & _). exfalso.
      assert (copyTopLevelPointers n V Arg = Some (take n Arg ++ drop n V))
        as Hsome by (apply IH; repeat split; lia).
      congruence.
Qed.

(** X10. A cast between unrelated or base and derived types keeps the
    nullability of the pointers both types start with: when neither
    vector is shorter than the number of pointers to copy, the transfer
    returns, and the vector stored for the cast starts with that many
    entries of the operand and goes on with the entries of the
    all-[Unspecified] vector of the cast. With a shorter vector the loop
    indexes past its end, and nothing is stated. *)
Theorem cast_preserves_top_level_pointers
    (CE Sub : ExprId) (Kind : CastKind) (ArgPointers CastPointers : nat)
    (CastIsNullPtrType : bool) (nfs : gmap nat TypeNullability) :
  In Kind [CK_LValueBitCast; CK_BitCast; CK_LValueToRValueBitCast;
           CK_BaseToDerived; CK_DerivedToBase; CK_UncheckedDerivedToBase] ->
  nfs !! key CE = None ->
  key CE <> key Sub ->
  length (unspecifiedNullability CE) = countPointersInType CE ->
  let ArgNullability :=
    default (unspecifiedNullability Sub) (nfs !! key Sub) in
  let n := Nat.min ArgPointers CastPointers in
  n <= length (unspecifiedNullability CE) ->
  n <= length ArgNullability ->
  exists nfs',
    transferType_CastExpr CE Kind Sub ArgPointers CastPointers
                          CastIsNullPtrType nfs = Some (tt, nfs') /\
    nfs' !! key CE
    = Some (take n ArgNullability ++ drop n (unspecifiedNullability CE)) /\
    nfs' !! key Sub = Some ArgNullability.
Proof.
  intros HKind Habsent Hne Hlen ArgNullability n HV HA.
  assert (transferType_CastExpr CE Kind Sub ArgPointers CastPointers
                                CastIsNullPtrType
          = computeNullability CE
              (PreserveTopLevelPointers ignoreCFGOmittedNodes
                 unspecifiedNullability indexPastTheEnd
                 Sub ArgPointers CastPointers
                 (unspecifiedNullability CE))) as ->.
  { simpl in HKind.
    destruct HKind as [<- | [<- | [<- | [<- | [<- | [<- | []]]]]]];
      reflexivity. }
  unfold TypeTransfer.computeNullability, TypeTransfer.PreserveTopLevelPointers,
    bind, TypeTransfer.insertIfAbsent.
  rewrite Habsent, getNullabilityForChild_run.
  fold ArgNullability. fold n.
  assert (match nfs !! key Sub with
          | Some _ => nfs
          | None => <[key Sub := unspecifiedNullability Sub]> nfs
          end !! key CE = None) as Hstill.
  { destruct (nfs !! key Sub); [assumption |].
    now rewrite lookup_insert_ne by congruence. }
  assert (match nfs !! key Sub with
          | Some _ => nfs
          | None => <[key Sub := unspecifiedNullability Sub]> nfs
          end !! key Sub = Some ArgNullability) as Hsub.
  { subst ArgNullability. destruct (nfs !! key Sub) eqn:Hs; simpl;
      [assumption | apply lookup_insert_eq]. }
  assert (copyTopLevelPointers n (unspecifiedNullability CE) ArgNullability
          = Some (take n ArgNullability
                  ++ drop n (unspecifiedNullability CE))) as ->
    by (apply copyTopLevelPointers_spec; repeat split; assumption).
  cbn.
  rewrite decide_True
    by (rewrite length_app, length_take, length_drop; lia).
  cbn. rewrite Hstill. eexists. split; [reflexivity |].
  split; [apply lookup_insert_eq |].
  now rewrite lookup_insert_ne by congruence.
Qed.

Lemma computeNullability_fresh (E : ExprId)
    (C : Computation TypeNullability)
    (nfs nfs1 : gmap nat TypeNullability) (N : TypeNullability) :
  nfs !! key E = None ->
  C nfs = Some (N, nfs1) ->
  nfs1 !! key E = None ->
  computeNullability E C nfs = Some (tt, <[key E := fitted E N]> nfs1).
Proof.
  intros Habsent HC Hstill.
  unfold TypeTransfer.computeNullability, bind, TypeTransfer.insertIfAbsent,
    TypeTransfer.fitted.
  rewrite Habsent, HC.
  destruct (decide (countPointersInType E = length N)); cbn;
    now rewrite Hstill.
Qed.

(** X11. The casts that fix the nullability of the outermost pointer: a null
    pointer converted to a pointer type and a [dynamic_cast] to a
    pointer are [Nullable], a decayed array or function is [NonNull] in
    front of the vector of the operand; and a cast to a primitive value
    has no nullability of its own, so it gets the all-[Unspecified]
    vector of its type, which is empty if the type has no pointer. *)
Theorem cast_fixes_outer_nullability
    (CE Sub : ExprId) (ArgPointers CastPointers : nat)
    (CastIsNullPtrType : bool) (nfs : gmap nat TypeNullability) :
  nfs !! key CE = None ->
  key CE <> key Sub ->
  (CastIsNullPtrType = false ->
   0 < countPointersInType CE ->
   length (getNullabilityAnnotationsFromType CE) = countPointersInType CE ->
   exists nfs',
     transferType_CastExpr CE CK_NullToPointer Sub ArgPointers CastPointers
                           CastIsNullPtrType nfs = Some (tt, nfs') /\
     nfs' !! key CE
     = Some (Concrete Nullable
             :: tail (getNullabilityAnnotationsFromType CE))) /\
  (0 < CastPointers ->
   0 < countPointersInType CE ->
   length (unspecifiedNullability CE) = countPointersInType CE ->
   exists nfs',
     transferType_CastExpr CE CK_Dynamic Sub ArgPointers CastPointers
                           CastIsNullPtrType nfs = Some (tt, nfs') /\
     nfs' !! key CE
     = Some (Concrete Nullable :: tail (unspecifiedNullability CE))) /\
  (forall Kind,
     Kind = CK_ArrayToPointerDecay \/ Kind = CK_FunctionToPointerDecay ->
     countPointersInType CE
     = S (length (default (unspecifiedNullability Sub) (nfs !! key Sub))) ->
     exists nfs',
       transferType_CastExpr CE Kind Sub ArgPointers CastPointers
                             CastIsNullPtrType nfs = Some (tt, nfs') /\
       nfs' !! key CE
       = Some (Concrete NonNull
               :: default (unspecifiedNullability Sub) (nfs !! key Sub))) /\
  (forall Kind,
     In Kind [CK_ToVoid; CK_MemberPointerToBoolean; CK_PointerToBoolean;
              CK_PointerToIntegral; CK_IntegralCast; CK_IntegralToBoolean;
              CK_IntegralToFloating; CK_FloatingToFixedPoint;
              CK_FixedPointToFloating; CK_FixedPointCast;
              CK_FixedPointToIntegral; CK_IntegralToFixedPoint;
              CK_FixedPointToBoolean; CK_FloatingToIntegral;
              CK_FloatingToBoolean; CK_BooleanToSignedIntegral;
              CK_FloatingCast; CK_FloatingRealToComplex;
              CK_FloatingComplexToReal; CK_FloatingComplexToBoolean;
              CK_FloatingComplexCast; CK_FloatingComplexToIntegralComplex;
              CK_IntegralRealToComplex; CK_IntegralComplexToReal;
              CK_IntegralComplexToBoolean; CK_IntegralComplexCast;
              CK_IntegralComplexToFloatingComplex] ->
     exists nfs',
       transferType_CastExpr CE Kind Sub ArgPointers CastPointers
                             CastIsNullPtrType nfs = Some (tt, nfs') /\
       nfs' !! key CE
       = Some (replicate (countPointersInType CE) (Concrete Unspecified))).
Proof.
  intros Habsent Hne.
  assert (forall X, length X = countPointersInType CE -> fitted CE X = X)
    as Hfit.
  { intros X HX. unfold TypeTransfer.fitted.
    now rewrite decide_True by congruence. }
  refine (conj _ (conj _ (conj _ _))).
  - intros -> Hpos Hlen.
    destruct (getNullabilityAnnotationsFromType CE) as [|p Tail] eqn:Hann;
      [simpl in Hlen; lia |].
    eexists. split.
    + unfold TypeTransfer.transferType_CastExpr.
      apply computeNullability_fresh; [assumption | | eassumption].
      rewrite Hann. reflexivity.
    + rewrite lookup_insert_eq, Hfit by exact Hlen. reflexivity.
  - intros Hcast Hpos Hlen. apply Nat.ltb_lt in Hcast.
    destruct (unspecifiedNullability CE) as [|p Tail] eqn:Hunspec;
      [simpl in Hlen; lia |].
    eexists. split.
    + unfold TypeTransfer.transferType_CastExpr.
      apply computeNullability_fresh; [assumption | | eassumption].
      rewrite Hcast, Hunspec. reflexivity.
    + rewrite lookup_insert_eq, Hfit by exact Hlen. reflexivity.
  - intros Kind HKind Hlen.
    eexists. split.
    + assert (transferType_CastExpr CE Kind Sub ArgPointers CastPointers
                                    CastIsNullPtrType
              = computeNullability CE
                  (bind (getNullabilityForChild Sub)
                        (fun N => ret (prepend NonNull N)))) as ->
        by (destruct HKind as [-> | ->]; reflexivity).
      apply computeNullability_fresh; [assumption | |].
      * unfold bind, ret. rewrite getNullabilityForChild_run. reflexivity.
      * destruct (nfs !! key Sub);
          rewrite ?lookup_insert_ne by congruence; assumption.
    + rewrite lookup_insert_eq, Hfit; [reflexivity |].
      unfold prepend. simpl. now rewrite Hlen.
  - intros Kind HKind.
    eexists. split.
    + assert (transferType_CastExpr CE Kind Sub ArgPointers CastPointers
                                    CastIsNullPtrType
              = computeNullability CE (ret [])) as ->.
      { simpl in HKind.
        repeat (destruct HKind as [<- | HKind]; [reflexivity |]).
        destruct HKind. }
      apply computeNullability_fresh; [assumption | reflexivity | assumption].
    + rewrite lookup_insert_eq. unfold TypeTransfer.fitted.
      destruct (decide (countPointersInType CE
                        = length (@nil PointerTypeNullability)))
        as [Hz | Hz]; [| reflexivity].
      simpl in Hz. now rewrite Hz.
Qed.

Lemma Sizing_ret {A : Type} (a : A) : Sizing (ret a).
Proof. intros nfs a' nfs' Hw H. now inversion H; subst. Qed.

Lemma Sizing_abort {A : Type} : Sizing (@abort A).
Proof. intros nfs a nfs' _ H. discriminate. Qed.

Lemma Sizing_bind {A B : Type} (c : Computation A) (k : A -> Computation B) :
  Sizing c -> (forall a, Sizing (k a)) -> Sizing (bind c k).
Proof.
  intros Hc Hk nfs b nfs' Hw Hrun. unfold bind in Hrun.
  destruct (c nfs) as [[a nfs1]|] eqn:Hc1; [| discriminate].
  eapply Hk; [eapply Hc; eassumption | eassumption].
Qed.

Lemma Sizing_drop_front (N : TypeNullability) : Sizing (drop_front N).
Proof. destruct N; [apply Sizing_abort | apply Sizing_ret]. Qed.

Lemma Sizing_setFront (K : NullabilityKind) (N : TypeNullability) :
  Sizing (setFront K N).
Proof. destruct N; [apply Sizing_abort | apply Sizing_ret]. Qed.

Hypothesis count_ignore :
  forall E, countPointersInType (key E) = countPointersInType E.
Hypothesis length_unspecified :
  forall E, length (unspecifiedNullability E) = countPointersInType E.

Lemma WellSized_insert (E : ExprId) (N : TypeNullability)
    (nfs : gmap nat TypeNullability) :
  WellSized nfs -> length N = countPointersInType E ->
  WellSized (<[key E := N]> nfs).
Proof.
  intros Hw Hlen k N' Hlook.
  destruct (decide (key E = k)) as [<- | Hne].
  - rewrite lookup_insert_eq in Hlook. inversion Hlook; subst.
    now rewrite count_ignore.
  - rewrite lookup_insert_ne in Hlook by assumption. now apply Hw.
Qed.

Lemma Sizing_computeNullability (E : ExprId)
    (C : Computation TypeNullability) :
  Sizing C -> Sizing (computeNullability E C).
Proof.
  intros HC nfs [] nfs' Hw Hrun.
  destruct (computeNullability_cases _ _ _ _ _ _ Hrun)
    as [[_ ->] | (_ & N & nfs1 & HC1 & _ & ->)]; [assumption |].
  apply WellSized_insert; [eapply HC; eassumption | apply length_fitted].
Qed.

Lemma Sizing_getNullabilityForChild (E : ExprId) :
  Sizing (getNullabilityForChild E).
Proof.
  intros nfs N nfs' Hw Hrun.
  unfold TypeTransfer.getNullabilityForChild, TypeTransfer.insertIfAbsent,
    ret in Hrun.
  destruct (nfs !! key E) eqn:Hlook; [now inversion Hrun; subst |].
  inversion Hrun; subst.
  now apply WellSized_insert.
Qed.

Lemma Sizing_child_then (E Sub : ExprId)
    (k : TypeNullability -> Computation TypeNullability) :
  (forall N, Sizing (k N)) ->
  Sizing (computeNullability E (bind (getNullabilityForChild Sub) k)).
Proof.
  intros Hk. apply Sizing_computeNullability, Sizing_bind;
    [apply Sizing_getNullabilityForChild | exact Hk].
Qed.

(** X12. Every vector the modelled type transfers store has one entry per
    pointer of the type of its expression, provided that was so before,
    that an expression and the CFG node standing for it have the same
    type, and that the all-[Unspecified] vector of an expression has one
    entry per pointer. *)
Theorem type_transfer_keeps_vectors_sized
    (nfs nfs' : gmap nat TypeNullability) :
  WellSized nfs ->
  (exists UO Opcode Sub,
     transferType_UnaryOperator UO Opcode Sub nfs = Some (tt, nfs')) \/
  (exists ASE Base IsPtr IsVec,
     transferType_ArraySubscriptExpr ASE Base IsPtr IsVec nfs
     = Some (tt, nfs')) \/
  (exists MTE Sub,
     transferType_MaterializeTemporaryExpr MTE Sub nfs = Some (tt, nfs')) \/
  (exists BTE Sub,
     transferType_CXXBindTemporaryExpr BTE Sub nfs = Some (tt, nfs')) \/
  (exists MCE Callee,
     transferType_MemberCallExpr MCE Callee nfs = Some (tt, nfs')) \/
  (exists NE Checked, transferType_NewExpr NE Checked nfs = Some (tt, nfs')) \/
  (exists TE, transferType_ThisExpr TE nfs = Some (tt, nfs')) \/
  (exists CE Kind Sub ArgPointers CastPointers CastIsNullPtrType,
     transferType_CastExpr CE Kind Sub ArgPointers CastPointers
                           CastIsNullPtrType nfs = Some (tt, nfs')) ->
  WellSized nfs'.
Proof.
  intros Hw Hstep.
  destruct Hstep as
    [(UO & Opcode & Sub & Hrun) |
     [(ASE & Base & IsPtr & IsVec & Hrun) |
      [(MTE & Sub & Hrun) |
       [(BTE & Sub & Hrun) |
        [(MCE & Callee & Hrun) |
         [(NE & Checked & Hrun) |
          [(TE & Hrun) |
           (CE & Kind & Sub & ArgP & CastP & IsNull & Hrun)]]]]]]];
    revert Hrun; refine (_ nfs tt nfs' Hw); fold WellSized.
  - unfold TypeTransfer.transferType_UnaryOperator.
    apply Sizing_computeNullability.
    destruct Opcode;
      try apply Sizing_getNullabilityForChild;
      try apply Sizing_ret;
      (apply Sizing_bind; [apply Sizing_getNullabilityForChild |]);
      intros N; [apply Sizing_ret | apply Sizing_drop_front].
  - apply Sizing_child_then. intros N.
    destruct (negb _); [apply Sizing_abort |].
    destruct IsPtr; [apply Sizing_drop_front | apply Sizing_ret].
  - apply Sizing_computeNullability, Sizing_getNullabilityForChild.
  - apply Sizing_computeNullability, Sizing_getNullabilityForChild.
  - apply Sizing_child_then. intros N. apply Sizing_ret.
  - apply Sizing_computeNullability, Sizing_setFront.
  - apply Sizing_computeNullability, Sizing_setFront.
  - unfold TypeTransfer.transferType_CastExpr.
    apply Sizing_computeNullability.
    destruct Kind;
      first
        [ apply Sizing_getNullabilityForChild
        | apply Sizing_ret
        | apply Sizing_abort
        | apply Sizing_bind;
          [ apply Sizing_getNullabilityForChild
          | intros N; cbv zeta;
            first [ apply Sizing_ret
                  | destruct (copyTopLevelPointers _ _ _);
                    [ apply Sizing_ret
                    | destruct (indexPastTheEnd _ _ _);
                      [apply Sizing_ret | apply Sizing_abort] ] ] ]
        | destruct (Nat.ltb 0 CastP);
          [apply Sizing_setFront | apply Sizing_ret]
        | destruct (negb IsNull);
          [apply Sizing_setFront | apply Sizing_ret] ].
Qed.

End TypeTransferInvariants.

Lemma deref_of_address_of_restores_vector_witness :
  exists nfs1 nfs2,
    TypeTransfer.transferType_UnaryOperator
      (fun E => E) (fun E => E)
      (fun E => replicate E (Concrete Unspecified))
      2 TypeTransfer.UO_AddrOf 0 {[0 := [Concrete Nullable]]}
    = Some (tt, nfs1) /\
    TypeTransfer.transferType_UnaryOperator
      (fun E => E) (fun E => E)
      (fun E => replicate E (Concrete Unspecified))
      1 TypeTransfer.UO_Deref 2 nfs1
    = Some (tt, nfs2) /\
    nfs2 !! 2 = Some [Concrete NonNull; Concrete Nullable] /\
    nfs2 !! 1 = Some [Concrete Nullable] /\
    nfs2 !! 0 = Some [Concrete Nullable].
Proof.
  apply (deref_of_address_of_restores_vector
           (fun E => E) (fun E => E)
           (fun E => replicate E (Concrete Unspecified))
           0 2 1 [Concrete Nullable] {[0 := [Concrete Nullable]]}).
  - reflexivity.
  - reflexivity.
  - reflexivity.
  - discriminate.
  - reflexivity.
  - reflexivity.
Defined.

Lemma type_transfer_keeps_vectors_sized_witness :
  TypeTransfer.WellSized (fun E => E)
    (<[2 := [Concrete NonNull; Concrete Nullable]]>
       {[1 := [Concrete Nullable]]}).
Proof.
  apply (type_transfer_keeps_vectors_sized
           (fun E => E) (fun E => E)
           (fun E => replicate E (Concrete Unspecified))
           (fun E => replicate E (Concrete Unspecified))
           (fun _ _ _ => None)
           (fun E => eq_refl)
           (fun E => length_replicate E (Concrete Unspecified))
           {[1 := [Concrete Nullable]]}).
  - intros k N Hlook. apply lookup_singleton_Some in Hlook as [<- <-].
    reflexivity.
  - left. exists 2, TypeTransfer.UO_AddrOf, 1. vm_compute. reflexivity.
Defined.

(** ** What the diagnoser reports, and for which element *)

Section DiagnosisShapeFacts.
Import Solver Diagnosis.

Context `{API : TypeNullabilityAPI}.
Variable ignoreCFGOmittedNodes : ExprId -> ExprId.

Local Abbreviation pointerNullabilityDiagnoser :=
  (pointerNullabilityDiagnoser ignoreCFGOmittedNodes).
Local Abbreviation diagnoseCallExpr :=
  (diagnoseCallExpr ignoreCFGOmittedNodes).

(** The pointer counts of the first [J] parameter types: where the
    nullability of parameter [J] starts in the vector of the
    parameters. *)
Local Abbreviation offset ParamTypes J :=
  (sum_list (map countPointersInType (take J ParamTypes))).

Lemma diagnoseAssignmentLike_cases (LHSType : QualType)
    (N : TypeNullability) (RHS : Expr) (Env : Environment)
    (DiagCtx : Context) (ParamName : option string)
    (Ds : list PointerNullabilityDiagnostic) :
  diagnoseAssignmentLike LHSType N RHS Env DiagCtx ParamName = Some Ds ->
  (Ds = [] /\
   (isSupportedPointerType (getNonReferenceType LHSType) = false \/
    exists front, head N = Some front /\ concrete front <> NonNull)) \/
  (isSupportedPointerType (getNonReferenceType LHSType) = true /\
   (exists front, head N = Some front /\ concrete front = NonNull) /\
   Ds = diagnoseNonnullExpected RHS Env DiagCtx ParamName).
Proof.
  unfold diagnoseAssignmentLike. intros Hrun.
  destruct (isSupportedPointerType (getNonReferenceType LHSType)); simpl in Hrun.
  - destruct N as [|front rest]; [discriminate |].
    destruct (decide (concrete front = NonNull)) as [Hnn | Hnn];
      inversion Hrun; subst.
    + right. split; [reflexivity |]. split; [| reflexivity]. now exists front.
    + left. split; [reflexivity |]. right. now exists front.
  - inversion Hrun; subst. left. split; [reflexivity |]. now left.
Qed.

Lemma head_take {A : Type} (n : nat) (l : list A) (a : A) :
  head (take n l) = Some a -> head l = Some a.
Proof. destruct n, l; simpl; congruence. Qed.

Lemma diagnoseArguments_spec (Args : list Expr) :
  forall (I : nat) (ParamTypes : list QualType)
         (ParamsNullability : TypeNullability) (ParmDecls : list string)
         (Env : Environment) (Ds : list PointerNullabilityDiagnostic),
    diagnoseArguments I ParamTypes ParamsNullability ParmDecls Args Env
    = Some Ds ->
    forall D,
      In D Ds <->
      exists J ParamTy Arg front,
        ParamTypes !! J = Some ParamTy /\ Args !! J = Some Arg /\
        isSupportedPointerType (getNonReferenceType ParamTy) = true /\
        head (drop (offset ParamTypes J) ParamsNullability) = Some front /\
        concrete front = NonNull /\
        In D (diagnoseNonnullExpected Arg Env FunctionArgument
                (Some (default "" (ParmDecls !! (I + J))))).
Proof.
  induction Args as [|Arg Args IH]; intros I PT PN PD Env Ds Hrun D.
  - assert (Ds = []) as -> by (destruct PT; simpl in Hrun; congruence).
    simpl. split; [intros [] |].
    intros (J & ParamTy & A & front & _ & HA & _). now destruct J.
  - destruct PT as [|ParamTy PT]; [discriminate |].
    cbn [diagnoseArguments] in Hrun.
    destruct (decide (length PN < countPointersInType ParamTy));
      [discriminate |].
    destruct (diagnoseAssignmentLike ParamTy
                (take (countPointersInType ParamTy) PN) Arg Env
                FunctionArgument (Some (default "" (PD !! I))))
      as [D0|] eqn:Hfirst; [| discriminate].
    destruct (diagnoseArguments (S I) PT
                (drop (countPointersInType ParamTy) PN) PD Args Env)
      as [Ds'|] eqn:Hrest; [| discriminate].
    inversion Hrun; subst Ds. clear Hrun.
    specialize (IH _ _ _ _ _ _ Hrest D).
    rewrite in_app_iff, IH. clear IH.
    apply diagnoseAssignmentLike_cases in Hfirst.
    split.
    + intros [Hin | (J & PTy & A & front & HPT & HA & Hsup & Hhead & Hnn & Hin)].
      * destruct Hfirst as [[-> _] | (Hsup & (front & Hhead & Hnn) & ->)];
          [destruct Hin |].
        exists 0, ParamTy, Arg, front. rewrite Nat.add_0_r.
        repeat split; try assumption; try reflexivity.
        simpl. now apply head_take in Hhead.
      * exists (S J), PTy, A, front. rewrite Nat.add_succ_r.
        repeat split; try assumption.
        cbn [take map sum_list sum_list_with]. now rewrite <- drop_drop.
    + intros (J & PTy & A & front & HPT & HA & Hsup & Hhead & Hnn & Hin).
      destruct J as [|J].
      * left. simpl in HPT, HA, Hhead. inversion HPT; inversion HA; subst.
        rewrite Nat.add_0_r in Hin.
        destruct Hfirst as [[_ [Hno | (f & Hf & Hc)]] | (_ & _ & ->)];
          [congruence | | assumption].
        apply head_take in Hf. rewrite drop_0 in Hhead. congruence.
      * right. exists J, PTy, A, front. rewrite Nat.add_succ_r in Hin.
        repeat split; try assumption.
        cbn [take map sum_list sum_list_with] in Hhead.
        now rewrite <- drop_drop in Hhead.
Qed.

Lemma diagnoseArguments_returns (Args : list Expr) :
  forall (I : nat) (ParamTypes : list QualType)
         (ParamsNullability : TypeNullability) (ParmDecls : list string)
         (Env : Environment),
    length ParamTypes = length Args ->
    is_Some (diagnoseArguments I ParamTypes ParamsNullability ParmDecls
                               Args Env) ->
    sum_list (map countPointersInType ParamTypes) <= length ParamsNullability.
Proof.
  induction Args as [|Arg Args IH]; intros I PT PN PD Env Hlen [Ds Hrun].
  - destruct PT; [simpl; lia | discriminate].
  - destruct PT as [|ParamTy PT]; [discriminate |].
    cbn [diagnoseArguments] in Hrun.
    destruct (decide (length PN < countPointersInType ParamTy));
      [discriminate |].
    destruct (diagnoseAssignmentLike _ _ _ _ _ _); [| discriminate].
    destruct (diagnoseArguments (S I) PT
                (drop (countPointersInType ParamTy) PN) PD Args Env)
      as [Ds'|] eqn:Hrest; [| discriminate].
    assert (sum_list (map countPointersInType PT)
            <= length (drop (countPointersInType ParamTy) PN)) as Hle.
    { eapply IH; [simpl in Hlen; lia | rewrite Hrest; eauto]. }
    rewrite length_drop in Hle. simpl. lia.
Qed.

Lemma diagnoseArgumentCompatibility_Ctx
    (ParamTypes : list QualType) (isVariadic : bool)
    (ParamsNullability : TypeNullability) (ParmDecls : list string)
    (Args : list Expr) (Env : Environment)
    (Ds : list PointerNullabilityDiagnostic) :
  diagnoseArgumentCompatibility ParamTypes isVariadic ParamsNullability
                                ParmDecls Args Env = Some Ds ->
  forall D, In D Ds -> Ctx D = FunctionArgument.
Proof.
  unfold diagnoseArgumentCompatibility. intros Hrun D Hin.
  destruct (isVariadic && negb (Nat.leb (length ParamTypes) (length Args)));
    [discriminate |].
  destruct (negb (Nat.eqb (length ParamTypes) _)); [discriminate |].
  apply (diagnoseArguments_spec _ _ _ _ _ _ _ Hrun) in Hin
    as (J & PTy & A & front & _ & _ & _ & _ & _ & Hin).
  now apply diagnoseNonnullExpected_Ctx in Hin.
Qed.

(** X13. The diagnostics of the arguments of a call, exactly: a diagnostic is
    reported if and only if it is one of a declared parameter [J] whose
    type is a supported pointer, whose nullability, read from the vector
    of the parameters after the pointers of the parameters before it,
    is [NonNull], and the check of argument [J] against [NonNull]
    reports it, naming parameter [J]. *)
Theorem argument_diagnostics_characterised
    (ParamTypes : list QualType) (isVariadic : bool)
    (ParamsNullability : TypeNullability) (ParmDecls : list string)
    (Args : list Expr) (Env : Environment)
    (Ds : list PointerNullabilityDiagnostic) :
  diagnoseArgumentCompatibility ParamTypes isVariadic ParamsNullability
                                ParmDecls Args Env = Some Ds ->
  forall D,
    In D Ds <->
    exists J ParamTy Arg front,
      ParamTypes !! J = Some ParamTy /\ Args !! J = Some Arg /\
      isSupportedPointerType (getNonReferenceType ParamTy) = true /\
      head (drop (offset ParamTypes J) ParamsNullability) = Some front /\
      concrete front = NonNull /\
      In D (diagnoseNonnullExpected Arg Env FunctionArgument
              (Some (default "" (ParmDecls !! J)))).
Proof.
  unfold diagnoseArgumentCompatibility. intros Hrun D.
  destruct (isVariadic && negb (Nat.leb (length ParamTypes) (length Args)));
    [discriminate |].
  destruct (negb (Nat.eqb (length ParamTypes) _)); [discriminate |].
  rewrite (diagnoseArguments_spec _ _ _ _ _ _ _ Hrun D).
  destruct isVariadic; [| reflexivity].
  split; intros (J & PTy & A & front & HPT & HA & Hrest);
    exists J, PTy, A, front; (split; [assumption |]); (split; [| assumption]).
  - now apply lookup_take_Some in HA as [HA _].
  - apply lookup_take_Some. split; [assumption |].
    now apply lookup_lt_Some in HPT.
Qed.

(** X14. Arguments passed for the ellipsis of a variadic callee are not
    looked at: the call is diagnosed as the call of a non-variadic
    callee with the arguments of the declared parameters only. *)
Theorem variadic_arguments_are_unchecked
    (ParamTypes : list QualType) (ParamsNullability : TypeNullability)
    (ParmDecls : list string) (Args Extra : list Expr) (Env : Environment) :
  length Args = length ParamTypes ->
  diagnoseArgumentCompatibility ParamTypes true ParamsNullability ParmDecls
                                (Args ++ Extra) Env
  = diagnoseArgumentCompatibility ParamTypes false ParamsNullability ParmDecls
                                  Args Env.
Proof.
  intros Hlen. unfold diagnoseArgumentCompatibility.
  rewrite length_app, <- Hlen, take_app_length.
  replace (Nat.leb (length Args) (length Args + length Extra)) with true
    by (symmetry; apply Nat.leb_le; lia).
  reflexivity.
Qed.

(** X15. What a call must satisfy for its arguments to be diagnosed at all:
    as many arguments as declared parameters, or at least as many for a
    variadic callee, and a nullability vector with an entry for every
    pointer of the parameter types. Otherwise the function aborts. *)
Theorem argument_diagnosis_preconditions
    (ParamTypes : list QualType) (isVariadic : bool)
    (ParamsNullability : TypeNullability) (ParmDecls : list string)
    (Args : list Expr) (Env : Environment) :
  is_Some (diagnoseArgumentCompatibility ParamTypes isVariadic
             ParamsNullability ParmDecls Args Env) ->
  (if isVariadic then length ParamTypes <= length Args
   else length ParamTypes = length Args) /\
  sum_list (map countPointersInType ParamTypes) <= length ParamsNullability.
Proof.
  unfold diagnoseArgumentCompatibility. intros Hsome.
  destruct (isVariadic && negb (Nat.leb (length ParamTypes) (length Args)))
    eqn:Hvar; [now destruct Hsome |].
  destruct (Nat.eqb_spec (length ParamTypes)
              (length (if isVariadic then take (length ParamTypes) Args
                       else Args))) as [Hlen | Hlen];
    simpl in Hsome; [| now destruct Hsome].
  split.
  - destruct isVariadic; [| assumption].
    simpl in Hvar. apply negb_false_iff, Nat.leb_le in Hvar. exact Hvar.
  - eapply diagnoseArguments_returns; eassumption.
Qed.

Lemma string_eqb_true (a b : string) : String.eqb a b = true -> a = b.
Proof. apply String.eqb_eq. Qed.

Lemma isSmartPointerOperatorCall_DereferenceLike (Name : string) (E : Expr)
    (State : TransferState) (Ds : list PointerNullabilityDiagnostic) :
  Name = "*" \/ Name = "[]" \/ Name = "->" ->
  isSmartPointerOperatorCall Name E = true ->
  diagnoseSmartPointerDereference E State = Some Ds ->
  exists p, DereferenceLike E p /\
            Ds = diagnoseNonnullExpected p (Env State) NullableDereference None.
Proof.
  intros HName Hmatch Hrun.
  destruct E as [| | | | |id ty r cls callee args direct| |];
    try discriminate.
  destruct cls as [|op|]; try discriminate.
  destruct args as [|p args]; [discriminate |].
  simpl in Hmatch. apply andb_true_iff in Hmatch as [Hop Hsmart].
  apply string_eqb_true in Hop. subst op.
  simpl in Hrun. inversion Hrun; subst. exists p. split; [| reflexivity].
  now apply Deref_SmartPointer.
Qed.

Lemma diagnoseCallExprArguments_Ctx (cls : CallClass)
    (directCallee : option CalleeDecl) (Args : list Expr)
    (CalleeType : option (QualType * list QualType * bool))
    (CalleeNullability : TypeNullability) (State : TransferState)
    (Ds : list PointerNullabilityDiagnostic) :
  diagnoseCallExprArguments cls directCallee Args CalleeType
                            CalleeNullability State = Some Ds ->
  forall D, In D Ds -> Ctx D = FunctionArgument.
Proof.
  unfold diagnoseCallExprArguments. intros Hrun D Hin.
  destruct CalleeType as [[[R PT] V]|];
    [| inversion Hrun; subst; destruct Hin].
  destruct (match cls with
            | CXXOperatorCall _ =>
                match directCallee with
                | Some FD =>
                    if callee_isCXXMethod FD
                    then match Args with [] => None | _ :: A => Some A end
                    else Some Args
                | None => None
                end
            | _ => Some Args
            end) as [Args'|]; [| discriminate].
  destruct (decide _); [discriminate |].
  exact (diagnoseArgumentCompatibility_Ctx _ _ _ _ _ _ _ Hrun D Hin).
Qed.

Lemma diagnoseCallExpr_Ctx (CE : Expr) (State : TransferState)
    (Ds : list PointerNullabilityDiagnostic) :
  diagnoseCallExpr CE State = Some Ds ->
  forall D, In D Ds -> Ctx D = Other \/ Ctx D = FunctionArgument.
Proof.
  intros Hrun D Hin. unfold Diagnosis.diagnoseCallExpr in Hrun.
  destruct CE as [| | | | |id ty r cls Callee Args direct| |];
    try discriminate.
  destruct (isAssertNullability direct).
  { left. exact (diagnoseAssertNullabilityCall_Ctx _ _ _ _ Hrun D Hin). }
  destruct (getExprNullability ignoreCFGOmittedNodes Callee State) as [N|];
    [| inversion Hrun; subst; destruct Hin].
  destruct (isPointerType (getType Callee)).
  - destruct (diagnoseNonnullExpected Callee (Env State) Other None)
      as [|d0 D0] eqn:HD.
    + destruct N as [|front N]; [discriminate |].
      right. exact (diagnoseCallExprArguments_Ctx _ _ _ _ _ _ _ Hrun D Hin).
    + inversion Hrun; subst Ds. rewrite <- HD in Hin. left.
      exact (diagnoseNonnullExpected_Ctx _ _ _ _ _ Hin).
  - right. exact (diagnoseCallExprArguments_Ctx _ _ _ _ _ _ _ Hrun D Hin).
Qed.

(** X16. Every diagnostic of the switch belongs to the kind of element its
    context names: a [NullableDereference] comes from the operand of a
    dereference-like expression, a [ReturnValue] from the value of a
    return statement, an [Initializer] from the initializer of a member,
    a [FunctionArgument] from a call or a constructor call, and an
    [Other] from a call. *)
Theorem diagnostics_attributed_to_their_element
    (Elt : CFGElement) (State : TransferState)
    (Ds : list PointerNullabilityDiagnostic)
    (D : PointerNullabilityDiagnostic) :
  pointerNullabilityDiagnoser Elt State = Some Ds ->
  In D Ds ->
  match Ctx D with
  | NullableDereference =>
      exists E p,
        Elt = CFGStmt (ExprStmt E) /\ DereferenceLike E p /\
        In D (diagnoseNonnullExpected p (Env State) NullableDereference None)
  | FunctionArgument =>
      exists E,
        Elt = CFGStmt (ExprStmt E) /\
        (isCallExpr E = true \/ isConstructExpr E = true)
  | ReturnValue =>
      exists V,
        Elt = CFGStmt (ReturnStmt (Some V)) /\
        In D (diagnoseNonnullExpected V (Env State) ReturnValue None)
  | Initializer =>
      exists Member Init,
        Elt = CFGInitializer (MemberInitializer Member Init) /\
        In D (diagnoseNonnullExpected Init (Env State) Initializer None)
  | Other => exists E, Elt = CFGStmt (ExprStmt E) /\ isCallExpr E = true
  end.
Proof.
  intros Hrun Hin.
  assert (forall E p,
            Elt = CFGStmt (ExprStmt E) -> DereferenceLike E p ->
            Ds = diagnoseNonnullExpected p (Env State)
                   NullableDereference None ->
            match Ctx D with
            | NullableDereference =>
                exists E p,
                  Elt = CFGStmt (ExprStmt E) /\ DereferenceLike E p /\
                  In D (diagnoseNonnullExpected p (Env State)
                          NullableDereference None)
            | FunctionArgument =>
                exists E,
                  Elt = CFGStmt (ExprStmt E) /\
                  (isCallExpr E = true \/ isConstructExpr E = true)
            | ReturnValue =>
                exists V,
                  Elt = CFGStmt (ReturnStmt (Some V)) /\
                  In D (diagnoseNonnullExpected V (Env State) ReturnValue None)
            | Initializer =>
                exists Member Init,
                  Elt = CFGInitializer (MemberInitializer Member Init) /\
                  In D (diagnoseNonnullExpected Init (Env State)
                          Initializer None)
            | Other =>
                exists E, Elt = CFGStmt (ExprStmt E) /\ isCallExpr E = true
            end) as Hderef.
  { intros E p HElt HDL HDs. subst Ds.
    rewrite (diagnoseNonnullExpected_Ctx _ _ _ _ _ Hin). eauto. }
  destruct Elt as [[E | RetValue |] | CI |]; simpl in Hrun;
    try (inversion Hrun; subst; now destruct Hin).
  - destruct (isPointerDereference E) eqn:Hstar.
    { destruct E as [| |id ty r opcode sub| | | | |]; try discriminate.
      simpl in Hstar. apply andb_true_iff in Hstar as [Hop Hp].
      apply string_eqb_true in Hop. subst opcode.
      simpl in Hrun. inversion Hrun; subst Ds.
      eapply Hderef; [reflexivity | now apply Deref_Star | reflexivity]. }
    destruct (isSmartPointerOperatorCall "*" E) eqn:Hsmart1.
    { destruct (isSmartPointerOperatorCall_DereferenceLike
                  "*" E State Ds) as (p & HDL & HDs); auto.
      eapply Hderef; eauto. }
    destruct (isPointerSubscript E) eqn:Hsub.
    { destruct E as [| | |id ty r base idx| | | |]; try discriminate.
      simpl in Hsub, Hrun. inversion Hrun; subst Ds.
      eapply Hderef; [reflexivity | now apply Deref_Subscript | reflexivity]. }
    destruct (isSmartPointerOperatorCall "[]" E) eqn:Hsmart2.
    { destruct (isSmartPointerOperatorCall_DereferenceLike
                  "[]" E State Ds) as (p & HDL & HDs); auto.
      eapply Hderef; eauto. }
    destruct (isPointerArrow E) eqn:Harrow.
    { destruct E as [| | | |id ty r base isArrow| | |]; try discriminate.
      simpl in Harrow, Hrun. subst isArrow. inversion Hrun; subst Ds.
      eapply Hderef; [reflexivity | apply Deref_Arrow | reflexivity]. }
    destruct (isSmartPointerOperatorCall "->" E) eqn:Hsmart3.
    { destruct (isSmartPointerOperatorCall_DereferenceLike
                  "->" E State Ds) as (p & HDL & HDs); auto.
      eapply Hderef; eauto. }
    destruct (isCallExpr E) eqn:Hcall.
    { destruct (diagnoseCallExpr_Ctx _ _ _ Hrun D Hin) as [-> | ->]; eauto. }
    destruct (isConstructExpr E) eqn:Hctor;
      [| inversion Hrun; subst; now destruct Hin].
    destruct E as [| | | | | |id ty r ctor args|]; try discriminate.
    simpl in Hrun.
    destruct (getAsFunctionProtoType (ctor_type ctor)) as [[[R PT] V]|];
      [| inversion Hrun; subst; now destruct Hin].
    rewrite (diagnoseArgumentCompatibility_Ctx _ _ _ _ _ _ _ Hrun D Hin).
    eexists. split; [reflexivity |]. now right.
  - destruct (isPointerReturn RetValue) eqn:Hret;
      [| inversion Hrun; subst; now destruct Hin].
    destruct RetValue as [V|]; [| discriminate].
    simpl in Hrun.
    destruct (getCurrentFunc (Env State)) as [F|]; [| discriminate].
    apply diagnoseAssignmentLike_cases in Hrun
      as [[-> _] | (_ & _ & ->)]; [now destruct Hin |].
    rewrite (diagnoseNonnullExpected_Ctx _ _ _ _ _ Hin). eauto.
  - destruct (isCtorMemberInitializer CI) eqn:Hmem;
      [| inversion Hrun; subst; now destruct Hin].
    destruct CI as [Member Init | |]; try discriminate.
    simpl in Hrun.
    apply diagnoseAssignmentLike_cases in Hrun
      as [[-> _] | (_ & _ & ->)]; [now destruct Hin |].
    rewrite (diagnoseNonnullExpected_Ctx _ _ _ _ _ Hin). eauto.
Qed.

(** X17. A pointer return statement is flagged exactly when the return type
    of the function is a supported pointer type whose nullability is
    [NonNull], and the returned value is either not modelled or has a
    model of the flow condition in which it is null. *)
Theorem nonnull_return_flagged_iff_may_be_null
    (V : Expr) (Function : FunctionDecl) (State : TransferState)
    (Ds : list PointerNullabilityDiagnostic) :
  isPointerReturn (Some V) = true ->
  getCurrentFunc (Env State) = Some Function ->
  pointerNullabilityDiagnoser (CFGStmt (ReturnStmt (Some V))) State
  = Some Ds ->
  (Ds <> [] <->
   isSupportedPointerType (getNonReferenceType (fn_returnType Function))
   = true /\
   (exists front,
      head (getTypeNullability_Function Function) = Some front /\
      concrete front = NonNull) /\
   (getPointerValue V (Env State) = None \/
    exists PV v, getPointerValue V (Env State) = Some PV /\
                 nullModel (Env State) PV v)).
Proof.
  intros Hret HF Hrun. simpl in Hrun. simpl in Hret.
  rewrite Hret in Hrun. simpl in Hrun. rewrite HF in Hrun.
  apply diagnoseAssignmentLike_cases in Hrun
    as [[-> Hwhy] | (Hsup & (front & Hhead & Hnn) & ->)].
  - split; [contradiction |].
    intros (Hsup & (front & Hhead & Hnn) & _). exfalso.
    destruct Hwhy as [Hno | (f & Hf & Hc)]; [congruence |].
    apply head_take in Hf. congruence.
  - apply head_take in Hhead.
    destruct (diagnoseNonnullExpected_cases V (Env State) ReturnValue None)
      as [(PV & HPV & Hn & ->) | [(PV & HPV & Hn & ->) | (HPV & ->)]].
    + split; [intros _ | discriminate].
      split; [assumption |]. split; [eauto |]. right.
      apply isNullable_spec in Hn as [v Hv]. eauto.
    + split; [contradiction |].
      intros (_ & _ & [Hnone | (PV' & v & HPV' & Hv)]); [congruence |].
      exfalso. rewrite HPV in HPV'. inversion HPV'; subst PV'.
      assert (isNullable PV (Env State) = true)
        by (apply isNullable_spec; eauto).
      congruence.
    + split; [intros _ | discriminate].
      split; [assumption |]. split; [eauto |]. now left.
Qed.

(** X18. The initializer of a member is flagged exactly when the type of the
    member is a supported pointer type whose nullability is [NonNull],
    and the initializing expression is either not modelled or has a
    model of the flow condition in which it is null. *)
Theorem nonnull_member_initializer_flagged_iff_may_be_null
    (Member : FieldDecl) (Init : Expr) (State : TransferState)
    (Ds : list PointerNullabilityDiagnostic) :
  pointerNullabilityDiagnoser
    (CFGInitializer (MemberInitializer Member Init)) State = Some Ds ->
  (Ds <> [] <->
   isSupportedPointerType (getNonReferenceType (field_type Member)) = true /\
   (exists front,
      head (getTypeNullability_Field Member) = Some front /\
      concrete front = NonNull) /\
   (getPointerValue Init (Env State) = None \/
    exists PV v, getPointerValue Init (Env State) = Some PV /\
                 nullModel (Env State) PV v)).
Proof.
  intros Hrun. simpl in Hrun.
  apply diagnoseAssignmentLike_cases in Hrun
    as [[-> Hwhy] | (Hsup & (front & Hhead & Hnn) & ->)].
  - split; [contradiction |].
    intros (Hsup & (front & Hhead & Hnn) & _). exfalso.
    destruct Hwhy as [Hno | (f & Hf & Hc)]; congruence.
  - destruct (diagnoseNonnullExpected_cases Init (Env State) Initializer None)
      as [(PV & HPV & Hn & ->) | [(PV & HPV & Hn & ->) | (HPV & ->)]].
    + split; [intros _ | discriminate].
      split; [assumption |]. split; [eauto |]. right.
      apply isNullable_spec in Hn as [v Hv]. eauto.
    + split; [contradiction |].
      intros (_ & _ & [Hnone | (PV' & v & HPV' & Hv)]); [congruence |].
      exfalso. rewrite HPV in HPV'. inversion HPV'; subst PV'.
      assert (isNullable PV (Env State) = true)
        by (apply isNullable_spec; eauto).
      congruence.
    + split; [intros _ | discriminate].
      split; [assumption |]. split; [eauto |]. now left.
Qed.

End DiagnosisShapeFacts.

Lemma argument_diagnostics_characterised_witness :
  exists J ParamTy Arg front,
    [Samples.intPtr] !! J = Some ParamTy /\
    [Samples.argQ] !! J = Some Arg /\
    Diagnosis.isSupportedPointerType (TypeNullabilityAPI := Samples.sampleAPI)
      (Diagnosis.getNonReferenceType ParamTy) = true /\
    head (drop (sum_list
                  (map (Diagnosis.countPointersInType
                          (TypeNullabilityAPI := Samples.sampleAPI))
                       (take J [Samples.intPtr])))
               [Concrete NonNull]) = Some front /\
    Diagnosis.concrete front = NonNull /\
    In (Diagnosis.mkDiag Diagnosis.ExpectedNonnull Diagnosis.FunctionArgument
          (Diagnosis.mkRange 4 5) (Some "p"))
       (Diagnosis.diagnoseNonnullExpected Arg
          (Diagnosis.Env Samples.nullCalleeState) Diagnosis.FunctionArgument
          (Some (default "" (["p"] !! J)))).
Proof.
  apply (proj1 (argument_diagnostics_characterised
                  (API := Samples.sampleAPI)
                  [Samples.intPtr] false [Concrete NonNull] ["p"]
                  [Samples.argQ] (Diagnosis.Env Samples.nullCalleeState)
                  [Diagnosis.mkDiag Diagnosis.ExpectedNonnull
                     Diagnosis.FunctionArgument (Diagnosis.mkRange 4 5)
                     (Some "p")]
                  eq_refl _)).
  left. reflexivity.
Defined.

Lemma variadic_arguments_are_unchecked_witness :
  Diagnosis.diagnoseArgumentCompatibility (API := Samples.sampleAPI)
    [Samples.intPtr] true [Concrete NonNull] ["p"]
    ([Samples.argQ] ++ [Samples.calleeFp])
    (Diagnosis.Env Samples.nullCalleeState)
  = Diagnosis.diagnoseArgumentCompatibility (API := Samples.sampleAPI)
      [Samples.intPtr] false [Concrete NonNull] ["p"] [Samples.argQ]
      (Diagnosis.Env Samples.nullCalleeState).
Proof.
  apply (variadic_arguments_are_unchecked (API := Samples.sampleAPI)).
  reflexivity.
Defined.

Lemma argument_diagnosis_preconditions_witness :
  length [Samples.intPtr] <= length [Samples.argQ; Samples.calleeFp] /\
  sum_list (map (Diagnosis.countPointersInType
                   (TypeNullabilityAPI := Samples.sampleAPI))
                [Samples.intPtr])
  <= length [Concrete NonNull].
Proof.
  apply (argument_diagnosis_preconditions (API := Samples.sampleAPI)
           [Samples.intPtr] true [Concrete NonNull] ["p"]
           [Samples.argQ; Samples.calleeFp]
           (Diagnosis.Env Samples.nullCalleeState)).
  eexists. reflexivity.
Defined.

Lemma diagnostics_attributed_to_their_element_witness :
  exists E p,
    Diagnosis.CFGStmt (Diagnosis.ExprStmt Samples.derefQ)
    = Diagnosis.CFGStmt (Diagnosis.ExprStmt E) /\
    Diagnosis.DereferenceLike (API := Samples.sampleAPI) E p /\
    In (Diagnosis.mkDiag Diagnosis.ExpectedNonnull
          Diagnosis.NullableDereference (Diagnosis.mkRange 4 5) None)
       (Diagnosis.diagnoseNonnullExpected p
          (Diagnosis.Env Samples.nullCalleeState)
          Diagnosis.NullableDereference None).
Proof.
  apply (diagnostics_attributed_to_their_element (API := Samples.sampleAPI) id
           (Diagnosis.CFGStmt (Diagnosis.ExprStmt Samples.derefQ))
           Samples.nullCalleeState
           [Diagnosis.mkDiag Diagnosis.ExpectedNonnull
              Diagnosis.NullableDereference (Diagnosis.mkRange 4 5) None]
           (Diagnosis.mkDiag Diagnosis.ExpectedNonnull
              Diagnosis.NullableDereference (Diagnosis.mkRange 4 5) None)).
  - reflexivity.
  - left. reflexivity.
Defined.

Lemma nonnull_return_flagged_iff_may_be_null_witness :
  Diagnosis.isSupportedPointerType (TypeNullabilityAPI := Samples.sampleAPI)
    (Diagnosis.getNonReferenceType Samples.intPtr) = true /\
  (exists front,
     head [Concrete NonNull] = Some front /\
     Diagnosis.concrete front = NonNull) /\
  (Diagnosis.getPointerValue Samples.argQ
     (Diagnosis.Env Samples.nullCalleeState) = None \/
   exists PV v,
     Diagnosis.getPointerValue Samples.argQ
       (Diagnosis.Env Samples.nullCalleeState) = Some PV /\
     Diagnosis.nullModel (Diagnosis.Env Samples.nullCalleeState) PV v).
Proof.
  apply (proj1 (nonnull_return_flagged_iff_may_be_null
                  (API := Samples.sampleAPI) id Samples.argQ
                  (Diagnosis.mkFunctionDecl 3 Samples.intPtr [] false true)
                  (Diagnosis.mkState
                     (Diagnosis.Lattice_NFS Samples.nullCalleeState)
                     (Diagnosis.mkEnv
                        (Diagnosis.pointerValues
                           (Diagnosis.Env Samples.nullCalleeState))
                        []
                        (Some (Diagnosis.mkFunctionDecl
                                 3 Samples.intPtr [] false true))))
                  [Diagnosis.mkDiag Diagnosis.ExpectedNonnull
                     Diagnosis.ReturnValue (Diagnosis.mkRange 4 5) None]
                  eq_refl eq_refl eq_refl)).
  discriminate.
Defined.

Lemma nonnull_member_initializer_flagged_iff_may_be_null_witness :
  Diagnosis.isSupportedPointerType (TypeNullabilityAPI := Samples.sampleAPI)
    (Diagnosis.getNonReferenceType Samples.intPtr) = true /\
  (exists front,
     head [Concrete NonNull] = Some front /\
     Diagnosis.concrete front = NonNull) /\
  (Diagnosis.getPointerValue Samples.argQ
     (Diagnosis.Env Samples.nullCalleeState) = None \/
   exists PV v,
     Diagnosis.getPointerValue Samples.argQ
       (Diagnosis.Env Samples.nullCalleeState) = Some PV /\
     Diagnosis.nullModel (Diagnosis.Env Samples.nullCalleeState) PV v).
Proof.
  apply (proj1 (nonnull_member_initializer_flagged_iff_may_be_null
                  (API := Samples.sampleAPI) id
                  (Diagnosis.mkField 1 Samples.intPtr) Samples.argQ
                  Samples.nullCalleeState
                  [Diagnosis.mkDiag Diagnosis.ExpectedNonnull
                     Diagnosis.Initializer (Diagnosis.mkRange 4 5) None]
                  eq_refl)).
  discriminate.
Defined.

(** ** The entry point, for declarations and for finished runs *)

Section EntryPointShapeFacts.
Import Solver Diagnosis.

Context `{API : TypeNullabilityAPI} `{FW : Framework}.
Variable ignoreCFGOmittedNodes : ExprId -> ExprId.

Local Abbreviation diagnosePointerNullability :=
  (diagnosePointerNullability ignoreCFGOmittedNodes).
Local Abbreviation collectDiagnostics :=
  (collectDiagnostics ignoreCFGOmittedNodes).
Local Abbreviation pointerNullabilityDiagnoser :=
  (pointerNullabilityDiagnoser ignoreCFGOmittedNodes).

Lemma checkParmVarDeclWithPointerDefaultArg_app (Parm : ParmVarDecl)
    (Diags : list PointerNullabilityDiagnostic) :
  checkParmVarDeclWithPointerDefaultArg Parm Diags
  = Diags ++ checkParmVarDeclWithPointerDefaultArg Parm [].
Proof.
  unfold checkParmVarDeclWithPointerDefaultArg.
  destruct (isDependentType _); [now rewrite app_nil_r |].
  destruct (getTypeNullability_Parm Parm) as [|front rest];
    [now rewrite app_nil_r |].
  destruct (negb (bool_decide _)); [now rewrite app_nil_r |].
  destruct (parm_init Parm); [| now rewrite app_nil_r].
  destruct (negb _); [now rewrite app_nil_r | reflexivity].
Qed.

Lemma fold_checkParmVarDecl (Parms : list ParmVarDecl) :
  forall Diags,
    fold_left (fun Diags Parm =>
                 checkParmVarDeclWithPointerDefaultArg Parm Diags)
              Parms Diags
    = Diags ++ flat_map (fun Parm =>
                           checkParmVarDeclWithPointerDefaultArg Parm [])
                        Parms.
Proof.
  induction Parms as [|Parm Parms IH]; intros Diags; simpl.
  - now rewrite app_nil_r.
  - rewrite IH, checkParmVarDeclWithPointerDefaultArg_app.
    now rewrite <- app_assoc.
Qed.

Lemma checkParmVarDecl_alone (Parm : ParmVarDecl)
    (D : PointerNullabilityDiagnostic) :
  length (checkParmVarDeclWithPointerDefaultArg Parm []) <= 1 /\
  (In D (checkParmVarDeclWithPointerDefaultArg Parm []) <->
   exists Init front,
     isDependentType (parm_type Parm) = false /\
     head (getTypeNullability_Parm Parm) = Some front /\
     concrete front = NonNull /\
     parm_init Parm = Some Init /\
     shouldDiagnoseExpectedNonnullDefaultArgValue Parm = true /\
     D = mkDiag ExpectedNonnull Initializer (getSourceRange Init)
                (Some (parm_name Parm))).
Proof.
  unfold checkParmVarDeclWithPointerDefaultArg.
  destruct (isDependentType (parm_type Parm)).
  { simpl. split; [lia |]. split; [intros [] |].
    intros (? & ? & ? & _); discriminate. }
  destruct (getTypeNullability_Parm Parm) as [|front rest].
  { simpl. split; [lia |]. split; [intros [] |].
    intros (? & ? & _ & ? & _); discriminate. }
  destruct (bool_decide_reflect (concrete front = NonNull)) as [Hnn | Hnn];
    simpl.
  2:{ split; [lia |]. split; [intros [] |].
      intros (? & f & _ & Hf & Hc & _). congruence. }
  destruct (parm_init Parm) as [Init|].
  2:{ simpl. split; [lia |]. split; [intros [] |].
      intros (? & ? & _ & _ & _ & ? & _); discriminate. }
  destruct (shouldDiagnoseExpectedNonnullDefaultArgValue Parm); simpl.
  - split; [lia |]. split.
    + intros [<- | []]. exists Init, front. auto 10.
    + intros (Init' & f & _ & _ & _ & HInit & _ & ->).
      left. congruence.
  - split; [lia |]. split; [intros [] |].
    intros (? & ? & _ & _ & _ & _ & ? & _); discriminate.
Qed.

(** X19. For a declaration without a body the entry point returns the
    diagnostics of the default arguments and nothing else: at most one
    per parameter, and a diagnostic is reported exactly for a parameter
    of non-dependent type, declared [NonNull], whose default argument is
    one that should be diagnosed; it is an [ExpectedNonnull] of context
    [Initializer] at the default argument, naming the parameter. *)
Theorem default_argument_diagnostics_of_declaration (Func : FunctionDecl) :
  fn_isTemplated Func = false ->
  fn_doesThisDeclarationHaveABody Func = false ->
  exists Ds,
    diagnosePointerNullability Func = Some (Success _ Ds) /\
    length Ds <= length (fn_parameters Func) /\
    forall D,
      In D Ds <->
      exists Parm Init front,
        In Parm (fn_parameters Func) /\
        isDependentType (parm_type Parm) = false /\
        head (getTypeNullability_Parm Parm) = Some front /\
        concrete front = NonNull /\
        parm_init Parm = Some Init /\
        shouldDiagnoseExpectedNonnullDefaultArgValue Parm = true /\
        D = mkDiag ExpectedNonnull Initializer (getSourceRange Init)
                   (Some (parm_name Parm)).
Proof.
  intros Htempl Hbody. eexists. split.
  { unfold Diagnosis.diagnosePointerNullability.
    rewrite Htempl, Hbody. simpl. rewrite fold_checkParmVarDecl. reflexivity. }
  simpl. split.
  - induction (fn_parameters Func) as [|Parm Parms IH]; simpl; [lia |].
    rewrite length_app.
    pose proof (proj1 (checkParmVarDecl_alone Parm
                         (mkDiag ExpectedNonnull Initializer
                                 (mkRange 0 0) None))).
    lia.
  - intros D. rewrite in_flat_map. split.
    + intros (Parm & HParm & Hin).
      apply checkParmVarDecl_alone in Hin as (Init & front & Hrest).
      exists Parm, Init, front. tauto.
    + intros (Parm & Init & front & HParm & Hrest).
      exists Parm. split; [assumption |].
      apply checkParmVarDecl_alone. exists Init, front. tauto.
Qed.

Lemma collectDiagnostics_In (visits : list (CFGElement * TransferState)) :
  forall Ds,
    collectDiagnostics visits = Some Ds ->
    forall D,
      In D Ds <->
      exists Elt State EltDiagnostics,
        In (Elt, State) visits /\
        pointerNullabilityDiagnoser Elt State = Some EltDiagnostics /\
        In D EltDiagnostics.
Proof.
  induction visits as [|[Elt State] visits IH]; intros Ds Hrun D.
  - inversion Hrun; subst. simpl. split; [intros [] |].
    now intros (? & ? & ? & [] & _).
  - cbn [Diagnosis.collectDiagnostics] in Hrun.
    destruct (pointerNullabilityDiagnoser Elt State) as [Ds0|] eqn:Hfirst;
      [| discriminate].
    destruct (collectDiagnostics visits) as [Rest|] eqn:Hrest;
      [| discriminate].
    inversion Hrun; subst Ds. rewrite in_app_iff, (IH Rest eq_refl D).
    split.
    + intros [Hin | (E & S & Ds1 & Hvisit & HDs1 & Hin)].
      * exists Elt, State, Ds0. split; [now left |]. now split.
      * exists E, S, Ds1. split; [now right |]. now split.
    + intros (E & S & Ds1 & [Heq | Hvisit] & HDs1 & Hin).
      * inversion Heq; subst. left. congruence.
      * right. eauto 10.
Qed.

(** X20. Diagnostics of a function with a body are the diagnostics of a run
    that finished: the CFG was built, the run returned no error, the
    solver did not reach its limit, and every diagnostic returned is one
    the switch reported for an element the run visited, and the other
    way round. *)
Theorem diagnostics_only_from_a_finished_run
    (Func : FunctionDecl) (Ds : list PointerNullabilityDiagnostic) :
  fn_isTemplated Func = false ->
  fn_doesThisDeclarationHaveABody Func = true ->
  diagnosePointerNullability Func = Some (Success _ Ds) ->
  AdornedCFG_build Func = None /\
  runError (runDataflowAnalysis Func MaxSATIterations MaxBlockVisits) = None /\
  reachedLimit (runDataflowAnalysis Func MaxSATIterations MaxBlockVisits)
  = false /\
  forall D,
    In D Ds <->
    exists Elt State EltDiagnostics,
      In (Elt, State)
         (postVisit
            (runDataflowAnalysis Func MaxSATIterations MaxBlockVisits)) /\
      pointerNullabilityDiagnoser Elt State = Some EltDiagnostics /\
      In D EltDiagnostics.
Proof.
  intros Htempl Hbody Hrun.
  unfold Diagnosis.diagnosePointerNullability in Hrun.
  rewrite Htempl, Hbody in Hrun. simpl in Hrun.
  destruct (AdornedCFG_build Func); [discriminate |].
  destruct (collectDiagnostics _) as [Diagnostics|] eqn:Hcollect;
    [| discriminate].
  destruct (runError _); [discriminate |].
  destruct (reachedLimit _); [discriminate |].
  inversion Hrun; subst Ds.
  repeat split; try reflexivity;
    now apply (collectDiagnostics_In _ _ Hcollect D).
Qed.

End EntryPointShapeFacts.

Lemma default_argument_diagnostics_of_declaration_witness :
  exists Ds,
    Diagnosis.diagnosePointerNullability
      (API := Samples.sampleAPI) (FW := Samples.quietFramework) id
      Samples.declarationOnly
    = Some (Diagnosis.Success _ Ds) /\
    length Ds <= length (Diagnosis.fn_parameters Samples.declarationOnly).
Proof.
  destruct (default_argument_diagnostics_of_declaration
              (API := Samples.sampleAPI) (FW := Samples.quietFramework) id
              Samples.declarationOnly eq_refl eq_refl)
    as (Ds & Hrun & Hlen & _).
  exists Ds. split; assumption.
Defined.

Lemma diagnostics_only_from_a_finished_run_witness :
  Diagnosis.AdornedCFG_build (Framework := Samples.quietFramework)
    Samples.definitionWithBody = None /\
  Diagnosis.runError
    (Diagnosis.runDataflowAnalysis (Framework := Samples.quietFramework)
       Samples.definitionWithBody
       Diagnosis.MaxSATIterations Diagnosis.MaxBlockVisits) = None /\
  Diagnosis.reachedLimit
    (Diagnosis.runDataflowAnalysis (Framework := Samples.quietFramework)
       Samples.definitionWithBody
       Diagnosis.MaxSATIterations Diagnosis.MaxBlockVisits) = false.
Proof.
  destruct (diagnostics_only_from_a_finished_run
              (API := Samples.sampleAPI) (FW := Samples.quietFramework) id
              Samples.definitionWithBody [] eq_refl eq_refl eq_refl)
    as (Hcfg & Herr & Hlimit & _).
  repeat split; assumption.
Defined.

(** ** Null checks, merging and widening of null states *)

Section AnalysisFacts.
Import Solver Analysis.

Variable PointerValue : Type.
Variable getPointeeLoc : PointerValue -> LocId.
Variable getPointerValueFromExpr : ExprId -> Environment -> option PointerValue.
Variable hasPointerNullState : PointerValue -> bool.
Variable getPointerNullState : PointerValue -> PointerNullState.

Local Abbreviation transferValue_NullCheckComparison :=
  (transferValue_NullCheckComparison
     PointerValue getPointerValueFromExpr hasPointerNullState
     getPointerNullState).
Local Abbreviation transferValue_NullCheckImplicitCastPtrToBool :=
  (transferValue_NullCheckImplicitCastPtrToBool
     PointerValue getPointerValueFromExpr getPointerNullState).
Local Abbreviation compare :=
  (compare PointerValue getPointeeLoc hasPointerNullState getPointerNullState).

Lemma holds_snoc (v : Valuation) (fc : FlowCondition) (f : Formula) :
  holds v (fc ++ [f]) = holds v fc && eval v f.
Proof.
  unfold holds. rewrite forallb_app. simpl. now rewrite andb_true_r.
Qed.

(** X21. A comparison of two pointers whose [is_null] is known gets a value
    that respects the null states: in every model of the flow condition
    after the transfer, two null pointers compare equal and a null and a
    non-null pointer compare unequal. Against a literal null the value
    is the [is_null] of the other side, negated for [!=], and the flow
    condition is left as it was; otherwise the flow condition only
    grows. The arena is not used. *)
Theorem null_check_comparison_respects_null_states
    (BinaryOp : BinaryOperator) (Env : Environment) (A : Arena)
    (LHS RHS : PointerValue) (LHSNull RHSNull : Formula) :
  getPointerValueFromExpr (bo_lhs BinaryOp) Env = Some LHS ->
  getPointerValueFromExpr (bo_rhs BinaryOp) Env = Some RHS ->
  hasPointerNullState LHS = true ->
  hasPointerNullState RHS = true ->
  IsNull (getPointerNullState LHS) = Some LHSNull ->
  IsNull (getPointerNullState RHS) = Some RHSNull ->
  bo_opcode BinaryOp <> BO_Other ->
  LHSNull = Lit true \/ RHSNull = Lit true \/
  is_Some (exprValues Env !! bo_id BinaryOp) ->
  exists Env' V,
    transferValue_NullCheckComparison BinaryOp Env A = Some (Env', A) /\
    exprValues Env' !! bo_id BinaryOp = Some V /\
    (LHSNull = Lit true \/ RHSNull = Lit true ->
     flowCondition Env' = flowCondition Env) /\
    forall v,
      holds v (flowCondition Env') = true ->
      holds v (flowCondition Env) = true /\
      (eval v LHSNull = true -> eval v RHSNull = true ->
       eval v (PointerEQ (bo_opcode BinaryOp) (formula V)) = true) /\
      (eval v LHSNull = true -> eval v RHSNull = false ->
       eval v (PointerNE (bo_opcode BinaryOp) (formula V)) = true) /\
      (eval v LHSNull = false -> eval v RHSNull = true ->
       eval v (PointerNE (bo_opcode BinaryOp) (formula V)) = true).
Proof.
  intros HL HR HhasL HhasR HnL HnR Hop Hval.
  unfold Analysis.transferValue_NullCheckComparison.
  rewrite HL, HR, HhasL, HhasR, HnL, HnR. simpl.
  destruct (decide (LHSNull = Lit true)) as [-> | HneL].
  { destruct (bo_opcode BinaryOp) eqn:Hopc; [| | contradiction];
      eexists _, _; (split; [reflexivity |]);
      (split; [apply lookup_insert_eq |]); (split; [reflexivity |]);
      intros v Hv; (split; [exact Hv |]); simpl;
      repeat split; intros H1 H2; rewrite ?H2; try reflexivity;
      discriminate. }
  destruct (decide (RHSNull = Lit true)) as [-> | HneR].
  { destruct (bo_opcode BinaryOp) eqn:Hopc; [| | contradiction];
      eexists _, _; (split; [reflexivity |]);
      (split; [apply lookup_insert_eq |]); (split; [reflexivity |]);
      intros v Hv; (split; [exact Hv |]); simpl;
      repeat split; intros H1 H2; rewrite ?H1; try reflexivity;
      discriminate. }
  destruct Hval as [? | [? | [V HV]]]; [contradiction | contradiction |].
  rewrite HV. simpl.
  destruct (bo_opcode BinaryOp) eqn:Hopc; [| | contradiction].
  all: eexists _, V; (split; [reflexivity |]); (split; [exact HV |]);
    (split; [intros [? | ?]; contradiction |]);
    intros v Hv; cbn [flowCondition assume] in Hv;
    rewrite !holds_snoc in Hv;
    apply andb_true_iff in Hv as [Hv H3];
    apply andb_true_iff in Hv as [Hv H2];
    apply andb_true_iff in Hv as [Hv H1];
    (split; [exact Hv |]); simpl in H1, H2, H3;
    repeat split; intros HLn HRn; rewrite HLn, HRn in *; simpl in *;
    assumption.
Qed.

(** X22. The comparison leaves every other expression alone, and it touches
    the flow condition in one case only: both pointers have a known
    [is_null], neither of which is the literal null; then exactly the
    three implications are assumed. *)
Theorem null_check_comparison_frame
    (BinaryOp : BinaryOperator) (Env Env' : Environment) (A A' : Arena) :
  transferValue_NullCheckComparison BinaryOp Env A = Some (Env', A') ->
  (forall E, E <> bo_id BinaryOp ->
             exprValues Env' !! E = exprValues Env !! E) /\
  getFlowConditionToken Env' = getFlowConditionToken Env /\
  (flowCondition Env' = flowCondition Env \/
   exists LHS RHS LHSNull RHSNull V,
     getPointerValueFromExpr (bo_lhs BinaryOp) Env = Some LHS /\
     getPointerValueFromExpr (bo_rhs BinaryOp) Env = Some RHS /\
     IsNull (getPointerNullState LHS) = Some LHSNull /\
     IsNull (getPointerNullState RHS) = Some RHSNull /\
     LHSNull <> Lit true /\ RHSNull <> Lit true /\
     exprValues Env !! bo_id BinaryOp = Some V /\
     exprValues Env' = exprValues Env /\
     flowCondition Env'
     = flowCondition Env
       ++ [Implies (And LHSNull RHSNull)
                   (PointerEQ (bo_opcode BinaryOp) (formula V));
           Implies (And LHSNull (Not RHSNull))
                   (PointerNE (bo_opcode BinaryOp) (formula V));
           Implies (And (Not LHSNull) RHSNull)
                   (PointerNE (bo_opcode BinaryOp) (formula V))]).
Proof.
  unfold Analysis.transferValue_NullCheckComparison. intros Hrun.
  assert (forall V,
            (forall E, E <> bo_id BinaryOp ->
                       exprValues (setValue (bo_id BinaryOp) V Env) !! E
                       = exprValues Env !! E)) as Hset.
  { intros V E HE. simpl. now rewrite lookup_insert_ne by congruence. }
  destruct (getPointerValueFromExpr (bo_lhs BinaryOp) Env) as [LHS|];
    [| inversion Hrun; subst; auto].
  destruct (getPointerValueFromExpr (bo_rhs BinaryOp) Env) as [RHS|];
    [| inversion Hrun; subst; auto].
  destruct (negb (hasPointerNullState LHS) || negb (hasPointerNullState RHS));
    [inversion Hrun; subst; auto |].
  destruct (IsNull (getPointerNullState LHS)) as [LHSNull|] eqn:HnL;
    [| inversion Hrun; subst; auto].
  destruct (IsNull (getPointerNullState RHS)) as [RHSNull|] eqn:HnR;
    [| inversion Hrun; subst; auto].
  destruct (decide (LHSNull = Lit true)) as [-> | HneL].
  { destruct (bo_opcode BinaryOp); inversion Hrun; subst; auto. }
  destruct (decide (RHSNull = Lit true)) as [-> | HneR].
  { destruct (bo_opcode BinaryOp); inversion Hrun; subst; auto. }
  destruct (exprValues Env !! bo_id BinaryOp) as [V|] eqn:HV;
    [| discriminate].
  destruct (bo_opcode BinaryOp) eqn:Hopc; [| | discriminate];
    inversion Hrun; subst; clear Hrun;
    (split; [reflexivity |]); (split; [reflexivity |]); right;
    exists LHS, RHS, LHSNull, RHSNull, V; cbn [flowCondition assume exprValues];
    rewrite <- !app_assoc; auto 10.
Qed.

Lemma holds_In (v : Valuation) (fc : FlowCondition) (f : Formula) :
  In f fc -> holds v fc = true -> eval v f = true.
Proof.
  unfold holds. intros Hin Hv.
  exact (proj1 (forallb_forall _ _) Hv f Hin).
Qed.

(** X23. An implicit cast of a pointer with a known [is_null] to [bool]
    leaves the flow condition alone and gives the cast the value
    [not is_null]. On a branch whose flow condition holds that value, a
    dereference of the pointer is not flagged; on a branch that holds
    its negation, it is flagged as soon as the branch is reachable. *)
Theorem pointer_checked_by_cast_to_bool
    (CastExpr Pointer : ExprId) (Env : Environment) (A : Arena)
    (PV : PointerValue) (Null : Formula) :
  getPointerValueFromExpr Pointer Env = Some PV ->
  IsNull (getPointerNullState PV) = Some Null ->
  exists Env' V,
    transferValue_NullCheckImplicitCastPtrToBool CastExpr Pointer Env A
    = (Env', A) /\
    flowCondition Env' = flowCondition Env /\
    exprValues Env' !! CastExpr = Some V /\
    forall (DEnv : Diagnosis.Environment) (E : Diagnosis.Expr)
           (DPV : Diagnosis.PointerValue) (DiagCtx : Diagnosis.Context)
           (ParamName : option string),
      Diagnosis.getPointerValue E DEnv = Some DPV ->
      Diagnosis.is_null DPV = Some Null ->
      (In (formula V) (Diagnosis.flowCondition DEnv) ->
       Diagnosis.diagnoseNonnullExpected E DEnv DiagCtx ParamName = []) /\
      (In (Not (formula V)) (Diagnosis.flowCondition DEnv) ->
       (exists v, holds v (Diagnosis.flowCondition DEnv) = true) ->
       Diagnosis.diagnoseNonnullExpected E DEnv DiagCtx ParamName
       = [Diagnosis.mkDiag Diagnosis.ExpectedNonnull DiagCtx
                           (Diagnosis.getSourceRange E) ParamName]).
Proof.
  intros HPV HNull.
  unfold Analysis.transferValue_NullCheckImplicitCastPtrToBool.
  rewrite HPV, HNull.
  eexists _, _. split; [reflexivity |]. split; [reflexivity |].
  split; [apply lookup_insert_eq |].
  intros DEnv E DPV DiagCtx ParamName HDPV HDNull.
  unfold Diagnosis.diagnoseNonnullExpected, Diagnosis.isNullable.
  rewrite HDPV, HDNull. simpl. split.
  - intros Hin.
    destruct (allows (Diagnosis.flowCondition DEnv) Null) eqn:Hallows;
      [| reflexivity].
    apply allows_spec in Hallows as (v & Hv & HvNull).
    pose proof (holds_In v _ _ Hin Hv) as Hnot. simpl in Hnot.
    rewrite HvNull in Hnot. discriminate.
  - intros Hin [v Hv].
    replace (allows (Diagnosis.flowCondition DEnv) Null) with true;
      [reflexivity |].
    symmetry. apply allows_spec. exists v. split; [exact Hv |].
    pose proof (holds_In v _ _ Hin Hv) as Hnot. simpl in Hnot.
    now rewrite negb_involutive in Hnot.
Qed.

Lemma compare_Same_iff (P1 P2 : PointerValue) :
  compare (PointerVal _ P1) (PointerVal _ P2) = Some Same <->
  getPointeeLoc P1 = getPointeeLoc P2 /\
  hasPointerNullState P1 = hasPointerNullState P2 /\
  (hasPointerNullState P1 = true ->
   getPointerNullState P1 = getPointerNullState P2).
Proof.
  unfold Analysis.compare.
  destruct (Nat.eqb_spec (getPointeeLoc P1) (getPointeeLoc P2)) as [Hloc | Hloc];
    simpl; [| split; [discriminate | now intros [? _]]].
  destruct (hasPointerNullState P1) eqn:H1,
           (hasPointerNullState P2) eqn:H2; simpl;
    try (split; [discriminate | now intros (_ & ? & _)]);
    [| split; [intros _ | reflexivity]; repeat split; auto; discriminate].
  destruct (getPointerNullState P1) as [F1 N1],
           (getPointerNullState P2) as [F2 N2]. simpl.
  destruct (bool_decide_reflect (F1 = F2)) as [-> | HF];
    destruct (bool_decide_reflect (N1 = N2)) as [-> | HN]; simpl;
    split; try discriminate; try (repeat split; auto; fail);
    intros (_ & _ & Heq); specialize (Heq eq_refl); congruence.
Qed.

(** X24. [compare] is an equivalence on pointer values: [Same] is reflexive,
    symmetric and transitive, the answer is never [Unknown], and two
    pointer values are the [Same] exactly when they point to the same
    location and either both lack a null state or both have the same
    two formulas. *)
Theorem compare_is_an_equivalence (P1 P2 P3 : PointerValue) :
  compare (PointerVal _ P1) (PointerVal _ P1) = Some Same /\
  (compare (PointerVal _ P1) (PointerVal _ P2) = Some Same ->
   compare (PointerVal _ P2) (PointerVal _ P1) = Some Same) /\
  (compare (PointerVal _ P1) (PointerVal _ P2) = Some Same ->
   compare (PointerVal _ P2) (PointerVal _ P3) = Some Same ->
   compare (PointerVal _ P1) (PointerVal _ P3) = Some Same) /\
  (compare (PointerVal _ P1) (PointerVal _ P2) = Some Same \/
   compare (PointerVal _ P1) (PointerVal _ P2) = Some Different) /\
  (compare (PointerVal _ P1) (PointerVal _ P2) = Some Same <->
   getPointeeLoc P1 = getPointeeLoc P2 /\
   hasPointerNullState P1 = hasPointerNullState P2 /\
   (hasPointerNullState P1 = true ->
    getPointerNullState P1 = getPointerNullState P2)).
Proof.
  refine (conj _ (conj _ (conj _ (conj _ _)))).
  - apply compare_Same_iff. auto.
  - rewrite !compare_Same_iff. intros (Hloc & Hhas & Hst).
    repeat split; try congruence. intros H2. symmetry. apply Hst. congruence.
  - rewrite !compare_Same_iff.
    intros (Hloc & Hhas & Hst) (Hloc' & Hhas' & Hst').
    repeat split; try congruence. intros H1.
    rewrite Hst by assumption. apply Hst'. congruence.
  - unfold Analysis.compare.
    destruct (negb (Nat.eqb _ _)); [now right |].
    destruct (negb (Bool.eqb _ _)); [now right |].
    destruct (negb (hasPointerNullState P1)); [now left |].
    destruct (_ && _); [now left | now right].
  - apply compare_Same_iff.
Qed.

Lemma proves_iff (Env : Environment) (f : Formula) :
  proves Env f = true <->
  forall v, holds v (flowCondition Env) = true -> eval v f = true.
Proof. apply proves_spec. Qed.

Lemma refutes_iff (Env : Environment) (f : Formula) :
  proves Env (Not f) = true <->
  forall v, holds v (flowCondition Env) = true -> eval v f = false.
Proof.
  rewrite proves_iff. simpl.
  split; intros H v Hv; specialize (H v Hv);
    [now apply negb_true_iff in H | now apply negb_true_iff].
Qed.

(** X25. What [mergeFormulas] returns, case by case; the cases exclude
    one another and leave nothing out. Two identical properties (two
    "top"s included) are returned as they are. Of two different ones,
    if one is "top" the result is "top". For two different formulas the
    result is the literal [true] if each formula holds in every model of
    its own flow condition; the literal [false] if the first does not
    hold in every model of the first flow condition and each formula
    fails in every model of its own; and in every other case a fresh
    atom, with one constraint added to the merged flow condition that
    ties the atom to the first formula under the first flow-condition
    token and to the second under the second. The merged environment
    and the arena change in that last case only. In particular, when
    the first flow condition has no model, the result is never the
    literal [false]. *)
Theorem merged_formula_sound
    (Bool1 Bool2 : option Formula) (Env1 Env2 MergedEnv : Environment)
    (A : Arena) :
  (Bool1 = Bool2 ->
   mergeFormulas Bool1 Env1 Bool2 Env2 MergedEnv A = (Bool1, MergedEnv, A)) /\
  (Bool1 <> Bool2 -> Bool1 = None \/ Bool2 = None ->
   mergeFormulas Bool1 Env1 Bool2 Env2 MergedEnv A = (None, MergedEnv, A)) /\
  (forall B1 B2,
     Bool1 = Some B1 -> Bool2 = Some B2 -> B1 <> B2 ->
     ((forall v, holds v (flowCondition Env1) = true -> eval v B1 = true) ->
      (forall v, holds v (flowCondition Env2) = true -> eval v B2 = true) ->
      mergeFormulas Bool1 Env1 Bool2 Env2 MergedEnv A
      = (Some (Lit true), MergedEnv, A)) /\
     (~ (forall v, holds v (flowCondition Env1) = true -> eval v B1 = true) ->
      (forall v, holds v (flowCondition Env1) = true -> eval v B1 = false) ->
      (forall v, holds v (flowCondition Env2) = true -> eval v B2 = false) ->
      mergeFormulas Bool1 Env1 Bool2 Env2 MergedEnv A
      = (Some (Lit false), MergedEnv, A)) /\
     (((forall v, holds v (flowCondition Env1) = true -> eval v B1 = true) /\
       ~ (forall v, holds v (flowCondition Env2) = true -> eval v B2 = true))
      \/
      (~ (forall v, holds v (flowCondition Env1) = true -> eval v B1 = true) /\
       ~ ((forall v, holds v (flowCondition Env1) = true ->
                     eval v B1 = false) /\
          (forall v, holds v (flowCondition Env2) = true ->
                     eval v B2 = false))) ->
      let Constraint :=
        Or (And (Atom (getFlowConditionToken Env1)) (Equals (Atom A) B1))
           (And (Atom (getFlowConditionToken Env2)) (Equals (Atom A) B2)) in
      mergeFormulas Bool1 Env1 Bool2 Env2 MergedEnv A
      = (Some (Atom A), assume Constraint MergedEnv, S A) /\
      forall v,
        holds v (flowCondition (assume Constraint MergedEnv)) = true <->
        holds v (flowCondition MergedEnv) = true /\
        ((v (getFlowConditionToken Env1) = true /\ v A = eval v B1) \/
         (v (getFlowConditionToken Env2) = true /\ v A = eval v B2)))) /\
  (fst (fst (mergeFormulas Bool1 Env1 Bool2 Env2 MergedEnv A)) = None <->
   Bool1 = None \/ Bool2 = None) /\
  ((forall v, holds v (flowCondition Env1) = false) ->
   fst (fst (mergeFormulas Bool1 Env1 Bool2 Env2 MergedEnv A))
   = Some (Lit false) ->
   Bool1 = Some (Lit false) /\ Bool2 = Some (Lit false)).
Proof.
  assert (forall B1 B2 v,
            holds v (flowCondition
                       (assume
                          (Or (And (Atom (getFlowConditionToken Env1))
                                   (Equals (Atom A) B1))
                              (And (Atom (getFlowConditionToken Env2))
                                   (Equals (Atom A) B2))) MergedEnv)) = true <->
            holds v (flowCondition MergedEnv) = true /\
            ((v (getFlowConditionToken Env1) = true /\ v A = eval v B1) \/
             (v (getFlowConditionToken Env2) = true /\ v A = eval v B2)))
    as Hfresh.
  { intros B1 B2 v.
    cbn [flowCondition assume]. rewrite holds_snoc, andb_true_iff. simpl.
    rewrite orb_true_iff, !andb_true_iff, !Bool.eqb_true_iff. tauto. }
  refine (conj _ (conj _ (conj _ (conj _ _)))).
  - intros <-. unfold mergeFormulas. now rewrite decide_True by reflexivity.
  - intros Hne Htop. unfold mergeFormulas.
    rewrite decide_False by assumption.
    destruct Bool1, Bool2; try reflexivity.
    destruct Htop; discriminate.
  - intros B1 B2 -> -> Hne. unfold mergeFormulas.
    rewrite decide_False by congruence.
    refine (conj _ (conj _ _)).
    + intros H1 H2.
      now rewrite (proj2 (proves_iff Env1 B1) H1),
                  (proj2 (proves_iff Env2 B2) H2).
    + intros Hn1 Hr1 Hr2.
      destruct (proves Env1 B1) eqn:Hp1;
        [exfalso; apply Hn1; now apply proves_iff |].
      now rewrite (proj2 (refutes_iff Env1 B1) Hr1),
                  (proj2 (refutes_iff Env2 B2) Hr2).
    + intros Hwhy. cbv zeta. split; [| apply Hfresh].
      destruct Hwhy as [[H1 Hn2] | [Hn1 Hnr]].
      * rewrite (proj2 (proves_iff Env1 B1) H1).
        destruct (proves Env2 B2) eqn:Hp2; [| reflexivity].
        exfalso. apply Hn2. now apply proves_iff.
      * destruct (proves Env1 B1) eqn:Hp1;
          [exfalso; apply Hn1; now apply proves_iff |].
        destruct (proves Env1 (Not B1) && proves Env2 (Not B2)) eqn:Hp2;
          [| reflexivity].
        exfalso. apply Hnr. apply andb_true_iff in Hp2 as [Hr1 Hr2].
        split; now apply refutes_iff.
  - unfold mergeFormulas.
    destruct (decide (Bool1 = Bool2)) as [<- | Hne]; simpl; [tauto |].
    destruct Bool1 as [B1|], Bool2 as [B2|]; simpl;
      try (split; [auto | reflexivity]).
    destruct (proves Env1 B1).
    + destruct (proves Env2 B2); simpl;
        (split; [discriminate | intros [|]; discriminate]).
    + destruct (proves Env1 (Not B1) && proves Env2 (Not B2)); simpl;
        (split; [discriminate | intros [|]; discriminate]).
  - intros Hdead. unfold mergeFormulas.
    destruct (decide (Bool1 = Bool2)) as [<- | Hne]; simpl; [now auto |].
    destruct Bool1 as [B1|], Bool2 as [B2|]; simpl; try discriminate.
    assert (proves Env1 B1 = true) as ->.
    { apply proves_iff. intros v Hv. rewrite Hdead in Hv. discriminate. }
    destruct (proves Env2 B2); simpl; discriminate.
Qed.

(** X26. A widened property is either "top" or the current formula, and it
    is the current formula only if the previous one is identical to it
    or the two are equivalent: the previous environment forces the
    previous formula to the value the current environment forces the
    current one to. Two identical properties are never widened. *)
Theorem widened_property_kept_only_if_equivalent
    (Prev Cur : option Formula) (PrevEnv CurEnv : Environment) :
  widenNullabilityProperty Cur PrevEnv Cur CurEnv = Cur /\
  forall W,
    widenNullabilityProperty Prev PrevEnv Cur CurEnv = Some W ->
    Cur = Some W /\
    (Prev = Cur \/
     exists P b,
       Prev = Some P /\
       (forall v, holds v (flowCondition PrevEnv) = true -> eval v P = b) /\
       (forall v, holds v (flowCondition CurEnv) = true -> eval v W = b)).
Proof.
  assert (forall Env f,
            proves Env (Not f) = true ->
            forall v, holds v (flowCondition Env) = true -> eval v f = false)
    as Hrefute.
  { intros Env f Hp v Hv.
    pose proof (proj1 (proves_spec _ _) Hp v Hv) as H. simpl in H.
    now apply negb_true_iff in H. }
  unfold widenNullabilityProperty. split.
  { now rewrite decide_True by reflexivity. }
  intros W Hrun.
  destruct (decide (Prev = Cur)) as [Heq | Hne]; [now auto |].
  destruct Prev as [P|], Cur as [C|]; try discriminate.
  destruct (proves PrevEnv P) eqn:Hp1.
  - destruct (proves CurEnv C) eqn:Hp2; [| discriminate].
    inversion Hrun; subst. split; [reflexivity |]. right.
    exists P, true. split; [reflexivity |].
    split; [exact (proj1 (proves_spec _ _) Hp1)
           | exact (proj1 (proves_spec _ _) Hp2)].
  - destruct (proves PrevEnv (Not P) && proves CurEnv (Not C)) eqn:Hp2;
      [| discriminate].
    apply andb_true_iff in Hp2 as [Hn1 Hn2].
    inversion Hrun; subst. split; [reflexivity |]. right.
    exists P, false. split; [reflexivity |]. split; eauto.
Qed.

(** X27. There is one top storage location per type: asking twice for a type
    gives the same location and creates nothing the second time, two
    types never share a location, and the table stays well-formed. *)
Theorem top_storage_location_is_canonical
    (Ty1 Ty2 : nat) (T : TopStorageLocations) :
  TopLocationsOk T ->
  let '(Loc1, T1) := getTopStorageLocation Ty1 T in
  let '(Loc2, T2) := getTopStorageLocation Ty2 T1 in
  TopLocationsOk T2 /\
  (Loc1 = Loc2 <-> Ty1 = Ty2) /\
  getTopStorageLocation Ty1 T2 = (Loc1, T2) /\
  (forall Ty Loc, locations T !! Ty = Some Loc ->
                  locations T2 !! Ty = Some Loc).
Proof.
  assert (forall Ty T,
            TopLocationsOk T ->
            TopLocationsOk (snd (getTopStorageLocation Ty T)) /\
            locations (snd (getTopStorageLocation Ty T)) !! Ty
            = Some (fst (getTopStorageLocation Ty T)) /\
            (forall Ty' Loc, locations T !! Ty' = Some Loc ->
                             locations (snd (getTopStorageLocation Ty T)) !! Ty'
                             = Some Loc)) as Hstep.
  { intros Ty T0 [Hlt Hinj]. unfold getTopStorageLocation.
    destruct (locations T0 !! Ty) as [Loc|] eqn:Hlook; simpl.
    - split; [split; assumption |]. split; [assumption | auto].
    - split; [split |]; [| | split].
      + intros Ty' Loc. simpl.
        destruct (decide (Ty = Ty')) as [<- | Hne].
        * rewrite lookup_insert_eq. intros [= <-]. lia.
        * rewrite lookup_insert_ne by assumption.
          intros H. apply Hlt in H. lia.
      + intros Ta Tb Loc. simpl.
        destruct (decide (Ty = Ta)) as [<- | Hna];
          destruct (decide (Ty = Tb)) as [<- | Hnb];
          rewrite ?lookup_insert_eq, ?lookup_insert_ne by assumption;
          try reflexivity.
        * intros [= <-] H. apply Hlt in H. lia.
        * intros H [= <-]. apply Hlt in H. lia.
        * apply Hinj.
      + apply lookup_insert_eq.
      + intros Ty' Loc H. rewrite lookup_insert_ne; [assumption |].
        intros <-. congruence. }
  intros HT.
  destruct (Hstep Ty1 T HT) as (HT1 & Hl1 & Hk1).
  destruct (getTopStorageLocation Ty1 T) as [Loc1 T1]. simpl in *.
  destruct (Hstep Ty2 T1 HT1) as (HT2 & Hl2 & Hk2).
  destruct (getTopStorageLocation Ty2 T1) as [Loc2 T2]. simpl in *.
  split; [assumption |]. split; [| split].
  - split.
    + intros <-. destruct HT2 as [_ Hinj].
      exact (Hinj Ty1 Ty2 Loc1 (Hk2 _ _ Hl1) Hl2).
    + intros <-. apply Hk2 in Hl1. congruence.
  - unfold getTopStorageLocation. now rewrite (Hk2 _ _ Hl1).
  - intros Ty Loc H. apply Hk2, Hk1, H.
Qed.

End AnalysisFacts.

Lemma null_check_comparison_respects_null_states_witness :
  exists Env' V,
    Analysis.transferValue_NullCheckComparison
      ValueSamples.PointerValue ValueSamples.getPointerValueFromExpr
      ValueSamples.hasPointerNullState ValueSamples.getPointerNullState
      ValueSamples.pNotNull ValueSamples.emptyEnv 20 = Some (Env', 20) /\
    Analysis.exprValues Env' !! 10 = Some V /\
    Analysis.flowCondition Env' = [].
Proof.
  destruct (null_check_comparison_respects_null_states
              ValueSamples.PointerValue ValueSamples.getPointerValueFromExpr
              ValueSamples.hasPointerNullState ValueSamples.getPointerNullState
              ValueSamples.pNotNull ValueSamples.emptyEnv 20
              (7, Some (Analysis.mkNullState (Some (Solver.Atom 4))
                                             (Some (Solver.Atom 5))))
              (0, Some (Analysis.mkNullState (Some (Solver.Lit true))
                                             (Some (Solver.Lit true))))
              (Solver.Atom 5) (Solver.Lit true)
              eq_refl eq_refl eq_refl eq_refl eq_refl eq_refl)
    as (Env' & V & Hrun & HV & Hfc & _).
  - discriminate.
  - right. left. reflexivity.
  - exists Env', V. split; [exact Hrun |]. split; [exact HV |].
    apply Hfc. right. reflexivity.
Defined.

Lemma null_check_comparison_frame_witness :
  Analysis.getFlowConditionToken
    (Analysis.setValue 10
       (Analysis.FormulaBoolValue (Solver.Not (Solver.Atom 5)))
       ValueSamples.emptyEnv)
  = Analysis.getFlowConditionToken ValueSamples.emptyEnv.
Proof.
  apply (null_check_comparison_frame
           ValueSamples.PointerValue ValueSamples.getPointerValueFromExpr
           ValueSamples.hasPointerNullState ValueSamples.getPointerNullState
           ValueSamples.pNotNull ValueSamples.emptyEnv
           (Analysis.setValue 10
              (Analysis.FormulaBoolValue (Solver.Not (Solver.Atom 5)))
              ValueSamples.emptyEnv)
           20 20 eq_refl).
Defined.

Lemma pointer_checked_by_cast_to_bool_witness :
  exists Env' V,
    Analysis.transferValue_NullCheckImplicitCastPtrToBool
      ValueSamples.PointerValue ValueSamples.getPointerValueFromExpr
      ValueSamples.getPointerNullState 11 1 ValueSamples.emptyEnv 20
    = (Env', 20) /\
    Analysis.flowCondition Env' = [] /\
    Analysis.exprValues Env' !! 11 = Some V.
Proof.
  destruct (pointer_checked_by_cast_to_bool
              ValueSamples.PointerValue ValueSamples.getPointerValueFromExpr
              ValueSamples.getPointerNullState 11 1 ValueSamples.emptyEnv 20
              (7, Some (Analysis.mkNullState (Some (Solver.Atom 4))
                                             (Some (Solver.Atom 5))))
              (Solver.Atom 5) eq_refl eq_refl)
    as (Env' & V & Hrun & Hfc & HV & _).
  exists Env', V. split; [exact Hrun |]. split; [exact Hfc | exact HV].
Defined.

Lemma top_storage_location_is_canonical_witness :
  Analysis.TopLocationsOk
    (Analysis.mkTopLocs (<[2 := 1]> (<[1 := 0]> ∅)) 2).
Proof.
  refine (proj1 (top_storage_location_is_canonical
                   1 2 (Analysis.mkTopLocs ∅ 0) _)).
  split.
  - intros Ty Loc H. simpl in H. rewrite lookup_empty in H. discriminate.
  - intros Ty1 Ty2 Loc H. simpl in H. rewrite lookup_empty in H. discriminate.
Defined.

Lemma computeNullability_stores_fitted_vector_witness :
  (exists N, (∅ : gmap nat TypeNullability) !! 3 = Some N /\
             {[3 := [Concrete Unspecified; Concrete Unspecified]]}
             = (∅ : gmap nat TypeNullability)) \/
  ((∅ : gmap nat TypeNullability) !! 3 = None /\
   exists N nfs1,
     TypeTransfer.ret [Concrete NonNull] ∅ = Some (N, nfs1) /\
     ({[3 := [Concrete Unspecified; Concrete Unspecified]]}
        : gmap nat TypeNullability) !! 3
     = Some (TypeTransfer.fitted (fun E => 2) 3 N) /\
     length (TypeTransfer.fitted (fun E => 2) 3 N) = 2 /\
     (length N = 2 -> TypeTransfer.fitted (fun E => 2) 3 N = N) /\
     (length N <> 2 ->
      TypeTransfer.fitted (fun E => 2) 3 N
      = replicate 2 (Concrete Unspecified))).
Proof.
  apply (computeNullability_stores_fitted_vector
           (fun E => E) (fun E => 2) 3
           (TypeTransfer.ret [Concrete NonNull]) ∅
           {[3 := [Concrete Unspecified; Concrete Unspecified]]}).
  reflexivity.
Defined.

Lemma computeNullability_is_write_once_witness :
  TypeTransfer.computeNullability (fun E => E) (fun E => 1) 3
    (TypeTransfer.ret [Concrete Nullable]) {[3 := [Concrete NonNull]]}
  = Some (tt, {[3 := [Concrete NonNull]]}).
Proof.
  refine (proj1 (computeNullability_is_write_once
                   (fun E => E) (fun E => 1) 3
                   (TypeTransfer.ret [Concrete NonNull]) ∅
                   {[3 := [Concrete NonNull]]} _) _).
  vm_compute. reflexivity.
Defined.

Lemma cast_preserves_top_level_pointers_witness :
  exists nfs',
    TypeTransfer.transferType_CastExpr
      (fun E => E) (fun E => 2)
      (fun E => replicate 2 (Concrete Unspecified))
      (fun E => replicate 2 (Concrete Unspecified))
      (fun _ _ _ => None)
      9 TypeTransfer.CK_BitCast 8 1 1 false
      {[8 := [Concrete Nullable; Concrete NonNull]]}
    = Some (tt, nfs') /\
    nfs' !! 9 = Some [Concrete Nullable; Concrete Unspecified] /\
    nfs' !! 8 = Some [Concrete Nullable; Concrete NonNull].
Proof.
  destruct (cast_preserves_top_level_pointers
              (fun E => E) (fun E => 2)
              (fun E => replicate 2 (Concrete Unspecified))
              (fun E => replicate 2 (Concrete Unspecified))
              (fun _ _ _ => None)
              9 8 TypeTransfer.CK_BitCast 1 1 false
              {[8 := [Concrete Nullable; Concrete NonNull]]})
    as (nfs' & Hrun & HCE & HSub).
  - right. left. reflexivity.
  - reflexivity.
  - discriminate.
  - reflexivity.
  - vm_compute. lia.
  - vm_compute. lia.
  - exists nfs'. split; [exact Hrun |].
    split; [rewrite HCE | rewrite HSub]; vm_compute; reflexivity.
Defined.

Lemma cast_fixes_outer_nullability_witness :
  exists nfs',
    TypeTransfer.transferType_CastExpr
      (fun E => E) (fun E => 1)
      (fun E => [Concrete Unspecified])
      (fun E => [Concrete Unspecified])
      (fun _ _ _ => None)
      9 TypeTransfer.CK_NullToPointer 8 0 1 false ∅
    = Some (tt, nfs') /\
    nfs' !! 9 = Some [Concrete Nullable].
Proof.
  destruct (cast_fixes_outer_nullability
              (fun E => E) (fun E => 1)
              (fun E => [Concrete Unspecified])
              (fun E => [Concrete Unspecified])
              (fun _ _ _ => None)
              9 8 0 1 false ∅) as [HNull _].
  - reflexivity.
  - discriminate.
  - destruct HNull as (nfs' & Hrun & HCE).
    + reflexivity.
    + simpl. lia.
    + reflexivity.
    + exists nfs'. split; [exact Hrun | exact HCE].
Defined.

(** ** Calls of [__assert_nullability] *)

Section AssertNullabilityFacts.
Import Solver Diagnosis.

Context `{API : TypeNullabilityAPI}.
Variable ignoreCFGOmittedNodes : ExprId -> ExprId.

Local Abbreviation diagnoseCallExpr :=
  (diagnoseCallExpr ignoreCFGOmittedNodes).
Local Abbreviation getExprNullability :=
  (getExprNullability ignoreCFGOmittedNodes).

Lemma expectedNullability_concrete (Ps : list TemplateArgument) :
  Forall (fun p => exists k, p = Concrete k) (expectedNullability Ps) /\
  length (expectedNullability Ps) <= length Ps.
Proof.
  induction Ps as [|[name | |] Ps [IHc IHl]]; simpl.
  - split; [constructor | lia].
  - split; [constructor; eauto | lia].
  - split; [assumption | lia].
  - split; [assumption | lia].
Qed.

(** X28. A call of [__assert_nullability<...>(e)] compares the vector
    computed for [e] with the one its template arguments spell, and does
    nothing else: no diagnostic if they are equal, one [AssertFailed] if
    they differ, one [Untracked] if [e] has no vector; the diagnostic is
    at the call, with context [Other] and no parameter name, and the
    arguments are not checked against the parameters. The expected
    vector is concrete and has at most one entry per template
    argument. *)
Theorem assert_nullability_call_verdict
    (id : ExprId) (ty : QualType) (range : SourceRange) (cls : CallClass)
    (Callee GivenExpr : Expr) (Args : list Expr)
    (direct : option CalleeDecl) (State : TransferState)
    (i : ExprId) (t : QualType) (r : SourceRange)
    (template_arguments : list TemplateArgument) :
  isAssertNullability direct = true ->
  IgnoreImpCasts Callee = DeclRefExpr i t r template_arguments ->
  let Expected := expectedNullability template_arguments in
  exists Ds,
    diagnoseCallExpr
      (CallExpr id ty range cls Callee (GivenExpr :: Args) direct) State
    = Some Ds /\
    (Ds = [] <-> getExprNullability GivenExpr State = Some Expected) /\
    (Ds = [mkDiag Untracked Other range None] <->
     getExprNullability GivenExpr State = None) /\
    (Ds = [mkDiag AssertFailed Other range None] <->
     exists Computed,
       getExprNullability GivenExpr State = Some Computed /\
       Computed <> Expected) /\
    Forall (fun p => exists k, p = Concrete k) Expected /\
    length Expected <= length template_arguments.
Proof.
  intros Hassert HDRE Expected.
  unfold Diagnosis.diagnoseCallExpr. rewrite Hassert.
  unfold diagnoseAssertNullabilityCall. rewrite HDRE.
  fold Expected.
  destruct (expectedNullability_concrete template_arguments) as [Hc Hl].
  destruct (Diagnosis.getExprNullability ignoreCFGOmittedNodes GivenExpr State)
    as [Computed|] eqn:HN.
  - destruct (decide (Computed = Expected)) as [-> | Hne].
    + eexists. split; [reflexivity |].
      refine (conj _ (conj _ (conj _ (conj Hc Hl)))).
      * split; reflexivity.
      * split; discriminate.
      * split; [discriminate |]. intros (C & [= <-] & HC). contradiction.
    + eexists. split; [reflexivity |].
      refine (conj _ (conj _ (conj _ (conj Hc Hl)))).
      * split; [discriminate |]. intros [= ->]. contradiction.
      * split; discriminate.
      * split; [eauto | reflexivity].
  - eexists. split; [reflexivity |].
    refine (conj _ (conj _ (conj _ (conj Hc Hl)))).
    + split; discriminate.
    + split; reflexivity.
    + split; [discriminate |]. intros (C & HC & _). discriminate.
Qed.

End AssertNullabilityFacts.

Lemma assert_nullability_call_verdict_witness :
  exists Ds,
    Diagnosis.diagnoseCallExpr (API := Samples.sampleAPI) id
      (Diagnosis.CallExpr 6 (Diagnosis.BuiltinType "void")
         (Diagnosis.mkRange 1 9) Diagnosis.PlainCall
         (Diagnosis.DeclRefExpr 7 (Diagnosis.BuiltinType "void")
            (Diagnosis.mkRange 1 2)
            [Diagnosis.TA_EnumeratorRef "NK_nullable";
             Diagnosis.TA_EnumeratorRef "NK_nonnull";
             Diagnosis.TA_NotExpression])
         [Samples.calleeFp]
         (Some (Diagnosis.mkCalleeDecl "__assert_nullability" true false [])))
      Samples.nullCalleeState
    = Some Ds /\
    Ds = [].
Proof.
  destruct (assert_nullability_call_verdict (API := Samples.sampleAPI) id
              6 (Diagnosis.BuiltinType "void") (Diagnosis.mkRange 1 9)
              Diagnosis.PlainCall
              (Diagnosis.DeclRefExpr 7 (Diagnosis.BuiltinType "void")
                 (Diagnosis.mkRange 1 2)
                 [Diagnosis.TA_EnumeratorRef "NK_nullable";
                  Diagnosis.TA_EnumeratorRef "NK_nonnull";
                  Diagnosis.TA_NotExpression])
              Samples.calleeFp []
              (Some (Diagnosis.mkCalleeDecl "__assert_nullability"
                       true false []))
              Samples.nullCalleeState
              7 (Diagnosis.BuiltinType "void") (Diagnosis.mkRange 1 2)
              [Diagnosis.TA_EnumeratorRef "NK_nullable";
               Diagnosis.TA_EnumeratorRef "NK_nonnull";
               Diagnosis.TA_NotExpression]
              eq_refl eq_refl)
    as (Ds & Hrun & Hequal & _).
  exists Ds. split; [exact Hrun |]. apply Hequal. vm_compute. reflexivity.
Defined.
